(** * git-manager: the graph view, the diff view and the local-repos store

    A shallow embedding of the TypeScript sources of the desktop client:

    - [BranchGraph] (the commit-graph component): [parseDiffByFile],
      [getDiffStats], the per-line numbering of the diff view,
      [renderConnections] and the context-menu handlers;
    - [App]: the debounced [git-changed] listener;
    - [useLocalReposStore]: the persisted list of local repositories;
    - the lane-allocation algorithm of the backend, which is not part of the
      TypeScript sources and is modelled from the specification.

    JavaScript strings are sequences of UTF-16 code units; they are modelled
    as lists of [N].  JavaScript numbers are binary64 values: the line
    counters of the diff view, which only take non-negative integer values
    or [Infinity], are integers rounded to 53 significant bits; the control
    ordinate of a curved connector is computed with the binary64 operations
    of the Standard Library ([SpecFloat]); row and column indices and the
    integer coordinates computed from them are modelled as [nat] and [Z]. *)

From Stdlib Require Import NArith ZArith QArith Lia String Ascii.
From Stdlib Require Import Decimal DecimalString DecimalPos DecimalN.
From Stdlib Require Import SpecFloat.
From stdpp Require Import gmap list strings.

(** ** JavaScript strings *)

Module JsString.

Definition jsstring : Type := list N.

(** A string literal of the source, as code units. *)
Definition str (s : string) : jsstring :=
  map N_of_ascii (list_ascii_of_string s).

#[global] Arguments str : simpl never.

(** [s.startsWith(p)] *)
Fixpoint startsWith (s p : jsstring) {struct p} : bool :=
  match p, s with
  | [], _ => true
  | _ :: _, [] => false
  | b :: p', c :: s' => (c =? b)%N && startsWith s' p'
  end.

(** [s.split(sep)] for a separator of one code unit: the result is never
    empty, and the empty string gives one empty piece. *)
Fixpoint split (sep : N) (s : jsstring) : list jsstring :=
  match s with
  | [] => [[]]
  | c :: s' =>
      if (c =? sep)%N then [] :: split sep s'
      else match split sep s' with
           | piece :: pieces => (c :: piece) :: pieces
           | [] => [[c]]
           end
  end.

(** [ls.join(sep)], used to write a text from its lines. *)
Fixpoint join (sep : N) (ls : list jsstring) : jsstring :=
  match ls with
  | [] => []
  | [l] => l
  | l :: ls' => l ++ sep :: join sep ls'
  end.

Definition NL : N := 10%N.

(** The decimal digits of a non-negative integer. *)
Definition dec (n : N) : jsstring :=
  str (NilEmpty.string_of_uint (N.to_uint n)).

Lemma startsWith_prefix_of (s p : jsstring) :
  startsWith s p = true ↔ p `prefix_of` s.
Proof.
  revert s. induction p as [|b p IH]; intros s; simpl.
  - split; [intros _; apply prefix_nil | done].
  - destruct s as [|c s].
    + split; [done | intros [k Hk]; discriminate].
    + rewrite andb_true_iff, N.eqb_eq, IH. split.
      * intros [-> Hp]. by apply prefix_cons.
      * intros [k Hk]. injection Hk as -> ->. split; [done | by exists k].
Qed.

Lemma startsWith_false (s p : jsstring) :
  startsWith s p = false ↔ ¬ p `prefix_of` s.
Proof.
  rewrite <- startsWith_prefix_of. destruct (startsWith s p); naive_solver.
Qed.

Lemma startsWith_app (p t : jsstring) : startsWith (p ++ t) p = true.
Proof. apply startsWith_prefix_of. by exists t. Qed.

Lemma split_no_sep sep (s : jsstring) : sep ∉ s → split sep s = [s].
Proof.
  induction s as [|c s IH]; intros Hs; simpl; [done |].
  apply not_elem_of_cons in Hs as [Hc Hs].
  destruct (N.eqb_spec c sep) as [->|_]; [done |].
  by rewrite (IH Hs).
Qed.



#[global] Arguments startsWith : simpl never.

End JsString.


(** ** Regular expressions

    The two patterns of the source use literals, greedy repetition of a
    character class, a greedy optional group and capture groups.  The
    matcher below is the backtracking matcher of JavaScript for that
    fragment, in continuation-passing style: a continuation receives the
    rest of the input and the captures so far, and a failing continuation
    makes the last greedy choice give back one character. *)

Module Regex.
Import JsString.

Inductive regex : Type :=
| Lit (cs : jsstring)            (* a literal sequence of characters *)
| Many (p : N → bool)            (* c*  for a character class c, greedy *)
| Many1 (p : N → bool)           (* c+  for a character class c, greedy *)
| Opt (r : regex)                (* (?:r)?  greedy *)
| Cat (r1 r2 : regex)
| Grp (i : nat) (r : regex).     (* capture group number i *)

(** The captures of a match: entry [i] is the text of group [i], entry 0
    the whole match, as in the array [String.prototype.match] returns. *)
Definition captures : Type := list (option jsstring).

Section matcher.
Context {R : Type}.

Fixpoint many (p : N → bool) (s : jsstring) (k : jsstring → option R)
  : option R :=
  match s with
  | c :: s' =>
      if p c then
        match many p s' k with
        | Some r => Some r
        | None => k s
        end
      else k s
  | [] => k []
  end.

Fixpoint matchk (r : regex) (s : jsstring) (caps : captures)
    (k : jsstring → captures → option R) : option R :=
  match r with
  | Lit cs => if startsWith s cs then k (drop (length cs) s) caps else None
  | Many p => many p s (λ s', k s' caps)
  | Many1 p =>
      match s with
      | c :: s' => if p c then many p s' (λ s'', k s'' caps) else None
      | [] => None
      end
  | Opt r' =>
      match matchk r' s caps k with
      | Some x => Some x
      | None => k s caps
      end
  | Cat r1 r2 => matchk r1 s caps (λ s' caps', matchk r2 s' caps' k)
  | Grp i r' =>
      matchk r' s caps
        (λ s' caps', k s' (<[i := Some (take (length s - length s') s)]> caps'))
  end.

End matcher.

(** A match anchored at the start of [s], with [n] capture groups. *)
Definition match_here (n : nat) (r : regex) (s : jsstring) : option captures :=
  matchk (Grp 0 r) s (replicate (S n) None) (λ _ caps, Some caps).

(** [s.match(r)] for a pattern without the global flag: the match at the
    leftmost position that has one, or [None] for JavaScript's [null]. *)
Fixpoint exec (n : nat) (r : regex) (s : jsstring) : option captures :=
  match match_here n r s with
  | Some caps => Some caps
  | None =>
      match s with
      | [] => None
      | _ :: s' => exec n r s'
      end
  end.

(** [m[i]] for a group that took part in the match. *)
Definition group (i : nat) (caps : captures) : jsstring :=
  default [] (mjoin (caps !! i)).

(** The class [.]: every code unit but the four line terminators. *)
Definition dot (c : N) : bool :=
  negb ((c =? 10) || (c =? 13) || (c =? 8232) || (c =? 8233))%N.

(** The class [\d] (without the unicode flag): the ten ASCII digits. *)
Definition digit (c : N) : bool := ((48 <=? c) && (c <=? 57))%N.

(** *** Facts about the matcher *)

Lemma many_app {R} p (ds t : jsstring) (k : jsstring → option R) r :
  Forall (λ c, p c = true) ds →
  many p t k = Some r → many p (ds ++ t) k = Some r.
Proof.
  induction 1 as [|c ds Hc _ IH]; intros Ht; simpl; [done |].
  by rewrite Hc, (IH Ht).
Qed.



(** A run of the class that ends the input or meets a character outside
    the class is taken whole when the continuation accepts what follows. *)
Lemma many_run {R} p (ds t : jsstring) (k : jsstring → option R) r :
  Forall (λ c, p c = true) ds →
  head (p <$> t) ≠ Some true →
  k t = Some r →
  many p (ds ++ t) k = Some r.
Proof.
  intros Hds Ht Hk. apply many_app; [done |].
  destruct t as [|c t]; simpl in *; [done |].
  destruct (p c); [done | done].
Qed.

Lemma many1_run {R} p (ds t : jsstring) caps
    (k : jsstring → captures → option R) r :
  ds ≠ [] →
  Forall (λ c, p c = true) ds →
  head (p <$> t) ≠ Some true →
  k t caps = Some r →
  matchk (Many1 p) (ds ++ t) caps k = Some r.
Proof.
  intros Hne Hds Ht Hk. destruct ds as [|d ds]; [done |].
  apply Forall_cons in Hds as [Hd Hds]. simpl. rewrite Hd.
  by apply many_run.
Qed.

Lemma matchk_Lit {R} (cs t : jsstring) caps
    (k : jsstring → captures → option R) :
  matchk (Lit cs) (cs ++ t) caps k = k t caps.
Proof. simpl. by rewrite startsWith_app, drop_app_length. Qed.

Lemma matchk_Lit_fail {R} (cs s : jsstring) caps
    (k : jsstring → captures → option R) :
  ¬ cs `prefix_of` s → matchk (Lit cs) s caps k = None.
Proof. intros H. simpl. by rewrite (proj2 (startsWith_false s cs) H). Qed.

Lemma matchk_Opt_taken {R} r' (s : jsstring) caps
    (k : jsstring → captures → option R) x :
  matchk r' s caps k = Some x → matchk (Opt r') s caps k = Some x.
Proof. intros H. simpl. by rewrite H. Qed.

(** The text a group consumed. *)
Lemma take_consumed (a t : jsstring) :
  take (length (a ++ t) - length t) (a ++ t) = a.
Proof.
  rewrite length_app, Nat.add_sub. by rewrite take_app_length.
Qed.

(** A match at the first position is the match [exec] returns. *)
Lemma exec_here n r (s : jsstring) caps :
  match_here n r s = Some caps → exec n r s = Some caps.
Proof. intros H. destruct s; simpl; by rewrite H. Qed.




(** *** Unfolding equations and the optional count of a hunk header *)

Lemma matchk_Cat {R} r1 r2 (s : jsstring) caps
    (k : jsstring → captures → option R) :
  matchk (Cat r1 r2) s caps k =
  matchk r1 s caps (λ s' caps', matchk r2 s' caps' k).
Proof. reflexivity. Qed.

Lemma matchk_Grp {R} i r' (s : jsstring) caps
    (k : jsstring → captures → option R) :
  matchk (Grp i r') s caps k =
  matchk r' s caps
    (λ s' caps', k s' (<[i := Some (take (length s - length s') s)]> caps')).
Proof. reflexivity. Qed.

Lemma matchk_Opt_skipped {R} r' (s : jsstring) caps
    (k : jsstring → captures → option R) :
  matchk r' s caps k = None → matchk (Opt r') s caps k = k s caps.
Proof. intros H. simpl. by rewrite H. Qed.

End Regex.


(** ** JavaScript numbers

    A Number is a binary64 value.  The line counters of the diff view start
    at 0, are set by [parseInt] on a run of digits and are advanced by
    [++]: they only take the values of non-negative integers, [Infinity]
    (a run of more than 308 digits) and [NaN].  Such a value is kept as the
    integer it is; what an operation returns is rounded to 53 significant
    bits, to nearest and to even on a tie, as binary64 does: the theorems
    [to_number_binary64] and [plus_one_binary64] below show that this is
    the conversion and the addition of the Standard Library's binary64
    ([SpecFloat]).  The ordinate of the control points of a curved
    connector has a fraction: it is computed with the binary64 operations
    of the Standard Library themselves. *)

Module JsNumber.
Import JsString Regex.

Definition prec : Z := 53.
Definition emax : Z := 1024.

Inductive number : Type :=
| Int (n : N)
| Infinity
| NaN.

(** [Number.MAX_SAFE_INTEGER] *)
Definition MAX_SAFE_INTEGER : N := 2 ^ 53 - 1.

(** The integer with at most 53 significant bits nearest to [n], the even
    one of the two on a tie: [sh] is the number of bits that do not fit,
    [q] the leading 53 bits and [r] the bits dropped. *)
Definition round53 (n : N) : N :=
  let sh := (N.size n - 53)%N in
  if (sh =? 0)%N then n
  else
    let q := N.shiftr n sh in
    let r := (n - N.shiftl q sh)%N in
    let half := N.shiftl 1 (sh - 1) in
    let q' :=
      match (r ?= half)%N with
      | Lt => q
      | Gt => (q + 1)%N
      | Eq => if N.even q then q else (q + 1)%N
      end in
    N.shiftl q' sh.

(** The Number for the mathematical integer [n]: the nearest binary64
    value, [Infinity] from 2^1024 on. *)
Definition to_number (n : N) : number :=
  let r := round53 n in
  if (N.size r <=? 1024)%N then Int r else Infinity.

(** The value [x + 1] that [x++] stores. *)
Definition plus_one (x : number) : number :=
  match x with
  | Int n => to_number (n + 1)
  | Infinity => Infinity
  | NaN => NaN
  end.

(** The mathematical integer written by the leading decimal digits. *)
Fixpoint parseInt_from (acc : N) (s : jsstring) : N :=
  match s with
  | c :: s' => if digit c then parseInt_from (10 * acc + (c - 48))%N s' else acc
  | [] => acc
  end.

(** [parseInt(s)]: the Number for the leading decimal digits of a string
    that starts with a digit, and [NaN] when there is no digit to read.
    The digits are read exactly and rounded once, as the engines do (the
    standard lets an engine approximate beyond the 20th digit).  (On a
    string that starts with white space, a sign or a hexadecimal prefix
    JavaScript reads on; the source only passes captures of [\d+].) *)
Definition parseInt (s : jsstring) : number :=
  match s with
  | c :: _ => if digit c then to_number (parseInt_from 0 s) else NaN
  | [] => NaN
  end.

(** [String(x)].  For a positive integer, [Number::toString] takes the
    least number [k] of significant digits for which some [s * 10^e] with
    [k] digits in [s] is a decimal that binary64 rounds to [x], and among
    those the one nearest to [x] (the even [s] on a tie); the candidates
    are the two multiples of [10^e] around [x].  Below 10^21 the digits of
    [s] are followed by [e] zeros, from there on the exponent is written. *)
Definition rounds_to (x v : N) : bool :=
  match to_number v with
  | Int r => (r =? x)%N
  | _ => false
  end.

Definition candidate (x : N) (k : nat) : option N :=
  let e := N.of_nat (length (dec x) - k) in
  let s := (x / 10 ^ e)%N in
  let lo := (s * 10 ^ e)%N in
  let hi := (lo + 10 ^ e)%N in
  match rounds_to x lo, rounds_to x hi with
  | true, true =>
      match (x - lo ?= hi - x)%N with
      | Lt => Some lo
      | Gt => Some hi
      | Eq => Some (if N.even s then lo else hi)
      end
  | true, false => Some lo
  | false, true => Some hi
  | false, false => None
  end.

Fixpoint shortest_from (x : N) (k : nat) (fuel : nat) : N :=
  match fuel with
  | O => x
  | S fuel' =>
      match candidate x k with
      | Some v => v
      | None => shortest_from x (S k) fuel'
      end
  end.

(** The decimal [String(x)] writes: with all its digits, [x] itself is a
    candidate. *)
Definition shortest (x : N) : N := shortest_from x 1 (length (dec x)).

Fixpoint drop_zeros (rev_digits : jsstring) : jsstring :=
  match rev_digits with
  | 48%N :: ds => drop_zeros ds
  | _ => rev_digits
  end.

(** The notation with an exponent: [d.ddde+n]. *)
Definition exponential (v : N) : jsstring :=
  let ds := dec v in
  let e := dec (N.of_nat (length ds - 1)) in
  match reverse (drop_zeros (reverse ds)) with
  | [] => []
  | [d] => d :: str "e+" ++ e
  | d :: rest => d :: str "." ++ rest ++ str "e+" ++ e
  end.

Definition String_of (x : number) : jsstring :=
  match x with
  | NaN => str "NaN"
  | Infinity => str "Infinity"
  | Int 0 => str "0"
  | Int x =>
      let v := shortest x in
      if (v <? 10 ^ 21)%N then dec v else exponential v
  end.

(** *** Binary64 arithmetic *)

Definition double : Type := spec_float.

(** The double for an integer. *)
Definition double_of_Z (z : Z) : double := binary_normalize prec emax z 0 false.

Definition double_add : double → double → double := SFadd prec emax.
Definition double_sub : double → double → double := SFsub prec emax.
Definition double_mul : double → double → double := SFmul prec emax.

(** The literal [0.3]: the double nearest to 3/10,
    5404319552844595 * 2^-54. *)
Definition literal_0_3 : double := S754_finite false 5404319552844595 (-54).

(** The rational a finite double stands for. *)
Definition double_value (x : double) : option Q :=
  match x with
  | S754_zero _ => Some 0%Q
  | S754_finite s m e =>
      let v := match e with
               | Zneg p => Zpos m # 2 ^ p
               | _ => inject_Z (Zpos m * 2 ^ e)
               end in
      Some (if s then Qopp v else v)
  | _ => None
  end.

(** The Number a double is, when it is a non-negative integer,
    [Infinity] or [NaN]. *)
Definition number_of_double (x : double) : option number :=
  match x with
  | S754_zero _ => Some (Int 0)
  | S754_infinity false => Some Infinity
  | S754_nan => Some NaN
  | S754_finite false m e =>
      match e with
      | Zneg p =>
          if (Npos m mod 2 ^ Npos p =? 0)%N then Some (Int (Npos m / 2 ^ Npos p))
          else None
      | _ => Some (Int (Npos m * 2 ^ Z.to_N e))
      end
  | _ => None
  end.

(** What the proofs about binary64 speak of: the record the Standard
    Library keeps while it shifts [k] bits out of a mantissa [M] (what is
    left, the last bit shifted out, and whether an earlier one was set);
    the mantissa rounded to nearest, to even on a tie, after [n] bits are
    dropped; and a finite double [m * 2^e] that is the integer [V]. *)
Definition shr_state (M : Z) (k : nat) : shr_record :=
  match k with
  | O => {| shr_m := M; shr_r := false; shr_s := false |}
  | S k' => {| shr_m := M / 2 ^ Z.of_nat k;
               shr_r := Z.testbit M (Z.of_nat k');
               shr_s := negb (M mod 2 ^ Z.of_nat k' =? 0)%Z |}
  end.

Definition rne (M n : Z) : Z :=
  let q := (M / 2 ^ n)%Z in
  match (M mod 2 ^ n ?= 2 ^ (n - 1))%Z with
  | Lt => q
  | Eq => if Z.even q then q else (q + 1)%Z
  | Gt => (q + 1)%Z
  end.

Definition has_value (m : positive) (e : Z) (V : Z) : Prop :=
  if (e <? 0)%Z then Z.pos m = (V * 2 ^ (- e))%Z
  else V = (Z.pos m * 2 ^ e)%Z.

(** *** Decimal digits: [parseInt] reads back what is written *)

Lemma str_uint_cons (d : uint) :
  match d with
  | Nil => str (NilEmpty.string_of_uint d) = []
  | D0 d' => str (NilEmpty.string_of_uint d) = 48%N :: str (NilEmpty.string_of_uint d')
  | D1 d' => str (NilEmpty.string_of_uint d) = 49%N :: str (NilEmpty.string_of_uint d')
  | D2 d' => str (NilEmpty.string_of_uint d) = 50%N :: str (NilEmpty.string_of_uint d')
  | D3 d' => str (NilEmpty.string_of_uint d) = 51%N :: str (NilEmpty.string_of_uint d')
  | D4 d' => str (NilEmpty.string_of_uint d) = 52%N :: str (NilEmpty.string_of_uint d')
  | D5 d' => str (NilEmpty.string_of_uint d) = 53%N :: str (NilEmpty.string_of_uint d')
  | D6 d' => str (NilEmpty.string_of_uint d) = 54%N :: str (NilEmpty.string_of_uint d')
  | D7 d' => str (NilEmpty.string_of_uint d) = 55%N :: str (NilEmpty.string_of_uint d')
  | D8 d' => str (NilEmpty.string_of_uint d) = 56%N :: str (NilEmpty.string_of_uint d')
  | D9 d' => str (NilEmpty.string_of_uint d) = 57%N :: str (NilEmpty.string_of_uint d')
  end.
Proof. by destruct d. Qed.

Ltac uint_head :=
  match goal with
  | |- context [NilEmpty.string_of_uint ?u] =>
      let E := fresh "E" in
      pose proof (str_uint_cons u) as E; cbv beta iota in E; rewrite E; clear E
  end.

Lemma str_uint_digits (d : uint) :
  Forall (λ c, digit c = true) (str (NilEmpty.string_of_uint d)).
Proof.
  induction d; uint_head; by constructor.
Qed.

Lemma parseInt_uint_acc (d : uint) (acc : positive) :
  parseInt_from (Npos acc) (str (NilEmpty.string_of_uint d)) =
  Npos (Pos.of_uint_acc d acc).
Proof.
  revert acc.
  induction d as [|d IH|d IH|d IH|d IH|d IH|d IH|d IH|d IH|d IH|d IH];
    intros acc; uint_head; [done | ..];
    cbn [parseInt_from Pos.of_uint_acc];
    (replace (digit _) with true by reflexivity); cbv iota;
    rewrite <- IH; f_equal; lia.
Qed.

Lemma parseInt_uint (d : uint) :
  parseInt_from 0 (str (NilEmpty.string_of_uint d)) = N.of_uint d.
Proof.
  unfold N.of_uint.
  induction d as [|d IH|d IH|d IH|d IH|d IH|d IH|d IH|d IH|d IH|d IH];
    uint_head; [done | exact IH | ..];
    cbn [parseInt_from Pos.of_uint];
    (replace (digit _) with true by reflexivity); cbv iota;
    rewrite <- parseInt_uint_acc; f_equal.
Qed.

Lemma parseInt_from_dec (n : N) : parseInt_from 0 (dec n) = n.
Proof.
  unfold dec. rewrite parseInt_uint. apply DecimalN.Unsigned.of_to.
Qed.

Lemma dec_digits (n : N) : Forall (λ c, digit c = true) (dec n).
Proof. apply str_uint_digits. Qed.

Lemma dec_nonempty (n : N) : dec n ≠ [].
Proof.
  unfold dec. destruct n as [|p]; [done |].
  pose proof (DecimalPos.Unsigned.to_uint_nonnil p) as Hp.
  change (N.to_uint (N.pos p)) with (Pos.to_uint p).
  destruct (Pos.to_uint p); done.
Qed.


(** *** Safe integers *)

Lemma size_safe (n : N) : (n ≤ MAX_SAFE_INTEGER)%N → (N.size n ≤ 53)%N.
Proof.
  intros H. destruct (N.eq_dec n 0%N) as [->|Hn]; [done |].
  rewrite N.size_log2 by done.
  assert (N.log2 n < 53)%N; [| lia].
  apply N.log2_lt_pow2; [lia |]. unfold MAX_SAFE_INTEGER in H. lia.
Qed.

Lemma round53_safe (n : N) : (n ≤ MAX_SAFE_INTEGER)%N → round53 n = n.
Proof.
  intros H. apply size_safe in H. unfold round53.
  replace (N.size n - 53)%N with 0%N by lia. done.
Qed.

(** A safe integer is a Number as it is. *)
Lemma to_number_safe (n : N) : (n ≤ MAX_SAFE_INTEGER)%N → to_number n = Int n.
Proof.
  intros H. unfold to_number. rewrite round53_safe by done.
  apply size_safe in H.
  destruct (N.leb_spec (N.size n) 1024) as [_|Hs]; [done | lia].
Qed.

(** One more than a safe integer is a Number as well: [x++] advances a
    safe counter by one. *)
Lemma plus_one_safe (n : N) :
  (n ≤ MAX_SAFE_INTEGER)%N → plus_one (Int n) = Int (n + 1).
Proof.
  intros H. simpl.
  destruct (N.eq_dec n MAX_SAFE_INTEGER) as [->|Hn]; [by vm_compute |].
  apply to_number_safe. lia.
Qed.

(** From 2^53 on, rounding stays at or above 2^53. *)
Lemma round53_large (n : N) : (2 ^ 53 ≤ n)%N → (2 ^ 53 ≤ round53 n)%N.
Proof.
  intros H. unfold round53.
  assert (n ≠ 0%N) as Hn by lia.
  assert (53 ≤ N.log2 n)%N as Hl by (apply N.log2_le_pow2; lia).
  assert (2 ^ N.log2 n ≤ n)%N as Hlog by (apply N.log2_spec; lia).
  rewrite N.size_log2 by done.
  set (sh := (N.succ (N.log2 n) - 53)%N).
  assert (N.log2 n = 52 + sh)%N as E by (unfold sh; lia).
  assert (1 ≤ sh)%N as Hsh by lia.
  destruct (N.eqb_spec sh 0) as [E0|_]; [lia |].
  assert (2 ^ 52 ≤ N.shiftr n sh)%N as Hq.
  { rewrite N.shiftr_div_pow2. rewrite E, N.pow_add_r in Hlog.
    apply N.div_le_lower_bound; [apply N.pow_nonzero; lia | lia]. }
  rewrite N.shiftl_mul_pow2.
  assert (2 ^ 1 ≤ 2 ^ sh)%N as Hp by (apply N.pow_le_mono_r; lia).
  change (2 ^ 1)%N with 2%N in Hp.
  set (q := N.shiftr n sh) in *.
  assert (∀ q', (q ≤ q')%N → (2 ^ 53 ≤ q' * 2 ^ sh)%N) as Hres.
  { intros q' Hq'. change (2 ^ 53)%N with (2 ^ 52 * 2)%N.
    apply N.mul_le_mono; lia. }
  destruct (_ ?= _)%N; [destruct (N.even q) | |]; apply Hres; lia.
Qed.

Lemma rounds_to_safe (x v : N) :
  (x ≤ MAX_SAFE_INTEGER)%N → rounds_to x v = true → v = x.
Proof.
  intros Hx. unfold rounds_to.
  destruct (N.le_gt_cases v MAX_SAFE_INTEGER) as [Hv|Hv].
  - rewrite to_number_safe by done. by intros ->%N.eqb_eq.
  - unfold to_number.
    assert (2 ^ 53 ≤ round53 v)%N as Hr
      by (apply round53_large; unfold MAX_SAFE_INTEGER in Hv; lia).
    destruct (_ <=? _)%N; [| done].
    intros E%N.eqb_eq. unfold MAX_SAFE_INTEGER in Hx. lia.
Qed.

Lemma candidate_safe (x : N) (k : nat) (v : N) :
  (x ≤ MAX_SAFE_INTEGER)%N → candidate x k = Some v → v = x.
Proof.
  intros Hx. unfold candidate.
  set (e := N.of_nat (length (dec x) - k)).
  assert (10 ^ e ≠ 0)%N as He by (apply N.pow_nonzero; lia).
  assert (x < x / 10 ^ e * 10 ^ e + 10 ^ e)%N as Hhi.
  { pose proof (N.div_mod x (10 ^ e) He) as E.
    pose proof (N.mod_lt x (10 ^ e) He) as Hm. lia. }
  destruct (rounds_to x (x / 10 ^ e * 10 ^ e + 10 ^ e)) eqn:E2.
  { apply rounds_to_safe in E2; [lia | done]. }
  destruct (rounds_to x (x / 10 ^ e * 10 ^ e)) eqn:E1; [| done].
  apply rounds_to_safe in E1; [| done]. congruence.
Qed.

Lemma shortest_from_safe (x : N) (k fuel : nat) :
  (x ≤ MAX_SAFE_INTEGER)%N → shortest_from x k fuel = x.
Proof.
  intros Hx. revert k. induction fuel as [|fuel IH]; intros k; [done |].
  simpl. destruct (candidate x k) as [v|] eqn:E; [| apply IH].
  by eapply candidate_safe.
Qed.

(** [String] writes a safe integer with all its digits. *)
Lemma String_of_safe (n : N) :
  (n ≤ MAX_SAFE_INTEGER)%N → String_of (Int n) = dec n.
Proof.
  intros H. destruct n as [|p]; [done |].
  unfold String_of, shortest. rewrite shortest_from_safe by done.
  destruct (N.ltb_spec (N.pos p) (10 ^ 21)) as [_|Hp]; [done |].
  unfold MAX_SAFE_INTEGER in H. lia.
Qed.

(** [parseInt] reads the digits of an integer as the Number nearest to
    it, and a safe integer as it is. *)
Lemma parseInt_dec_nearest (n : N) : parseInt (dec n) = to_number n.
Proof.
  unfold parseInt.
  pose proof (dec_nonempty n) as Hne. pose proof (dec_digits n) as Hd.
  destruct (dec n) as [|c s] eqn:E; [done |].
  apply Forall_cons in Hd as [-> _].
  by rewrite <- E, parseInt_from_dec.
Qed.

Lemma parseInt_dec (n : N) :
  (n ≤ MAX_SAFE_INTEGER)%N → parseInt (dec n) = Int n.
Proof. intros H. rewrite parseInt_dec_nearest. by apply to_number_safe. Qed.

(** *** Beyond the safe integers *)

(** At 2^53 the counter [x++] stops: 2^53 + 1 is no binary64 value and
    rounds back to 2^53; and [parseInt] gives the even neighbour of an odd
    integer above 2^53. *)
Lemma plus_one_stops : plus_one (Int (2 ^ 53)) = Int (2 ^ 53).
Proof. by vm_compute. Qed.

Lemma round53_even (n : N) : (2 ^ 53 ≤ n)%N → N.even (round53 n) = true.
Proof.
  intros H. unfold round53.
  assert (n ≠ 0%N) as Hn by lia.
  assert (53 ≤ N.log2 n)%N as Hl by (apply N.log2_le_pow2; lia).
  rewrite N.size_log2 by done.
  set (sh := (N.succ (N.log2 n) - 53)%N).
  assert (sh = N.succ (sh - 1)) as E by (unfold sh; lia).
  destruct (N.eqb_spec sh 0) as [E0|_]; [lia |].
  rewrite N.shiftl_mul_pow2, E, N.pow_succ_r'.
  rewrite N.mul_assoc, (N.mul_comm _ 2), <- N.mul_assoc.
  apply N.even_spec. by eexists.
Qed.

(** From 2^53 on no counter advances by one: the Numbers there are even,
    and [x++] stores a Number. *)
Lemma plus_one_beyond (n : N) :
  (2 ^ 53 ≤ n)%N → to_number n = Int n → plus_one (Int n) ≠ Int (n + 1).
Proof.
  intros H Hn. simpl. unfold to_number in *.
  pose proof (round53_even n H) as He.
  pose proof (round53_even (n + 1) ltac:(lia)) as He'.
  destruct (_ <=? _)%N; [| done]. injection Hn as Hn. rewrite Hn in He.
  destruct (_ <=? _)%N; [| done]. intros [= E]. rewrite E in He'.
  rewrite N.add_1_r, N.even_succ in He'.
  rewrite <- N.negb_even, He in He'. done.
Qed.

Lemma parseInt_rounds :
  parseInt (str "9007199254740993") = Int 9007199254740992 ∧
  parseInt (str "9007199254740995") = Int 9007199254740996.
Proof. by vm_compute. Qed.

Lemma String_of_large :
  String_of (to_number (2 ^ 60)) = str "1152921504606847000" ∧
  String_of (to_number (2 ^ 70)) = str "1.1805916207174113e+21" ∧
  String_of (to_number (10 ^ 21)) = str "1e+21" ∧
  String_of (to_number (10 ^ 309)) = str "Infinity".
Proof. by vm_compute. Qed.

(** The literal 0.3 is a binary64 value, and 3/10 is less than half a unit
    in its last place (2^-54) away. *)
Lemma literal_0_3_nearest :
  valid_binary prec emax literal_0_3 = true ∧
  ∃ v, double_value literal_0_3 = Some v ∧
       ((3 # 10) - (1 # 2 ^ 55) < v)%Q ∧ (v < (3 # 10) + (1 # 2 ^ 55))%Q.
Proof.
  split; [by vm_compute |]. eexists. split; [reflexivity |].
  split; by vm_compute.
Qed.

(** *** The rounding of binary64

    What [binary_round_aux] of the Standard Library returns on a positive
    mantissa in the range of the normal numbers, and from it that
    [to_number] is the rounding of binary64. *)

Section binary64.
Local Open Scope Z_scope.

Lemma digits2_size p : digits2_pos p = Pos.size p.
Proof. induction p; simpl; congruence. Qed.

Lemma iter_pos_nat {A} (f : A -> A) p x :
  SpecFloat.iter_pos f p x = Nat.iter (Pos.to_nat p) f x.
Proof.
  revert x. induction p as [p IH|p IH|]; intros x; cbn [SpecFloat.iter_pos].
  - rewrite !IH, Pos2Nat.inj_xI.
    replace (S (2 * Pos.to_nat p))%nat with (Pos.to_nat p + S (Pos.to_nat p))%nat by lia.
    rewrite Nat.iter_add. f_equal. rewrite Nat.iter_succ_r. reflexivity.
  - rewrite !IH, Pos2Nat.inj_xO.
    replace (2 * Pos.to_nat p)%nat with (Pos.to_nat p + Pos.to_nat p)%nat by lia.
    rewrite Nat.iter_add. reflexivity.
  - reflexivity.
Qed.

Lemma shr_1_nonneg m r s :
  0 <= m ->
  shr_1 {| shr_m := m; shr_r := r; shr_s := s |} =
  {| shr_m := m / 2; shr_r := Z.odd m; shr_s := r || s |}.
Proof.
  intros H. destruct m as [|p|p]; [reflexivity | | lia].
  destruct p as [p|p|]; cbn [shr_1].
  - f_equal. rewrite Pos2Z.inj_xI. symmetry.
    rewrite Z.mul_comm, Z.add_comm. rewrite Z.div_add by lia. reflexivity.
  - f_equal. rewrite Pos2Z.inj_xO. symmetry.
    rewrite Z.mul_comm. apply Z.div_mul. lia.
  - reflexivity.
Qed.

Lemma shr_iter (M : Z) (k : nat) :
  0 <= M ->
  Nat.iter k shr_1 {| shr_m := M; shr_r := false; shr_s := false |} = shr_state M k.
Proof.
  intros HM. induction k as [|k IH]; [reflexivity |].
  cbn [Nat.iter nat_rect]. change (nat_rect _ _ _ k) with (Nat.iter k shr_1 {| shr_m := M; shr_r := false; shr_s := false |}).
  rewrite IH. destruct k as [|k].
  - cbn [shr_state]. rewrite shr_1_nonneg by lia.
    change (Z.of_nat 0) with 0. change (Z.of_nat 1) with 1.
    change (2 ^ 1) with 2. change (2 ^ 0) with 1.
    rewrite Z.bit0_odd, Z.mod_1_r. reflexivity.
  - cbn [shr_state]. rewrite shr_1_nonneg by (apply Z.div_pos; lia).
    assert (M / 2 ^ Z.of_nat (S k) / 2 = M / 2 ^ Z.of_nat (S (S k))) as ->.
    { rewrite Z.div_div by lia. f_equal.
      replace (Z.of_nat (S (S k))) with (Z.of_nat (S k) + 1) by lia.
      rewrite Z.pow_add_r by lia. reflexivity. }
    assert (Z.odd (M / 2 ^ Z.of_nat (S k)) = Z.testbit M (Z.of_nat (S k))) as ->.
    { rewrite Z.testbit_odd, Z.shiftr_div_pow2 by lia. reflexivity. }
    assert (Z.testbit M (Z.of_nat k) || negb (M mod 2 ^ Z.of_nat k =? 0) =
            negb (M mod 2 ^ Z.of_nat (S k) =? 0)) as ->; [| reflexivity].
    replace (Z.of_nat (S k)) with (Z.of_nat k + 1) by lia.
    rewrite Z.pow_add_r by lia. change (2 ^ 1) with 2.
    rewrite Z.rem_mul_r by lia.
    rewrite Z.testbit_odd, Z.shiftr_div_pow2 by lia.
    rewrite <- Z.bit0_mod, Z.bit0_odd.
    pose proof (Z.mod_pos_bound M (2 ^ Z.of_nat k) ltac:(lia)) as Hb.
    destruct (Z.odd (M / 2 ^ Z.of_nat k)); cbn [Z.b2z orb].
    + symmetry. apply negb_true_iff, Z.eqb_neq. lia.
    + f_equal. f_equal. lia.
Qed.

Lemma digits_log2 p : Z.pos (digits2_pos p) = Z.log2 (Z.pos p) + 1.
Proof.
  rewrite digits2_size. destruct p as [p|p|]; cbn [Z.log2 Pos.size]; lia.
Qed.

Lemma digits_bounds p d :
  Z.pos (digits2_pos p) = d <-> 2 ^ (d - 1) <= Z.pos p < 2 ^ d.
Proof.
  rewrite digits_log2. split.
  - intros <-. replace (Z.log2 (Z.pos p) + 1 - 1) with (Z.log2 (Z.pos p)) by lia.
    replace (Z.log2 (Z.pos p) + 1) with (Z.succ (Z.log2 (Z.pos p))) by lia.
    apply Z.log2_spec. lia.
  - intros H. assert (0 <= d - 1).
    { destruct (Z.le_gt_cases 0 (d - 1)) as [|Hneg]; [assumption |].
      exfalso. assert (d <= 0) by lia.
      assert (2 ^ d <= 2 ^ 0) by (apply Z.pow_le_mono_r; lia).
      change (2 ^ 0) with 1 in *. lia. }
    assert (Z.log2 (Z.pos p) = d - 1); [| lia].
    apply Z.log2_unique; [assumption |].
    replace (Z.succ (d - 1)) with d by lia. assumption.
Qed.

Lemma shr_round (M : Z) (k : nat) :
  0 <= M -> (0 < k)%nat ->
  round_nearest_even (shr_m (shr_state M k)) (loc_of_shr_record (shr_state M k)) =
  rne M (Z.of_nat k).
Proof.
  intros HM Hk. destruct k as [|k]; [lia |]. cbn [shr_state shr_m]. unfold rne.
  replace (Z.of_nat (S k) - 1) with (Z.of_nat k) by lia.
  set (q := M / 2 ^ Z.of_nat (S k)).
  assert (M mod 2 ^ Z.of_nat (S k) =
          M mod 2 ^ Z.of_nat k + 2 ^ Z.of_nat k * Z.b2z (Z.testbit M (Z.of_nat k))) as E.
  { replace (Z.of_nat (S k)) with (Z.of_nat k + 1) by lia.
    rewrite Z.pow_add_r by lia. change (2 ^ 1) with 2.
    rewrite Z.rem_mul_r by lia.
    rewrite Z.testbit_odd, Z.shiftr_div_pow2 by lia.
    rewrite <- Z.bit0_mod, Z.bit0_odd. reflexivity. }
  rewrite E.
  pose proof (Z.mod_pos_bound M (2 ^ Z.of_nat k) ltac:(lia)) as Hb.
  destruct (Z.testbit M (Z.of_nat k)); cbn [Z.b2z].
  - destruct (Z.eqb_spec (M mod 2 ^ Z.of_nat k) 0) as [E0|E0]; cbn [negb loc_of_shr_record round_nearest_even].
    + rewrite E0. replace (0 + 2 ^ Z.of_nat k * 1) with (2 ^ Z.of_nat k) by lia.
      rewrite Z.compare_refl. reflexivity.
    + replace (_ ?= _) with Gt; [reflexivity |]. symmetry. apply Z.compare_gt_iff. lia.
  - replace (_ ?= _) with Lt by (symmetry; apply Z.compare_lt_iff; lia).
    destruct (negb _); reflexivity.
Qed.

Lemma fexp_normal d : -1074 <= d - 53 -> fexp prec emax d = d - 53.
Proof. intros H. unfold fexp, emin, prec, emax. lia. Qed.

Lemma round_aux_small (s : bool) (M : positive) (e : Z) :
  Z.pos (digits2_pos M) <= 53 -> -1074 <= Z.pos (digits2_pos M) + e - 53 ->
  binary_round_aux prec emax s (Z.pos M) e loc_Exact =
  if e <=? 971 then S754_finite s M e else S754_infinity s.
Proof.
  intros Hd Hn. unfold binary_round_aux.
  assert (shr_fexp prec emax (Z.pos M) e loc_Exact =
          ({| shr_m := Z.pos M; shr_r := false; shr_s := false |}, e)) as E.
  { unfold shr_fexp. cbn [Zdigits2 shr_record_of_loc].
    rewrite fexp_normal by lia. unfold shr.
    destruct (Z.pos (digits2_pos M) + e - 53 - e) eqn:E; [reflexivity | lia | reflexivity]. }
  rewrite E. cbn [shr_m loc_of_shr_record round_nearest_even]. rewrite E.
  cbn [shr_m]. reflexivity.
Qed.

Lemma rne_bounds (M n : Z) :
  0 <= M -> 0 < n -> M / 2 ^ n <= rne M n <= M / 2 ^ n + 1.
Proof.
  intros HM Hn. unfold rne.
  destruct (_ ?= _); [destruct (Z.even _) | |]; lia.
Qed.

Lemma round_aux_large (s : bool) (M : positive) (e : Z) :
  53 < Z.pos (digits2_pos M) -> -1074 <= Z.pos (digits2_pos M) + e - 53 ->
  binary_round_aux prec emax s (Z.pos M) e loc_Exact =
  let n := Z.pos (digits2_pos M) - 53 in
  let q := rne (Z.pos M) n in
  if q =? 2 ^ 53 then
    if e + n + 1 <=? 971 then S754_finite s (2 ^ 52) (e + n + 1)
    else S754_infinity s
  else
    if e + n <=? 971 then S754_finite s (Z.to_pos q) (e + n)
    else S754_infinity s.
Proof.
  intros Hd Hn. cbv zeta.
  set (d := Z.pos (digits2_pos M)) in *.
  set (n := d - 53).
  assert (2 ^ (d - 1) <= Z.pos M < 2 ^ d) as HM by (by apply digits_bounds).
  assert (2 ^ 52 <= Z.pos M / 2 ^ n < 2 ^ 53) as Hq.
  { assert (2 ^ (d - 1) = 2 ^ 52 * 2 ^ n) as E1
      by (rewrite <- Z.pow_add_r by lia; f_equal; lia).
    assert (2 ^ d = 2 ^ 53 * 2 ^ n) as E2
      by (rewrite <- Z.pow_add_r by lia; f_equal; lia).
    assert (0 < 2 ^ n) by (apply Z.pow_pos_nonneg; lia).
    split.
    - apply Z.div_le_lower_bound; lia.
    - apply Z.div_lt_upper_bound; lia. }
  pose proof (rne_bounds (Z.pos M) n ltac:(lia) ltac:(lia)) as Hr.
  set (q := rne (Z.pos M) n) in *.
  unfold binary_round_aux.
  assert (shr_fexp prec emax (Z.pos M) e loc_Exact =
          (shr_state (Z.pos M) (Z.to_nat n), e + n)) as E.
  { unfold shr_fexp. cbn [Zdigits2 shr_record_of_loc]. fold d.
    rewrite fexp_normal by lia. unfold shr.
    replace (d + e - 53 - e) with n by lia.
    destruct n as [|pn|pn] eqn:En; [lia | | lia].
    rewrite iter_pos_nat, shr_iter by lia. reflexivity. }
  rewrite E.
  rewrite shr_round by lia. rewrite Z2Nat.id by lia. fold q.
  destruct (Z.eqb_spec q (2 ^ 53)) as [Eq|Eq].
  - rewrite Eq.
    assert (shr_fexp prec emax (2 ^ 53) (e + n) loc_Exact =
            ({| shr_m := 2 ^ 52; shr_r := false; shr_s := false |}, e + n + 1)) as E'.
    { unfold shr_fexp. change (Zdigits2 (2 ^ 53)) with 54.
      rewrite fexp_normal by lia.
      replace (54 + (e + n) - 53 - (e + n)) with 1 by lia. reflexivity. }
    rewrite E'. reflexivity.
  - assert (2 ^ 52 <= q < 2 ^ 53) as Hq' by lia.
    destruct q as [|pq|pq] eqn:Epq; [lia | | lia].
    assert (Z.pos (digits2_pos pq) = 53) as Hdq by (by apply digits_bounds).
    assert (shr_fexp prec emax (Z.pos pq) (e + n) loc_Exact =
            ({| shr_m := Z.pos pq; shr_r := false; shr_s := false |}, e + n)) as E'.
    { unfold shr_fexp. cbn [Zdigits2 shr_record_of_loc]. rewrite Hdq.
      rewrite fexp_normal by lia. unfold shr.
      replace (53 + (e + n) - 53 - (e + n)) with 0 by lia. reflexivity. }
    rewrite E'. reflexivity.
Qed.

Lemma shl_iter (p k : positive) :
  Z.pos (Pos.iter xO p k) = Z.pos p * 2 ^ Z.pos k.
Proof.
  rewrite Pos2Nat.inj_iter.
  rewrite <- (positive_nat_Z k).
  induction (Pos.to_nat k) as [|m IH]; [simpl; lia |].
  cbn [nat_rect]. rewrite Pos2Z.inj_xO, IH.
  replace (Z.of_nat (S m)) with (Z.of_nat m + 1) by lia.
  rewrite Z.pow_add_r by lia. lia.
Qed.

Lemma round53_rne (p : positive) :
  53 < Z.pos (Pos.size p) →
  Z.of_N (round53 (N.pos p)) =
  rne (Z.pos p) (Z.pos (Pos.size p) - 53) * 2 ^ (Z.pos (Pos.size p) - 53).
Proof.
  intros Hd. unfold round53. cbn [N.size].
  set (sh := (N.pos (Pos.size p) - 53)%N).
  assert (Z.of_N sh = Z.pos (Pos.size p) - 53) as Esh by (unfold sh; lia).
  destruct (N.eqb_spec sh 0) as [E0|_]; [lia |].
  rewrite <- Esh. unfold rne.
  rewrite N.shiftl_mul_pow2, N2Z.inj_mul, N2Z.inj_pow. f_equal.
  assert (Z.of_N (N.shiftr (N.pos p) sh) = Z.pos p / 2 ^ Z.of_N sh) as Eq.
  { rewrite N.shiftr_div_pow2, N2Z.inj_div, N2Z.inj_pow. reflexivity. }
  assert (0 < 2 ^ Z.of_N sh) as Hp by (apply Z.pow_pos_nonneg; lia).
  assert (Z.of_N (N.pos p - N.shiftl (N.shiftr (N.pos p) sh) sh) =
          Z.pos p mod 2 ^ Z.of_N sh) as Er.
  { rewrite N.shiftl_mul_pow2.
    pose proof (Z.div_mod (Z.pos p) (2 ^ Z.of_N sh) ltac:(lia)) as Hdm.
    pose proof (Z.mod_pos_bound (Z.pos p) (2 ^ Z.of_N sh) Hp) as Hb.
    rewrite N2Z.inj_sub.
    - rewrite N2Z.inj_mul, N2Z.inj_pow, Eq. simpl Z.of_N at 1. lia.
    - apply N2Z.inj_le. rewrite N2Z.inj_mul, N2Z.inj_pow, Eq.
      simpl Z.of_N at 3. lia. }
  assert (Z.of_N (N.shiftl 1 (sh - 1)) = 2 ^ (Z.of_N sh - 1)) as Eh.
  { rewrite N.shiftl_mul_pow2, N.mul_1_l, N2Z.inj_pow. f_equal. lia. }
  rewrite <- Eq, <- Er, <- Eh, <- N2Z.inj_compare.
  set (q := N.shiftr (N.pos p) sh).
  assert (Z.even (Z.of_N q) = N.even q) as -> by (by destruct q as [|[]]).
  destruct (Z.of_N _ ?= Z.of_N _); [| reflexivity | by rewrite N2Z.inj_add].
  destruct (N.even q); [reflexivity | by rewrite N2Z.inj_add].
Qed.

Lemma size_bounds (r : N) (b : Z) :
  0 ≤ b → 2 ^ b ≤ Z.of_N r < 2 ^ (b + 1) → Z.of_N (N.size r) = b + 1.
Proof.
  intros Hb Hr.
  assert (0 < 2 ^ b) by (apply Z.pow_pos_nonneg; lia).
  assert (r ≠ 0%N) as Hr0 by lia.
  rewrite N.size_log2, N2Z.inj_succ by done.
  rewrite (N.log2_unique r (Z.to_N b)); [lia | lia |].
  split.
  - apply N2Z.inj_le. rewrite N2Z.inj_pow, Z2N.id by done. apply Hr.
  - apply N2Z.inj_lt. rewrite N2Z.inj_pow, N2Z.inj_succ, Z2N.id by done.
    replace (Z.succ b) with (b + 1) by lia. apply Hr.
Qed.

Lemma number_of_finite (m : positive) (e : Z) (r : N) :
  0 ≤ e → Z.of_N r = Z.pos m * 2 ^ e →
  number_of_double (S754_finite false m e) = Some (Int r).
Proof.
  intros He Hr. unfold number_of_double.
  assert (r = (N.pos m * 2 ^ Z.to_N e)%N) as ->.
  { apply N2Z.inj. rewrite Hr, N2Z.inj_mul, N2Z.inj_pow, Z2N.id by done.
    reflexivity. }
  by destruct e.
Qed.

Lemma safe_of_bound (p : positive) :
  Z.pos p < 2 ^ 53 → (N.pos p ≤ MAX_SAFE_INTEGER)%N.
Proof.
  intros H. change (2 ^ 53) with 9007199254740992 in H.
  change MAX_SAFE_INTEGER with 9007199254740991%N. lia.
Qed.

(** [to_number] is the rounding of binary64: the double for the integer
    [n] is the Number [to_number n]. *)
Theorem to_number_binary64 (n : N) :
  number_of_double (double_of_Z (Z.of_N n)) = Some (to_number n).
Proof.
  destruct n as [|p]; [reflexivity |].
  unfold double_of_Z, binary_normalize. cbn [Z.of_N]. unfold binary_round.
  pose proof (digits2_size p) as Hsize.
  set (d := Z.pos (digits2_pos p)) in *.
  assert (2 ^ (d - 1) ≤ Z.pos p < 2 ^ d) as Hp by (by apply digits_bounds).
  assert (1 ≤ d) as Hd1 by (unfold d; lia).
  replace (d + 0) with d by lia. rewrite fexp_normal by lia.
  unfold shl_align. replace (d - 53 - 0) with (d - 53) by lia.
  destruct (Z.compare_spec d 53) as [E|Hlt|Hgt].
  - (* exactly 53 digits *)
    rewrite E. change (53 - 53) with 0. cbv beta iota.
    rewrite round_aux_small by (fold d; lia). cbn [Z.leb Z.compare].
    rewrite (number_of_finite p 0 (N.pos p));
      [| lia | change (2 ^ 0) with 1; simpl Z.of_N; lia].
    rewrite to_number_safe; [done |].
    apply safe_of_bound. rewrite E in Hp. apply Hp.
  - (* fewer digits: the mantissa is shifted left, exactly *)
    destruct (d - 53) as [|k|k] eqn:Ek; [lia | lia |]. cbv beta iota.
    assert (Z.pos (Pos.iter xO p k) = Z.pos p * 2 ^ Z.pos k) as Em
      by apply shl_iter.
    assert (Z.pos k = 53 - d) as Hk by lia.
    assert (0 < 2 ^ Z.pos k) as Hpk by (apply Z.pow_pos_nonneg; lia).
    assert (Z.pos (digits2_pos (Pos.iter xO p k)) = 53) as Hd53.
    { apply digits_bounds. rewrite Em.
      replace (2 ^ (53 - 1)) with (2 ^ (d - 1) * 2 ^ Z.pos k)
        by (rewrite <- Z.pow_add_r by lia; f_equal; lia).
      replace (2 ^ 53) with (2 ^ d * 2 ^ Z.pos k)
        by (rewrite <- Z.pow_add_r by lia; f_equal; lia).
      nia. }
    rewrite round_aux_small by (rewrite Hd53; lia).
    replace (Z.neg k <=? 971) with true by (symmetry; apply Z.leb_le; lia).
    unfold number_of_double.
    assert (N.pos (Pos.iter xO p k) = (N.pos p * 2 ^ N.pos k)%N) as En.
    { apply N2Z.inj. rewrite N2Z.inj_mul, N2Z.inj_pow. exact Em. }
    rewrite En, N.Div0.mod_mul, N.div_mul by (apply N.pow_nonzero; lia).
    cbn [N.eqb]. rewrite to_number_safe; [done |].
    apply safe_of_bound.
    assert (2 ^ d ≤ 2 ^ 53) by (apply Z.pow_le_mono_r; lia). lia.
  - (* more digits: rounding *)
    destruct (d - 53) as [|k|k] eqn:Ek; [lia | | lia]. cbv beta iota.
    rewrite round_aux_large by (fold d; lia). fold d. rewrite Ek.
    cbv zeta. replace (0 + Z.pos k) with (Z.pos k) by lia.
    replace (0 + Z.pos k + 1) with (Z.pos k + 1) by lia.
    pose proof (round53_rne p) as Hr. rewrite <- Hsize in Hr. fold d in Hr.
    rewrite Ek in Hr. specialize (Hr ltac:(lia)).
    set (q := rne (Z.pos p) (Z.pos k)) in *.
    assert (0 < 2 ^ Z.pos k) as Hpk by (apply Z.pow_pos_nonneg; lia).
    assert (2 ^ 52 ≤ q ≤ 2 ^ 53) as Hq.
    { pose proof (rne_bounds (Z.pos p) (Z.pos k) ltac:(lia) ltac:(lia)) as Hb.
      fold q in Hb.
      assert (2 ^ (d - 1) = 2 ^ 52 * 2 ^ Z.pos k) as E1
        by (rewrite <- Z.pow_add_r by lia; f_equal; lia).
      assert (2 ^ d = 2 ^ 53 * 2 ^ Z.pos k) as E2
        by (rewrite <- Z.pow_add_r by lia; f_equal; lia).
      assert (2 ^ 52 ≤ Z.pos p `div` 2 ^ Z.pos k) 
        by (apply Z.div_le_lower_bound; lia).
      assert (Z.pos p `div` 2 ^ Z.pos k < 2 ^ 53)
        by (apply Z.div_lt_upper_bound; lia).
      lia. }
    unfold to_number.
    destruct (Z.eqb_spec q (2 ^ 53)) as [Eq|Eq].
    + assert (Z.of_N (N.size (round53 (N.pos p))) = (53 + Z.pos k) + 1) as Hs.
      { apply size_bounds; [lia |]. rewrite Hr, Eq.
        rewrite <- !Z.pow_add_r by lia.
        split; [lia |]. apply Z.pow_lt_mono_r; lia. }
      destruct (Z.leb_spec (Z.pos k + 1) 971) as [Hle|Hle];
        destruct (N.leb_spec (N.size (round53 (N.pos p))) 1024) as [Hle'|Hle'];
        try lia; [| done].
      apply number_of_finite; [lia |]. rewrite Hr, Eq.
      rewrite Z.pow_add_r by lia. change (2 ^ 1) with 2.
      change (Z.pos (2 ^ 52)) with (2 ^ 52). change (2 ^ 53) with (2 ^ 52 * 2).
      lia.
    + assert (Z.of_N (N.size (round53 (N.pos p))) = (52 + Z.pos k) + 1) as Hs.
      { apply size_bounds; [lia |]. rewrite Hr.
        rewrite !Z.pow_add_r by lia. change (2 ^ 1) with 2.
        change (2 ^ 53) with (2 ^ 52 * 2) in Hq. nia. }
      destruct (Z.leb_spec (Z.pos k) 971) as [Hle|Hle];
        destruct (N.leb_spec (N.size (round53 (N.pos p))) 1024) as [Hle'|Hle'];
        try lia; [| done].
      apply number_of_finite; [lia |]. rewrite Hr.
      rewrite Z2Pos.id by lia. reflexivity.
Qed.

Lemma pow2_pos (n : Z) : 0 ≤ n → 0 < 2 ^ n.
Proof. intros H. apply Z.pow_pos_nonneg; lia. Qed.

Lemma rne_exact (a n : Z) : 0 ≤ a → 0 < n → rne (a * 2 ^ n) n = a.
Proof.
  intros Ha Hn. unfold rne.
  pose proof (pow2_pos n ltac:(lia)) as Hp.
  pose proof (pow2_pos (n - 1) ltac:(lia)) as Hp'.
  rewrite Z.mod_mul, Z.div_mul by lia.
  by replace (0 ?= 2 ^ (n - 1)) with Lt by (symmetry; apply Z.compare_lt_iff; lia).
Qed.

Lemma rne_scale (M n j : Z) :
  0 ≤ M → 0 < n → 0 ≤ j → rne (M * 2 ^ j) (n + j) = rne M n.
Proof.
  intros HM Hn Hj. unfold rne.
  pose proof (pow2_pos n ltac:(lia)) as Hp.
  pose proof (pow2_pos j Hj) as Hpj.
  rewrite !Z.pow_add_r by lia.
  replace (n + j - 1) with (n - 1 + j) by lia. rewrite Z.pow_add_r by lia.
  rewrite Z.div_mul_cancel_r by lia.
  rewrite Z.mul_mod_distr_r by lia.
  destruct (Z.compare_spec (M mod 2 ^ n * 2 ^ j) (2 ^ (n - 1) * 2 ^ j)),
           (Z.compare_spec (M mod 2 ^ n) (2 ^ (n - 1)));
    try reflexivity; exfalso; nia.
Qed.

Lemma rne_error (M n : Z) :
  0 ≤ M → 0 < n → Z.abs (rne M n * 2 ^ n - M) ≤ 2 ^ (n - 1).
Proof.
  intros HM Hn. unfold rne.
  pose proof (pow2_pos n ltac:(lia)) as Hp.
  pose proof (Z.div_mod M (2 ^ n) ltac:(lia)) as Hdm.
  pose proof (Z.mod_pos_bound M (2 ^ n) Hp) as Hb.
  assert (2 ^ n = 2 * 2 ^ (n - 1)) as E.
  { rewrite <- Z.pow_succ_r by lia. f_equal. lia. }
  destruct (Z.compare_spec (M mod 2 ^ n) (2 ^ (n - 1)));
    [destruct (Z.even _) | |]; lia.
Qed.

Lemma digits_shift (p : positive) (j : Z) (m : positive) :
  0 ≤ j → Z.pos m = Z.pos p * 2 ^ j →
  Z.pos (digits2_pos m) = Z.pos (digits2_pos p) + j.
Proof.
  intros Hj Hm. apply digits_bounds. rewrite Hm.
  pose proof (proj1 (digits_bounds p _) eq_refl) as Hp.
  set (d := Z.pos (digits2_pos p)) in *.
  assert (1 ≤ d) by (unfold d; lia).
  pose proof (pow2_pos j Hj).
  replace (d + j - 1) with (d - 1 + j) by lia.
  rewrite !Z.pow_add_r by lia. nia.
Qed.

(** What [binary_round] returns, in the range of the normal numbers: the
    mantissa is brought to 53 bits, by a shift when it is shorter and by
    rounding when it is longer. *)
Lemma binary_round_short (s : bool) (M : positive) (e : Z) (a : positive) :
  Z.pos (digits2_pos M) ≤ 53 → -1074 ≤ Z.pos (digits2_pos M) + e - 53 →
  Z.pos a = Z.pos M * 2 ^ (53 - Z.pos (digits2_pos M)) →
  binary_round prec emax s M e =
  if Z.pos (digits2_pos M) + e - 53 <=? 971
  then S754_finite s a (Z.pos (digits2_pos M) + e - 53)
  else S754_infinity s.
Proof.
  intros Hd Hn Ha. unfold binary_round.
  set (d := Z.pos (digits2_pos M)) in *.
  rewrite fexp_normal by lia. unfold shl_align.
  destruct (d + e - 53 - e) as [|k|k] eqn:Ek; [| lia |].
  - assert (d = 53) as Hd53 by lia.
    assert (a = M) as -> by (rewrite Hd53 in Ha; simpl in Ha; lia).
    rewrite round_aux_small by (fold d; lia).
    by replace (d + e - 53) with e by lia.
  - assert (Z.pos (Pos.iter xO M k) = Z.pos M * 2 ^ Z.pos k) as Em
      by apply shl_iter.
    assert (Pos.iter xO M k = a) as ->.
    { apply Pos2Z.inj. rewrite Em, Ha. do 2 f_equal. lia. }
    assert (Z.pos (digits2_pos a) = 53) as Hda.
    { rewrite (digits_shift M (53 - d) a) by (fold d; lia). fold d. lia. }
    by rewrite round_aux_small by (rewrite Hda; lia).
Qed.

Lemma binary_round_long (s : bool) (M : positive) (e : Z) :
  53 < Z.pos (digits2_pos M) → -1074 ≤ Z.pos (digits2_pos M) + e - 53 →
  binary_round prec emax s M e =
  binary_round_aux prec emax s (Z.pos M) e loc_Exact.
Proof.
  intros Hd Hn. unfold binary_round.
  rewrite fexp_normal by lia. unfold shl_align.
  by destruct (Z.pos (digits2_pos M) + e - 53 - e) as [|k|k] eqn:Ek; [| | lia].
Qed.

(** The double depends on the value only: a mantissa with [j] more zero
    bits at the end and an exponent [j] lower give the same double. *)
Lemma binary_round_scaled (s : bool) (M M' : positive) (e j : Z) :
  0 ≤ j → -1074 ≤ Z.pos (digits2_pos M) + e - 53 →
  Z.pos M' = Z.pos M * 2 ^ j →
  binary_round prec emax s M' (e - j) = binary_round prec emax s M e.
Proof.
  intros Hj Hn HM'.
  pose proof (digits_shift M j M' Hj HM') as Hd'.
  set (d := Z.pos (digits2_pos M)) in *.
  set (d' := Z.pos (digits2_pos M')) in *.
  assert (1 ≤ d) by (unfold d; lia).
  pose proof (pow2_pos j Hj) as Hpj.
  destruct (Z.le_gt_cases d 53) as [Hd|Hd].
  - (* the mantissa [M] is short *)
    assert (∃ a, Z.pos a = Z.pos M * 2 ^ (53 - d)) as [a Ha].
    { exists (Z.to_pos (Z.pos M * 2 ^ (53 - d))).
      pose proof (pow2_pos (53 - d) ltac:(lia)). rewrite Z2Pos.id; lia. }
    rewrite (binary_round_short s M e a) by (fold d; done || lia). fold d.
    destruct (Z.le_gt_cases d' 53) as [Hd'53|Hd'53].
    + rewrite (binary_round_short s M' (e - j) a); fold d'.
      * by replace (d' + (e - j) - 53) with (d + e - 53) by lia.
      * lia.
      * lia.
      * rewrite Ha, HM', Hd'. rewrite <- Z.mul_assoc, <- Z.pow_add_r by lia.
        do 2 f_equal. lia.
    + rewrite binary_round_long by (fold d'; lia).
      rewrite round_aux_large by (fold d'; lia). fold d'. cbv zeta.
      assert (Z.pos M' = Z.pos a * 2 ^ (d' - 53)) as E.
      { rewrite HM', Ha, <- Z.mul_assoc, <- Z.pow_add_r by lia.
        do 2 f_equal. lia. }
      rewrite E, rne_exact by lia.
      assert (Z.pos (digits2_pos a) = 53) as Hda.
      { rewrite (digits_shift M (53 - d) a) by (fold d; lia). fold d. lia. }
      apply digits_bounds in Hda.
      destruct (Z.eqb_spec (Z.pos a) (2 ^ 53)) as [Ea|_]; [lia |].
      replace (e - j + (d' - 53)) with (d + e - 53) by lia.
      by rewrite Pos2Z.id || simpl.
  - (* the mantissa [M] is long: both are rounded *)
    rewrite (binary_round_long s M e), (binary_round_long s M' (e - j))
      by (fold d; fold d'; lia).
    rewrite !round_aux_large by (fold d; fold d'; lia). fold d d'. cbv zeta.
    replace (d' - 53) with (d - 53 + j) by lia.
    rewrite HM', rne_scale by lia.
    by replace (e - j + (d - 53 + j)) with (e + (d - 53)) by lia.
Qed.

Lemma has_value_pos (m : positive) (e : Z) (V : Z) : has_value m e V → 0 < V.
Proof.
  unfold has_value. destruct (Z.ltb_spec e 0) as [He|He]; intros H.
  - pose proof (pow2_pos (- e) ltac:(lia)). nia.
  - pose proof (pow2_pos e He). nia.
Qed.

Lemma has_value_aligned (m : positive) (e ez : Z) (V : Z) :
  has_value m e V → ez ≤ e →
  (ez ≤ 0 → Z.pos m * 2 ^ (e - ez) = V * 2 ^ (- ez)) ∧
  (0 < ez → V = Z.pos m * 2 ^ (e - ez) * 2 ^ ez).
Proof.
  unfold has_value. intros H Hez.
  destruct (Z.ltb_spec e 0) as [He|He]; split; intros Hz; try lia.
  all: rewrite H, <- Z.mul_assoc, <- Z.pow_add_r by lia; f_equal; f_equal; lia.
Qed.

Lemma shl_align_fst (m : positive) (e ez : Z) :
  ez ≤ e → Z.pos (shl_align m e ez).1 = Z.pos m * 2 ^ (e - ez).
Proof.
  intros H. unfold shl_align.
  destruct (ez - e) as [|k|k] eqn:Ek; [| lia |]; simpl.
  - replace (e - ez) with 0 by lia. simpl. lia.
  - rewrite shl_iter. do 2 f_equal. lia.
Qed.

(** The double for a positive integer [W] given by a mantissa [S] and an
    exponent [ez]. *)
Lemma binary_round_integer (S : positive) (ez : Z) (W : Z) :
  -1074 ≤ ez →
  (ez ≤ 0 → Z.pos S = W * 2 ^ (- ez)) →
  (0 < ez → W = Z.pos S * 2 ^ ez) →
  binary_round prec emax false S ez = double_of_Z W.
Proof.
  intros Hmin Hneg Hpos.
  destruct (Z.le_gt_cases ez 0) as [Hz|Hz].
  - specialize (Hneg Hz). pose proof (pow2_pos (- ez) ltac:(lia)).
    destruct W as [|w|w]; [lia | | lia].
    unfold double_of_Z, binary_normalize.
    rewrite <- (binary_round_scaled false w S 0 (- ez)); [| lia | lia | done].
    f_equal. lia.
  - specialize (Hpos Hz). pose proof (pow2_pos ez ltac:(lia)).
    destruct W as [|w|w]; [lia | | lia].
    unfold double_of_Z, binary_normalize.
    rewrite <- (binary_round_scaled false S w ez ez); [| lia | lia | lia].
    f_equal. lia.
Qed.

(** The sum of two doubles that are positive integers is the double for
    the sum of the integers. *)
Lemma double_add_integers (m1 m2 : positive) (e1 e2 : Z) (V1 V2 : Z) :
  has_value m1 e1 V1 → has_value m2 e2 V2 → -1074 ≤ e1 → -1074 ≤ e2 →
  double_add (S754_finite false m1 e1) (S754_finite false m2 e2) =
  double_of_Z (V1 + V2).
Proof.
  intros H1 H2 Hm1 Hm2. unfold double_add, SFadd. cbn [cond_Zopp].
  set (ez := Z.min e1 e2).
  destruct (has_value_aligned m1 e1 ez V1 H1 ltac:(lia)) as [Hn1 Hp1].
  destruct (has_value_aligned m2 e2 ez V2 H2 ltac:(lia)) as [Hn2 Hp2].
  rewrite !shl_align_fst by lia.
  pose proof (pow2_pos (e1 - ez) ltac:(lia)).
  pose proof (pow2_pos (e2 - ez) ltac:(lia)).
  destruct (Z.pos m1 * 2 ^ (e1 - ez) + Z.pos m2 * 2 ^ (e2 - ez))
    as [|S|S] eqn:ES; [lia | | lia].
  unfold binary_normalize. apply binary_round_integer; [lia | |].
  - intros Hz. rewrite <- ES, Hn1, Hn2 by done. lia.
  - intros Hz. rewrite <- ES, (Hp1 Hz), (Hp2 Hz). lia.
Qed.

(** The difference of two doubles that are positive integers, the larger
    first, is the double for the difference of the integers. *)
Lemma double_sub_integers (m1 m2 : positive) (e1 e2 : Z) (V1 V2 : Z) :
  has_value m1 e1 V1 → has_value m2 e2 V2 → -1074 ≤ e1 → -1074 ≤ e2 →
  V2 < V1 →
  double_sub (S754_finite false m1 e1) (S754_finite false m2 e2) =
  double_of_Z (V1 - V2).
Proof.
  intros H1 H2 Hm1 Hm2 Hlt. unfold double_sub, SFsub. cbn [cond_Zopp].
  set (ez := Z.min e1 e2).
  destruct (has_value_aligned m1 e1 ez V1 H1 ltac:(lia)) as [Hn1 Hp1].
  destruct (has_value_aligned m2 e2 ez V2 H2 ltac:(lia)) as [Hn2 Hp2].
  rewrite !shl_align_fst by lia.
  pose proof (pow2_pos (e1 - ez) ltac:(lia)).
  pose proof (pow2_pos (e2 - ez) ltac:(lia)).
  assert (0 < Z.pos m1 * 2 ^ (e1 - ez) - Z.pos m2 * 2 ^ (e2 - ez)) as Hd.
  { destruct (Z.le_gt_cases ez 0) as [Hz|Hz].
    - rewrite Hn1, Hn2 by done. pose proof (pow2_pos (- ez) ltac:(lia)). nia.
    - pose proof (pow2_pos ez ltac:(lia)).
      rewrite (Hp1 Hz), (Hp2 Hz) in Hlt. nia. }
  destruct (Z.pos m1 * 2 ^ (e1 - ez) - Z.pos m2 * 2 ^ (e2 - ez))
    as [|S|S] eqn:ES; [lia | | lia].
  unfold binary_normalize. apply binary_round_integer; [lia | |].
  - intros Hz. rewrite <- ES, Hn1, Hn2 by done. lia.
  - intros Hz. rewrite <- ES, (Hp1 Hz), (Hp2 Hz). lia.
Qed.

Lemma number_has_value (m : positive) (e : Z) (n : N) :
  number_of_double (S754_finite false m e) = Some (Int n) →
  has_value m e (Z.of_N n).
Proof.
  unfold number_of_double, has_value. destruct e as [|k|k]; simpl Z.ltb; cbv iota.
  - intros [= <-]. simpl. lia.
  - intros [= <-]. by rewrite N2Z.inj_mul, N2Z.inj_pow.
  - destruct (N.eqb_spec (N.pos m mod 2 ^ N.pos k) 0) as [E|E]; [| done].
    intros [= <-]. simpl Z.opp.
    pose proof (N.div_mod (N.pos m) (2 ^ N.pos k)
                  ltac:(apply N.pow_nonzero; lia)) as Hdm.
    rewrite E, N.add_0_r in Hdm.
    apply (f_equal Z.of_N) in Hdm.
    rewrite N2Z.inj_mul, N2Z.inj_pow in Hdm.
    change (Z.neg k <? 0) with true. cbv iota.
    change (- Z.neg k) with (Z.of_N (N.pos k)).
    change (Z.pos m) with (Z.of_N (N.pos m)).
    change (Z.of_N 2) with 2 in Hdm. lia.
Qed.

(** [plus_one] is the addition of binary64: adding the double 1 to a
    double that is the Number [n] gives the Number [plus_one n]. *)
Theorem plus_one_binary64 (x : double) (n : number) :
  valid_binary prec emax x = true →
  number_of_double x = Some n →
  number_of_double (double_add x (double_of_Z 1)) = Some (plus_one n).
Proof.
  intros Hv Hx.
  assert (double_of_Z 1 = S754_finite false 4503599627370496 (-52)) as E1
    by reflexivity.
  destruct x as [s|[]| |[] m e]; try discriminate Hx.
  - injection Hx as <-. by destruct s.
  - by injection Hx as <-.
  - by injection Hx as <-.
  - destruct n as [n| |].
    + pose proof (number_has_value m e n Hx) as Hval.
      assert (-1074 ≤ e) as He.
      { unfold valid_binary, bounded, canonical_mantissa in Hv.
        apply andb_true_iff in Hv as [Hc _]. apply Z.eqb_eq in Hc.
        unfold fexp, emin, prec, emax in Hc. lia. }
      rewrite E1.
      rewrite (double_add_integers m _ e _ (Z.of_N n) 1 Hval); [| done | done | lia].
      replace (Z.of_N n + 1) with (Z.of_N (n + 1)) by lia.
      apply to_number_binary64.
    + exfalso. unfold number_of_double in Hx.
      destruct e; [done | done |]. by destruct (_ =? _)%N.
    + exfalso. unfold number_of_double in Hx.
      destruct e; [done | done |]. by destruct (_ =? _)%N.
Qed.

(** *** The error of one rounding

    A double is written [m * 2^e]; to stay in the integers its value is
    taken in units of [2^-K], for a [K] that makes every exponent at hand
    non-negative.  One rounding changes a value by at most its 2^53th
    part. *)

Lemma round_aux_value (M : positive) (e : Z) :
  53 < Z.pos (digits2_pos M) →
  -1074 ≤ Z.pos (digits2_pos M) + e - 53 →
  Z.pos (digits2_pos M) + e - 53 + 1 ≤ 971 →
  ∃ m' e',
    binary_round_aux prec emax false (Z.pos M) e loc_Exact =
      S754_finite false m' e' ∧
    Z.pos (digits2_pos M) + e - 53 ≤ e' ∧
    ∀ K, 0 ≤ e + K →
      2 ^ 53 * Z.abs (Z.pos m' * 2 ^ (e' + K) - Z.pos M * 2 ^ (e + K))
      ≤ Z.pos m' * 2 ^ (e' + K).
Proof.
  intros Hd Hn Hmax. rewrite round_aux_large by done. cbv zeta.
  set (d := Z.pos (digits2_pos M)) in *. set (n := d - 53).
  pose proof (proj1 (digits_bounds M d) eq_refl) as HM.
  pose proof (rne_bounds (Z.pos M) n ltac:(lia) ltac:(lia)) as Hb.
  pose proof (rne_error (Z.pos M) n ltac:(lia) ltac:(lia)) as Herr.
  pose proof (pow2_pos n ltac:(lia)) as Hpn.
  pose proof (pow2_pos (n - 1) ltac:(lia)) as Hpn'.
  assert (2 ^ n = 2 * 2 ^ (n - 1)) as En.
  { rewrite <- Z.pow_succ_r by lia. f_equal. lia. }
  assert (2 ^ 52 ≤ Z.pos M / 2 ^ n) as Hq.
  { apply Z.div_le_lower_bound; [lia |].
    replace (2 ^ n * 2 ^ 52) with (2 ^ (d - 1))
      by (rewrite <- Z.pow_add_r by lia; f_equal; lia).
    lia. }
  set (q := rne (Z.pos M) n) in *.
  assert (∀ K, 0 ≤ e + K →
            2 ^ 53 * Z.abs (q * 2 ^ n * 2 ^ (e + K) - Z.pos M * 2 ^ (e + K))
            ≤ q * 2 ^ n * 2 ^ (e + K)) as Hval.
  { intros K HK. pose proof (pow2_pos (e + K) HK) as HpK.
    rewrite <- Z.mul_sub_distr_r, Z.abs_mul, (Z.abs_eq (2 ^ (e + K))) by lia.
    rewrite Z.mul_assoc. apply Z.mul_le_mono_nonneg_r; [lia |].
    change (2 ^ 53) with (2 ^ 52 * 2) in *. nia. }
  destruct (Z.eqb_spec q (2 ^ 53)) as [Eq|Eq].
  - replace (e + n + 1 <=? 971) with true by (symmetry; apply Z.leb_le; lia).
    eexists _, _. split; [reflexivity |]. split; [unfold n; lia |].
    intros K HK. specialize (Hval K HK).
    replace (Z.pos (2 ^ 52) * 2 ^ (e + n + 1 + K))
      with (q * 2 ^ n * 2 ^ (e + K)); [done |].
    rewrite Eq. replace (e + n + 1 + K) with (1 + n + (e + K)) by lia.
    rewrite (Z.pow_add_r 2 (1 + n) (e + K)), (Z.pow_add_r 2 1 n) by lia.
    change (Z.pos (2 ^ 52)) with (2 ^ 52).
    change (2 ^ 53) with (2 ^ 52 * 2 ^ 1). lia.
  - replace (e + n <=? 971) with true by (symmetry; apply Z.leb_le; lia).
    eexists _, _. split; [reflexivity |]. split; [unfold n; lia |].
    intros K HK. specialize (Hval K HK).
    rewrite Z2Pos.id by lia.
    replace (e + n + K) with (n + (e + K)) by lia.
    rewrite (Z.pow_add_r 2 n (e + K)), Z.mul_assoc by lia. done.
Qed.

Lemma binary_round_value (M : positive) (e : Z) :
  -1074 ≤ Z.pos (digits2_pos M) + e - 53 →
  Z.pos (digits2_pos M) + e - 53 + 1 ≤ 971 →
  ∃ m' e',
    binary_round prec emax false M e = S754_finite false m' e' ∧
    Z.pos (digits2_pos M) + e - 53 ≤ e' ∧
    ∀ K, 0 ≤ e + K → 0 ≤ Z.pos (digits2_pos M) + e - 53 + K →
      2 ^ 53 * Z.abs (Z.pos m' * 2 ^ (e' + K) - Z.pos M * 2 ^ (e + K))
      ≤ Z.pos m' * 2 ^ (e' + K).
Proof.
  intros Hn Hmax. set (d := Z.pos (digits2_pos M)) in *.
  assert (1 ≤ d) by (unfold d; lia).
  destruct (Z.le_gt_cases d 53) as [Hd|Hd].
  - assert (∃ a, Z.pos a = Z.pos M * 2 ^ (53 - d)) as [a Ha].
    { exists (Z.to_pos (Z.pos M * 2 ^ (53 - d))).
      pose proof (pow2_pos (53 - d) ltac:(lia)). rewrite Z2Pos.id; lia. }
    rewrite (binary_round_short false M e a) by (fold d; done || lia). fold d.
    replace (d + e - 53 <=? 971) with true by (symmetry; apply Z.leb_le; lia).
    eexists _, _. split; [reflexivity |]. split; [lia |].
    intros K HK HK'.
    replace (Z.pos a * 2 ^ (d + e - 53 + K)) with (Z.pos M * 2 ^ (e + K)).
    + rewrite Z.sub_diag. simpl Z.abs. pose proof (pow2_pos (e + K) HK). lia.
    + rewrite Ha, <- Z.mul_assoc, <- Z.pow_add_r by lia. do 2 f_equal. lia.
  - rewrite binary_round_long by (fold d; lia).
    destruct (round_aux_value M e) as (m' & e' & -> & He' & Hval);
      [fold d; lia | fold d; lia | fold d; lia |].
    exists m', e'. split; [done |]. split; [fold d; lia |].
    intros K HK _. by apply Hval.
Qed.

Lemma double_of_Z_short (y : positive) :
  Z.pos y < 2 ^ 53 →
  ∃ a f, double_of_Z (Z.pos y) = S754_finite false a f ∧
         -52 ≤ f ≤ 0 ∧ Z.pos a = Z.pos y * 2 ^ (- f) ∧
         Z.pos (digits2_pos a) = 53.
Proof.
  intros Hy. unfold double_of_Z, binary_normalize.
  set (d := Z.pos (digits2_pos y)).
  assert (1 ≤ d) by (unfold d; lia).
  assert (d ≤ 53) as Hd.
  { pose proof (proj1 (digits_bounds y d) eq_refl) as Hb.
    destruct (Z.le_gt_cases d 53) as [|Hgt]; [done |]. exfalso.
    assert (2 ^ 53 ≤ 2 ^ (d - 1)) by (apply Z.pow_le_mono_r; lia). lia. }
  assert (∃ a, Z.pos a = Z.pos y * 2 ^ (53 - d)) as [a Ha].
  { exists (Z.to_pos (Z.pos y * 2 ^ (53 - d))).
    pose proof (pow2_pos (53 - d) ltac:(lia)). rewrite Z2Pos.id; lia. }
  rewrite (binary_round_short false y 0 a) by (fold d; done || lia). fold d.
  replace (d + 0 - 53 <=? 971) with true by (symmetry; apply Z.leb_le; lia).
  exists a, (d + 0 - 53). split; [done |]. split; [lia |]. split.
  - rewrite Ha. do 2 f_equal. lia.
  - rewrite (digits_shift y (53 - d) a) by (fold d; lia). fold d. lia.
Qed.

Lemma short_has_value (a : positive) (f y : Z) :
  f ≤ 0 → Z.pos a = y * 2 ^ (- f) → has_value a f y.
Proof.
  intros Hf Ha. unfold has_value.
  destruct (Z.ltb_spec f 0) as [H|H]; [done |].
  assert (f = 0) as -> by lia. simpl in *. lia.
Qed.

Lemma digits_product (a b : positive) :
  Z.pos (digits2_pos a) = 53 → Z.pos (digits2_pos b) = 53 →
  105 ≤ Z.pos (digits2_pos (a * b)) ≤ 106.
Proof.
  intros Ha Hb. apply digits_bounds in Ha, Hb.
  pose proof (proj1 (digits_bounds (a * b) _) eq_refl) as Hab.
  set (d := Z.pos (digits2_pos (a * b))) in *.
  rewrite Pos2Z.inj_mul in Hab.
  change (2 ^ (53 - 1)) with (2 ^ 52) in *.
  assert (2 ^ 104 ≤ Z.pos a * Z.pos b) as Hlo
    by (change (2 ^ 104) with (2 ^ 52 * 2 ^ 52); nia).
  assert (Z.pos a * Z.pos b < 2 ^ 106) as Hhi
    by (change (2 ^ 106) with (2 ^ 53 * 2 ^ 53); nia).
  assert (1 ≤ d) by (unfold d; lia).
  split.
  - destruct (Z.le_gt_cases 105 d) as [|Hlt]; [done |]. exfalso.
    assert (2 ^ d ≤ 2 ^ 104) by (apply Z.pow_le_mono_r; lia). lia.
  - destruct (Z.le_gt_cases d 106) as [|Hgt]; [done |]. exfalso.
    assert (2 ^ 106 ≤ 2 ^ (d - 1)) by (apply Z.pow_le_mono_r; lia). lia.
Qed.

(** The ordinate [y1 + (y2 - y1) * 0.3] of binary64, for integers
    [0 < y1 < y2 < 2^53]: a finite double [m * 2^e], at most [y2 / 2^52]
    away from the exact [y1 + 3/10 (y2 - y1)].  The values are in units of
    [2^-106], and ten times as much to stay in the integers. *)
Lemma thirty_percent_scaled (y1 y2 : Z) :
  0 < y1 → y1 < y2 → y2 < 2 ^ 53 →
  ∃ m e,
    double_add (double_of_Z y1)
      (double_mul (double_sub (double_of_Z y2) (double_of_Z y1)) literal_0_3) =
    S754_finite false m e ∧
    -106 ≤ e ∧
    2 ^ 52 * Z.abs (10 * (Z.pos m * 2 ^ (e + 106))
                    - (10 * y1 + 3 * (y2 - y1)) * 2 ^ 106)
    ≤ 10 * y2 * 2 ^ 106.
Proof.
  intros H1 H12 H2.
  destruct y1 as [|p1|p1]; [lia | | lia].
  destruct y2 as [|p2|p2]; [lia | | lia].
  destruct (Z.pos p2 - Z.pos p1) as [|pD|pD] eqn:ED; [lia | | lia].
  destruct (double_of_Z_short p1 ltac:(lia)) as (a1 & f1 & E1 & Hf1 & Ha1 & Hd1).
  destruct (double_of_Z_short p2 ltac:(lia)) as (a2 & f2 & E2 & Hf2 & Ha2 & Hd2).
  destruct (double_of_Z_short pD ltac:(lia)) as (aD & fD & EDf & HfD & HaD & HdD).
  rewrite E1, E2.
  rewrite (double_sub_integers a2 a1 f2 f1 (Z.pos p2) (Z.pos p1));
    [| by apply short_has_value; lia | by apply short_has_value; lia
     | lia | lia | lia].
  rewrite ED, EDf.
  (* the product *)
  unfold double_mul, SFmul, literal_0_3. cbn [xorb].
  set (mc := 5404319552844595%positive).
  assert (Z.pos (digits2_pos mc) = 53) as Hdc by reflexivity.
  pose proof (digits_product aD mc HdD Hdc) as HdP.
  destruct (round_aux_value (aD * mc) (fD + -54))
    as (mP & eP & -> & HeP & HvalP); [lia | lia | lia |].
  specialize (HvalP 106 ltac:(lia)).
  (* the sum *)
  unfold double_add, SFadd. cbn [cond_Zopp].
  set (ez := Z.min f1 eP).
  rewrite !shl_align_fst by lia.
  pose proof (pow2_pos (f1 - ez) ltac:(lia)).
  pose proof (pow2_pos (eP - ez) ltac:(lia)).
  destruct (Z.pos a1 * 2 ^ (f1 - ez) + Z.pos mP * 2 ^ (eP - ez))
    as [|S|S] eqn:ES; [lia | | lia].
  unfold binary_normalize.
  (* everything in units of 2^-106 *)
  set (Pz := Z.pos mP * 2 ^ (eP + 106)) in *.
  assert (Z.pos (aD * mc) * 2 ^ (fD + -54 + 106) =
          Z.pos pD * 5404319552844595 * 2 ^ 52) as EX.
  { rewrite Pos2Z.inj_mul, HaD.
    replace (fD + -54 + 106) with (fD + 52) by lia.
    assert (2 ^ (- fD) * 2 ^ (fD + 52) = 2 ^ 52) as <-
      by (rewrite <- Z.pow_add_r by lia; f_equal; lia).
    change (Z.pos mc) with 5404319552844595. ring. }
  rewrite EX in HvalP.
  assert (Z.pos S * 2 ^ (ez + 106) = Z.pos p1 * 2 ^ 106 + Pz) as ESz.
  { rewrite <- ES, Z.mul_add_distr_r, Ha1. unfold Pz.
    rewrite <- !Z.mul_assoc, <- !Z.pow_add_r by lia.
    do 2 f_equal; f_equal; lia. }
  pose proof (proj1 (digits_bounds S _) eq_refl) as HS.
  set (dS := Z.pos (digits2_pos S)) in *.
  assert (1 ≤ dS) by (unfold dS; lia).
  assert (dS + ez ≤ 56) as HdS.
  { destruct (Z.le_gt_cases (dS + ez) 56) as [|Hgt]; [done |]. exfalso.
    assert (2 ^ 162 ≤ 2 ^ (dS - 1 + (ez + 106))) as Hbig
      by (apply Z.pow_le_mono_r; lia).
    rewrite Z.pow_add_r in Hbig by lia.
    pose proof (pow2_pos (ez + 106) ltac:(lia)).
    assert (2 ^ (dS - 1) * 2 ^ (ez + 106) ≤ Z.pos S * 2 ^ (ez + 106)) as Hmul
      by (apply Z.mul_le_mono_nonneg_r; lia).
    assert (Z.pos S * 2 ^ (ez + 106) < 2 ^ 160) as Hsmall.
    { rewrite ESz.
      change (2 ^ 53) with 9007199254740992 in *.
      change (2 ^ 52) with 4503599627370496 in *.
      change (2 ^ 106) with 81129638414606681695789005144064 in *.
      change (2 ^ 160)
        with 1461501637330902918203684832716283019655932542976.
      lia. }
    assert (2 ^ 160 < 2 ^ 162) by (by apply Z.pow_lt_mono_r).
    lia. }
  destruct (binary_round_value S ez) as (mR & eR & -> & HeR & HvalR);
    [fold dS; lia | fold dS; lia |].
  fold dS in HeR, HvalR.
  specialize (HvalR 106 ltac:(lia) ltac:(lia)). rewrite ESz in HvalR.
  exists mR, eR. split; [done |]. split; [lia |].
  set (Rz := Z.pos mR * 2 ^ (eR + 106)) in *.
  change (2 ^ 53) with 9007199254740992 in *.
  change (2 ^ 52) with 4503599627370496 in *.
  change (2 ^ 106) with 81129638414606681695789005144064 in *.
  lia.
Qed.

Lemma double_value_scaled (m : positive) (e : Z) :
  -106 ≤ e →
  ∃ v, double_value (S754_finite false m e) = Some v ∧
       (v == Z.pos m * 2 ^ (e + 106) # 2 ^ 106)%Q.
Proof.
  intros He. unfold double_value. eexists. split; [reflexivity |].
  unfold Qeq. cbn [Qnum Qden].
  destruct e as [|k|k].
  - unfold inject_Z. cbn [Qnum Qden]. lia.
  - unfold inject_Z. cbn [Qnum Qden].
    replace (Z.pos k + 106) with (106 + Z.pos k) by lia.
    rewrite Z.pow_add_r by lia. change (Z.pos (2 ^ 106)) with (2 ^ 106). lia.
  - cbn [Qnum Qden]. change (Z.pos (2 ^ 106)) with (2 ^ 106).
    assert (Z.pos (Pos.pow 2 k) = 2 ^ Z.pos k) as -> by (by rewrite Pos2Z.inj_pow).
    assert (2 ^ 106 = 2 ^ (Z.neg k + 106) * 2 ^ Z.pos k) as ->.
    { rewrite <- Z.pow_add_r by lia. f_equal. lia. }
    lia.
Qed.

(** The same in the rationals: the control ordinate is at most
    [y2 / 2^52] away from [y1 + 3/10 (y2 - y1)]. *)
Lemma thirty_percent (y1 y2 : Z) :
  0 < y1 → y1 < y2 → y2 < 2 ^ 53 →
  ∃ v,
    double_value
      (double_add (double_of_Z y1)
         (double_mul (double_sub (double_of_Z y2) (double_of_Z y1))
            literal_0_3)) = Some v ∧
    (inject_Z y1 + (3 # 10) * inject_Z (y2 - y1) - inject_Z y2 * (1 # 2 ^ 52)
       <= v)%Q ∧
    (v <= inject_Z y1 + (3 # 10) * inject_Z (y2 - y1)
            + inject_Z y2 * (1 # 2 ^ 52))%Q.
Proof.
  intros H1 H12 H2.
  destruct (thirty_percent_scaled y1 y2 H1 H12 H2) as (m & e & -> & He & Hb).
  destruct (double_value_scaled m e He) as (v & -> & Hv).
  exists v. split; [done |].
  set (Rz := Z.pos m * 2 ^ (e + 106)) in *.
  rewrite Hv. unfold Qle, Qminus, Qplus, Qmult, Qopp, inject_Z.
  cbn [Qnum Qden].
  change (Z.pos (10 * 1)) with 10.
  change (Z.pos (1 * 2 ^ 52)) with 4503599627370496.
  change (Z.pos (1 * (10 * 1))) with 10.
  change (Z.pos (1 * (10 * 1) * (1 * 2 ^ 52))) with 45035996273704960.
  change (Z.pos (2 ^ 106)) with 81129638414606681695789005144064.
  change (2 ^ 52) with 4503599627370496 in Hb.
  change (2 ^ 106) with 81129638414606681695789005144064 in Hb.
  lia.
Qed.

End binary64.

End JsNumber.

(** ** The diff view of [BranchGraph] *)

Module Diff.
Import JsString Regex JsNumber.

(** The objects [parseDiffByFile] builds. *)
Record DiffFile : Type := mkDiffFile {
  name : jsstring;
  stats : jsstring;
  lines : list jsstring
}.

(** The header pattern of [parseDiffByFile]: the literal "diff --git a/",
    group 1 (a greedy run of any characters), the literal " b/", group 2
    (a greedy run of any characters). *)
Definition header_re : regex :=
  Cat (Lit (str "diff --git a/"))
      (Cat (Grp 1 (Many dot)) (Cat (Lit (str " b/")) (Grp 2 (Many dot)))).

(** [line.startsWith('diff --git')] *)
Definition is_boundary (line : jsstring) : bool :=
  startsWith line (str "diff --git").

(** [match ? match[2] : line] *)
Definition fileName (line : jsstring) : jsstring :=
  match exec 2 header_re line with
  | Some caps => group 2 caps
  | None => line
  end.

(** The loop state of [parseDiffByFile]: the array [files] and the object
    [currentFile].  The object is pushed to [files] only when the loop
    stops appending to it (at the next boundary line or after the loop),
    so a value per file is enough. *)
Definition parse_state : Type := list DiffFile * option DiffFile.

Definition parse_step (st : parse_state) (line : jsstring) : parse_state :=
  let '(files, currentFile) := st in
  if is_boundary line then
    let files' :=
      match currentFile with
      | Some f => files ++ [f]
      | None => files
      end in
    (files', Some {| name := fileName line; stats := []; lines := [] |})
  else
    match currentFile with
    | Some f =>
        (files, Some {| name := name f; stats := stats f;
                        lines := lines f ++ [line] |})
    | None => (files, None)
    end.

Definition parse_finish (st : parse_state) : list DiffFile :=
  let '(files, currentFile) := st in
  match currentFile with
  | Some f => files ++ [f]
  | None => files
  end.

(** The loop over the lines, and the final push. *)
Definition parse_lines (ls : list jsstring) : list DiffFile :=
  parse_finish (fold_left parse_step ls ([], None)).

Definition parseDiffByFile (diff : jsstring) : list DiffFile :=
  parse_lines (split NL diff).

(** [getDiffStats]: one pass, two counters. *)
Definition stats_step (acc : N * N) (line : jsstring) : N * N :=
  let '(added, removed) := acc in
  let added' :=
    if startsWith line (str "+") && negb (startsWith line (str "+++"))
    then (added + 1)%N else added in
  let removed' :=
    if startsWith line (str "-") && negb (startsWith line (str "---"))
    then (removed + 1)%N else removed in
  (added', removed').

Definition getDiffStats (ls : list jsstring) : N * N :=
  fold_left stats_step ls (0%N, 0%N).

(** *** Line numbers of the expanded file view *)

(** The hunk pattern of the view: the literal "@@ -", group 1 (digits), an
    optional "," and digits, the literal " +", group 2 (digits), an optional
    "," and digits, the literal " @@". *)
Definition hunk_re : regex :=
  Cat (Lit (str "@@ -"))
  (Cat (Grp 1 (Many1 digit))
  (Cat (Opt (Cat (Lit (str ",")) (Many1 digit)))
  (Cat (Lit (str " +"))
  (Cat (Grp 2 (Many1 digit))
  (Cat (Opt (Cat (Lit (str ",")) (Many1 digit)))
       (Lit (str " @@"))))))).

(** The rows the callback of [file.lines.slice(0, 100).map] returns: the
    blue hunk row with the fixed gutter "...", the muted row with an empty
    gutter, and the numbered row with its class and its two gutters. *)
Inductive row : Type :=
| HunkRow (line : jsstring)
| MetaRow (line : jsstring)
| NumRow (className oldNum newNum line : jsstring).

(** The counters [oldLine] and [newLine] the callback closes over. *)
Definition counters : Type := number * number.

Definition number_step (st : counters) (line : jsstring) : counters * row :=
  let '(oldLine, newLine) := st in
  if startsWith line (str "@@") then
    let st' :=
      match exec 2 hunk_re line with
      | Some caps => (parseInt (group 1 caps), parseInt (group 2 caps))
      | None => st
      end in
    (st', HunkRow line)
  else if startsWith line (str "index") || startsWith line (str "---")
          || startsWith line (str "+++") then
    (st, MetaRow line)
  else if startsWith line (str "+") then
    ((oldLine, plus_one newLine),
     NumRow (str "flex bg-green-500/10 text-green-600")
            [] (String_of newLine) line)
  else if startsWith line (str "-") then
    ((plus_one oldLine, newLine),
     NumRow (str "flex bg-red-500/10 text-red-600")
            (String_of oldLine) [] line)
  else
    ((plus_one oldLine, plus_one newLine),
     NumRow (str "flex whitespace-pre")
            (String_of oldLine) (String_of newLine) line).

Fixpoint number_rows (st : counters) (ls : list jsstring) : list row :=
  match ls with
  | [] => []
  | line :: ls' =>
      let '(st', r) := number_step st line in
      r :: number_rows st' ls'
  end.

(** The rows of an expanded file: both counters start at 0 and only the
    first hundred lines are shown. *)
Definition render_file_lines (f : DiffFile) : list row :=
  number_rows (Int 0, Int 0) (take 100 (lines f)).

(** *** The words of the specification *)

(** A content addition: a line beginning with "+" but not with "+++". *)
Definition added_line (l : jsstring) : Prop :=
  str "+" `prefix_of` l ∧ ¬ str "+++" `prefix_of` l.

(** A content removal: a line beginning with "-" but not with "---". *)
Definition removed_line (l : jsstring) : Prop :=
  str "-" `prefix_of` l ∧ ¬ str "---" `prefix_of` l.

(** A boundary line begins with "diff --git". *)
Definition boundary_line (l : jsstring) : Prop :=
  str "diff --git" `prefix_of` l.

#[global] Instance added_line_dec l : Decision (added_line l).
Proof. unfold added_line. apply _. Defined.

#[global] Instance removed_line_dec l : Decision (removed_line l).
Proof. unfold removed_line. apply _. Defined.

#[global] Instance boundary_line_dec l : Decision (boundary_line l).
Proof. unfold boundary_line. apply _. Defined.

(** A hunk header begins with "@@"; the lines the view shows without
    numbers begin with "index", "---" or "+++"; the other lines are the
    content lines. *)
Definition hunk_line (l : jsstring) : Prop := str "@@" `prefix_of` l.

Definition meta_line (l : jsstring) : Prop :=
  str "index" `prefix_of` l ∨ str "---" `prefix_of` l ∨ str "+++" `prefix_of` l.

Definition content_line (l : jsstring) : Prop := ¬ hunk_line l ∧ ¬ meta_line l.

(** The text of a hunk header with old start [a] and new start [c]; the
    two counts are optional, and anything may follow the closing "@@". *)
Definition opt_count (o : option N) : jsstring :=
  match o with
  | Some b => str "," ++ dec b
  | None => []
  end.

Definition hunk_text (a : N) (ob : option N) (c : N) (od : option N)
    (rest : jsstring) : jsstring :=
  str "@@ -" ++ dec a ++ opt_count ob ++
  str " +" ++ dec c ++ opt_count od ++ str " @@" ++ rest.

(** A section of a diff: a boundary line and the lines up to the next. *)
Definition section_lines (sec : jsstring * list jsstring) : list jsstring :=
  sec.1 :: sec.2.

Definition section_file (sec : jsstring * list jsstring) : DiffFile :=
  {| name := fileName sec.1; stats := []; lines := sec.2 |}.

Definition well_formed_section (sec : jsstring * list jsstring) : Prop :=
  boundary_line sec.1 ∧ Forall (λ l, ¬ boundary_line l) sec.2.

#[global] Instance well_formed_section_dec sec :
  Decision (well_formed_section sec).
Proof. unfold well_formed_section. apply _. Defined.

(** The seven lines of the example of the specification. *)
Definition example_lines : list jsstring :=
  [ str "diff --git a/x b/x"; str "index 123..456"; str "--- a/x";
    str "+++ b/x"; str "@@ -1,1 +1,1 @@"; str "-bar"; str "+foo" ].

(** *** [getDiffStats] *)

(** *** [getDiffStats] *)

Lemma stats_step_added (a r : N) (l : jsstring) :
  (stats_step (a, r) l).1 = if decide (added_line l) then (a + 1)%N else a.
Proof.
  unfold stats_step. cbn [fst snd].
  destruct (decide (added_line l)) as [[H1 H3]|Hn].
  - apply startsWith_prefix_of in H1. apply startsWith_false in H3.
    by rewrite H1, H3.
  - destruct (startsWith l (str "+")) eqn:H1;
      destruct (startsWith l (str "+++")) eqn:H3; simpl; try done.
    exfalso. apply Hn. split;
      [by apply startsWith_prefix_of | by apply startsWith_false].
Qed.

Lemma stats_step_removed (a r : N) (l : jsstring) :
  (stats_step (a, r) l).2 = if decide (removed_line l) then (r + 1)%N else r.
Proof.
  unfold stats_step. cbn [fst snd].
  destruct (decide (removed_line l)) as [[H1 H3]|Hn].
  - apply startsWith_prefix_of in H1. apply startsWith_false in H3.
    by rewrite H1, H3.
  - destruct (startsWith l (str "-")) eqn:H1;
      destruct (startsWith l (str "---")) eqn:H3; simpl; try done.
    exfalso. apply Hn. split;
      [by apply startsWith_prefix_of | by apply startsWith_false].
Qed.

Lemma stats_fold (ls : list jsstring) (a r : N) :
  fold_left stats_step ls (a, r) =
  ((a + N.of_nat (length (filter added_line ls)))%N,
   (r + N.of_nat (length (filter removed_line ls)))%N).
Proof.
  revert a r. induction ls as [|l ls IH]; intros a r.
  - simpl. by rewrite !N.add_0_r.
  - cbn [fold_left].
    destruct (stats_step (a, r) l) as [a' r'] eqn:E.
    pose proof (stats_step_added a r l) as Ha.
    pose proof (stats_step_removed a r l) as Hr.
    rewrite E in Ha, Hr. simpl in Ha, Hr. subst a' r'.
    rewrite IH, !filter_cons.
    repeat case_decide; simpl length; f_equal; lia.
Qed.

(** C1. [getDiffStats] counts as added exactly the lines that begin with
    "+" and not with "+++", and as removed exactly the lines that begin
    with "-" and not with "---"; and the seven example lines of the
    specification parse to one file named "x" with one line added and one
    removed. *)
Theorem getDiffStats_counts :
  (∀ ls : list jsstring,
     getDiffStats ls =
     (N.of_nat (length (filter added_line ls)),
      N.of_nat (length (filter removed_line ls)))) ∧
  (∃ f : DiffFile,
     parseDiffByFile (join NL example_lines) = [f] ∧
     name f = str "x" ∧
     getDiffStats (lines f) = (1%N, 1%N)).
Proof.
  split.
  - intros ls. unfold getDiffStats. by rewrite stats_fold.
  - eexists. split; [vm_compute; reflexivity |]. split; vm_compute; reflexivity.
Qed.

(** *** [parseDiffByFile] *)

Lemma is_boundary_true (l : jsstring) :
  is_boundary l = true ↔ boundary_line l.
Proof. apply startsWith_prefix_of. Qed.

Lemma is_boundary_false (l : jsstring) :
  is_boundary l = false ↔ ¬ boundary_line l.
Proof. apply startsWith_false. Qed.

(** Before the first boundary line nothing is kept. *)
Lemma fold_no_current (ls : list jsstring) (files : list DiffFile) :
  Forall (λ l, ¬ boundary_line l) ls →
  fold_left parse_step ls (files, None) = (files, None).
Proof.
  induction 1 as [|l ls Hl _ IH]; simpl; [done |].
  apply is_boundary_false in Hl. by rewrite Hl.
Qed.

(** Lines that are no boundary go to the current file, in order. *)
Lemma fold_current (ls : list jsstring) (files : list DiffFile) (f : DiffFile) :
  Forall (λ l, ¬ boundary_line l) ls →
  fold_left parse_step ls (files, Some f) =
  (files, Some {| name := name f; stats := stats f; lines := lines f ++ ls |}).
Proof.
  intros H. revert f.
  induction H as [|l ls Hl _ IH]; intros f; simpl.
  - rewrite app_nil_r. by destruct f.
  - apply is_boundary_false in Hl. rewrite Hl, IH. simpl.
    by rewrite <- app_assoc.
Qed.

Lemma parse_step_boundary (b : jsstring) (files : list DiffFile)
    (cur : option DiffFile) :
  boundary_line b →
  parse_step (files, cur) b =
  (files ++ option_list cur,
   Some {| name := fileName b; stats := []; lines := [] |}).
Proof.
  intros Hb. apply is_boundary_true in Hb. unfold parse_step. rewrite Hb.
  destruct cur; simpl; by rewrite ?app_nil_r.
Qed.

Lemma fold_sections (secs : list (jsstring * list jsstring))
    (files : list DiffFile) (cur : option DiffFile) :
  Forall well_formed_section secs →
  parse_finish
    (fold_left parse_step (concat (section_lines <$> secs)) (files, cur)) =
  files ++ option_list cur ++ (section_file <$> secs).
Proof.
  intros H. revert files cur.
  induction H as [|[b body] secs [Hb Hbody] _ IH]; intros files cur.
  - destruct cur; simpl; by rewrite ?app_nil_r.
  - simpl in Hb, Hbody.
    change (concat (section_lines <$> (b, body) :: secs))
      with (b :: body ++ concat (section_lines <$> secs)).
    cbn [fold_left]. rewrite parse_step_boundary by done.
    rewrite fold_left_app, fold_current by done. rewrite IH. simpl.
    by rewrite <- app_assoc.
Qed.

(** The files of a text are its sections, whatever comes before the first
    boundary line. *)
Lemma parse_lines_sections (pre : list jsstring)
    (secs : list (jsstring * list jsstring)) :
  Forall (λ l, ¬ boundary_line l) pre →
  Forall well_formed_section secs →
  parse_lines (pre ++ concat (section_lines <$> secs)) = section_file <$> secs.
Proof.
  intros Hpre Hsecs. unfold parse_lines.
  rewrite fold_left_app, fold_no_current by done.
  by rewrite fold_sections.
Qed.

(** Every list of lines is a prelude without boundary line followed by
    sections. *)
Lemma lines_sections (ls : list jsstring) :
  ∃ pre secs,
    ls = pre ++ concat (section_lines <$> secs) ∧
    Forall (λ l, ¬ boundary_line l) pre ∧
    Forall well_formed_section secs.
Proof.
  induction ls as [|l ls (pre & secs & -> & Hpre & Hsecs)].
  - exists [], []. by repeat split.
  - destruct (decide (boundary_line l)) as [Hl|Hl].
    + exists [], ((l, pre) :: secs). repeat split; [done |].
      constructor; [by split | done].
    + exists (l :: pre), secs. repeat split; [by constructor | done].
Qed.


(** *** The name of a file *)






(** *** Files and sections *)

(** C3. A text that is empty, or none of whose lines begins with
    "diff --git", parses to the empty list of files. *)
Theorem parse_without_boundary (diff : jsstring) :
  diff = [] ∨ Forall (λ l, ¬ boundary_line l) (split NL diff) →
  parseDiffByFile diff = [].
Proof.
  intros [-> | H]; [reflexivity |].
  unfold parseDiffByFile, parse_lines. by rewrite fold_no_current.
Qed.

Lemma parse_without_boundary_witness :
  parseDiffByFile (join NL [str "hello"; str "--- a/x"; str "+++ b/x"]) = [] ∧
  parseDiffByFile [] = [].
Proof.
  split.
  - apply parse_without_boundary. right.
    repeat constructor; by apply startsWith_false.
  - apply parse_without_boundary. by left.
Defined.



(** C10. The lines of a text split into a prelude without boundary line
    and sections; the files of the text are the sections in order, each
    file holding the lines of its section (the boundary line left out),
    and the prelude is in no file. *)
Theorem parse_partitions_lines (diff : jsstring) :
  ∃ (pre : list jsstring) (secs : list (jsstring * list jsstring)),
    split NL diff = pre ++ concat (section_lines <$> secs) ∧
    Forall (λ l, ¬ boundary_line l) pre ∧
    Forall well_formed_section secs ∧
    parseDiffByFile diff = section_file <$> secs ∧
    lines <$> parseDiffByFile diff = secs.*2.
Proof.
  destruct (lines_sections (split NL diff)) as (pre & secs & E & Hpre & Hsecs).
  exists pre, secs. split; [done |]. split; [done |]. split; [done |].
  assert (parseDiffByFile diff = section_file <$> secs) as ->.
  { unfold parseDiffByFile. rewrite E. by apply parse_lines_sections. }
  split; [done |].
  rewrite <- list_fmap_compose. by apply list_fmap_ext.
Qed.


(** *** Hunk headers *)

Lemma head_blank (t : jsstring) :
  head t = Some 32%N → head (digit <$> t) ≠ Some true.
Proof. destruct t as [|c t]; [done |]. by intros [= ->]. Qed.

Lemma head_opt_count (o : option N) (t : jsstring) :
  head t = Some 32%N → head (digit <$> (opt_count o ++ t)) ≠ Some true.
Proof. destruct o; [done | apply head_blank]. Qed.

(** The optional [,count] of a hunk header, present or not, before a
    blank. *)
Lemma optional_count {R} (o : option N) (t : jsstring) caps
    (k : jsstring → captures → option R) r :
  head t = Some 32%N →
  k t caps = Some r →
  matchk (Opt (Cat (Lit (str ",")) (Many1 digit)))
    (opt_count o ++ t) caps k = Some r.
Proof.
  intros Ht Hk. destruct o as [b|].
  - apply matchk_Opt_taken. unfold opt_count.
    rewrite <- app_assoc, matchk_Cat, matchk_Lit.
    apply many1_run;
      [apply dec_nonempty | apply dec_digits
      | by apply head_blank | done].
  - rewrite matchk_Opt_skipped; [done |].
    rewrite matchk_Cat. apply matchk_Lit_fail.
    destruct t as [|c t]; [done |]. injection Ht as ->.
    intros [x Hx]. discriminate.
Qed.

Lemma hunk_match (a : N) (ob : option N) (c : N) (od : option N)
    (rest : jsstring) :
  ∃ caps,
    exec 2 hunk_re (hunk_text a ob c od rest) = Some caps ∧
    group 1 caps = dec a ∧ group 2 caps = dec c.
Proof.
  eexists. split.
  - apply exec_here. unfold match_here, hunk_re, hunk_text.
    rewrite matchk_Grp, matchk_Cat, matchk_Lit.
    rewrite matchk_Cat, matchk_Grp.
    apply many1_run;
      [apply dec_nonempty | apply dec_digits
      | by apply head_opt_count |].
    cbv beta. rewrite matchk_Cat. apply optional_count; [done |].
    rewrite matchk_Cat, matchk_Lit.
    rewrite matchk_Cat, matchk_Grp.
    apply many1_run;
      [apply dec_nonempty | apply dec_digits
      | by apply head_opt_count |].
    cbv beta. rewrite matchk_Cat. apply optional_count; [done |].
    rewrite matchk_Lit. reflexivity.
  - rewrite !take_consumed. by split.
Qed.


(** *** The numbering of the rows *)

(** Two prefixes of one line begin with the same character. *)
Lemma prefix_clash (p q l : jsstring) :
  p `prefix_of` l → q `prefix_of` l →
  is_Some (head p) → is_Some (head q) → head p = head q.
Proof.
  intros [k1 ->] [k2 E] [a Ha] [b Hb].
  destruct p as [|a' p], q as [|b' q]; simplify_eq/=. done.
Qed.

Ltac test_prefix p :=
  let E := fresh "E" in
  destruct (startsWith _ (str p)) eqn:E;
  [apply startsWith_prefix_of in E | apply startsWith_false in E].

Ltac clash H1 H2 :=
  exfalso;
  let H := fresh in
  pose proof (prefix_clash _ _ _ H1 H2 ltac:(by eexists) ltac:(by eexists)) as H;
  discriminate H.

Lemma number_step_hunk (st : counters) (line : jsstring) :
  hunk_line line →
  number_step st line =
  (match exec 2 hunk_re line with
   | Some caps => (parseInt (group 1 caps), parseInt (group 2 caps))
   | None => st
   end, HunkRow line).
Proof.
  intros H. apply startsWith_prefix_of in H.
  unfold number_step. destruct st as [o n]. by rewrite H.
Qed.

Lemma number_step_meta (st : counters) (line : jsstring) :
  ¬ hunk_line line → meta_line line →
  number_step st line = (st, MetaRow line).
Proof.
  intros H Hm. apply startsWith_false in H.
  unfold number_step. destruct st as [o n]. rewrite H.
  destruct Hm as [Hm|[Hm|Hm]]; apply startsWith_prefix_of in Hm;
    rewrite Hm; by rewrite ?orb_true_r.
Qed.

Lemma number_step_added (oldLine newLine : number) (line : jsstring) :
  added_line line →
  number_step (oldLine, newLine) line =
  ((oldLine, plus_one newLine),
   NumRow (str "flex bg-green-500/10 text-green-600")
     [] (String_of newLine) line).
Proof.
  intros [H1 H3]. unfold number_step.
  test_prefix "@@"; [clash H1 E |].
  test_prefix "index"; [clash H1 E0 |].
  test_prefix "---"; [clash H1 E1 |].
  test_prefix "+++"; [done |].
  apply startsWith_prefix_of in H1. by rewrite H1.
Qed.

Lemma number_step_removed (oldLine newLine : number) (line : jsstring) :
  removed_line line →
  number_step (oldLine, newLine) line =
  ((plus_one oldLine, newLine),
   NumRow (str "flex bg-red-500/10 text-red-600")
     (String_of oldLine) [] line).
Proof.
  intros [H1 H3]. unfold number_step.
  test_prefix "@@"; [clash H1 E |].
  test_prefix "index"; [clash H1 E0 |].
  test_prefix "---"; [done |].
  test_prefix "+++"; [clash H1 E2 |].
  test_prefix "+"; [clash H1 E3 |].
  apply startsWith_prefix_of in H1. by rewrite H1.
Qed.

Lemma number_step_context (oldLine newLine : number) (line : jsstring) :
  content_line line → ¬ added_line line → ¬ removed_line line →
  number_step (oldLine, newLine) line =
  ((plus_one oldLine, plus_one newLine),
   NumRow (str "flex whitespace-pre")
     (String_of oldLine) (String_of newLine) line).
Proof.
  intros [Hh Hm] Ha Hr. unfold number_step, meta_line in *.
  test_prefix "@@"; [done |].
  test_prefix "index"; [tauto |].
  test_prefix "---"; [tauto |].
  test_prefix "+++"; [tauto |].
  test_prefix "+"; [exfalso; by apply Ha |].
  test_prefix "-"; [exfalso; by apply Hr |].
  done.
Qed.

Lemma hunk_text_hunk_line a ob c od rest : hunk_line (hunk_text a ob c od rest).
Proof.
  exists (str " -" ++ dec a ++ opt_count ob ++ str " +" ++ dec c ++
          opt_count od ++ str " @@" ++ rest).
  reflexivity.
Qed.

(** Beyond the safe integers the numbering fails: a hunk header that starts
    at 9007199254740993 (2^53 + 1) sets both counters to 9007199254740992,
    and a context line is numbered with them and leaves them there. *)
Lemma numbering_stops :
  number_step (Int 0, Int 0)
    (hunk_text 9007199254740993 (Some 2%N) 9007199254740993 (Some 2%N) []) =
    ((Int 9007199254740992, Int 9007199254740992),
     HunkRow (str "@@ -9007199254740993,2 +9007199254740993,2 @@")) ∧
  number_step (Int 9007199254740992, Int 9007199254740992) (str " x") =
    ((Int 9007199254740992, Int 9007199254740992),
     NumRow (str "flex whitespace-pre")
       (str "9007199254740992") (str "9007199254740992") (str " x")).
Proof. split; by vm_compute. Qed.

(** C6, with the condition it needs.  A line that begins with "@@" and
    holds a hunk header [@@ -a,b +c,d @@] sets the old-line counter to the
    Number nearest to [a] and the new-line counter to the Number nearest
    to [c]: to [a] and [c] themselves when they are safe integers (at most
    2^53 - 1).  As long as the counters are safe integers: a line that
    begins with "+" and not with "+++" is numbered with the new-line
    counter and advances it alone; a line that begins with "-" and not
    with "---" is numbered with the old-line counter and advances it
    alone; every other content line is numbered with both counters and
    advances both.  A line that begins with "@@" and does not match the
    pattern is shown as a hunk row, without numbers, and leaves the
    counters as they are; the next line is numbered from the counters the
    line leaves. *)
Theorem numbering_by_line_kind (oldLine newLine : N) (line : jsstring) :
  (oldLine ≤ MAX_SAFE_INTEGER)%N → (newLine ≤ MAX_SAFE_INTEGER)%N →
  (∀ a ob c od rest,
     line = hunk_text a ob c od rest →
     number_step (Int oldLine, Int newLine) line =
       ((to_number a, to_number c), HunkRow line) ∧
     ((a ≤ MAX_SAFE_INTEGER)%N → to_number a = Int a) ∧
     ((c ≤ MAX_SAFE_INTEGER)%N → to_number c = Int c)) ∧
  (hunk_line line → ∀ caps, exec 2 hunk_re line = Some caps →
     number_step (Int oldLine, Int newLine) line =
     ((parseInt (group 1 caps), parseInt (group 2 caps)), HunkRow line)) ∧
  (hunk_line line → exec 2 hunk_re line = None →
     number_step (Int oldLine, Int newLine) line =
     ((Int oldLine, Int newLine), HunkRow line)) ∧
  (added_line line →
     number_step (Int oldLine, Int newLine) line =
     ((Int oldLine, Int (newLine + 1)),
      NumRow (str "flex bg-green-500/10 text-green-600")
        [] (dec newLine) line)) ∧
  (removed_line line →
     number_step (Int oldLine, Int newLine) line =
     ((Int (oldLine + 1), Int newLine),
      NumRow (str "flex bg-red-500/10 text-red-600")
        (dec oldLine) [] line)) ∧
  (content_line line → ¬ added_line line → ¬ removed_line line →
     number_step (Int oldLine, Int newLine) line =
     ((Int (oldLine + 1), Int (newLine + 1)),
      NumRow (str "flex whitespace-pre")
        (dec oldLine) (dec newLine) line)) ∧
  (∀ ls, number_rows (Int oldLine, Int newLine) (line :: ls) =
         (number_step (Int oldLine, Int newLine) line).2 ::
         number_rows (number_step (Int oldLine, Int newLine) line).1 ls).
Proof.
  intros Ho Hn.
  split; [| split; [| split; [| split; [| split; [| split]]]]].
  - intros a ob c od rest ->.
    split; [| split; apply to_number_safe].
    rewrite number_step_hunk by apply hunk_text_hunk_line.
    destruct (hunk_match a ob c od rest) as (caps & -> & -> & ->).
    by rewrite !parseInt_dec_nearest.
  - intros H caps E. by rewrite number_step_hunk, E.
  - intros H E. by rewrite number_step_hunk, E.
  - intros H. rewrite number_step_added by done.
    by rewrite plus_one_safe, String_of_safe.
  - intros H. rewrite number_step_removed by done.
    by rewrite plus_one_safe, String_of_safe.
  - intros H Ha Hr. rewrite number_step_context by done.
    by rewrite !plus_one_safe, !String_of_safe.
  - intros ls. cbn [number_rows].
    by destruct (number_step (Int oldLine, Int newLine) line).
Qed.

Lemma numbering_by_line_kind_witness :
  (7 ≤ MAX_SAFE_INTEGER)%N ∧ (9 ≤ MAX_SAFE_INTEGER)%N ∧
  number_step (Int 7, Int 9)
      (hunk_text 12 (Some 3%N) 15 None (str " int main()")) =
    ((Int 12, Int 15), HunkRow (str "@@ -12,3 +15 @@ int main()")) ∧
  number_step (Int 7, Int 9) (str "@@ binary @@") =
    ((Int 7, Int 9), HunkRow (str "@@ binary @@")) ∧
  number_step (Int 7, Int 9) (str "+foo") =
    ((Int 7, Int 10), NumRow (str "flex bg-green-500/10 text-green-600")
                        [] (str "9") (str "+foo")) ∧
  number_step (Int 7, Int 9) (str "-bar") =
    ((Int 8, Int 9), NumRow (str "flex bg-red-500/10 text-red-600")
                       (str "7") [] (str "-bar")) ∧
  number_step (Int 7, Int 9) (str " baz") =
    ((Int 8, Int 10), NumRow (str "flex whitespace-pre")
                        (str "7") (str "9") (str " baz")).
Proof.
  assert (7 ≤ MAX_SAFE_INTEGER)%N as H7 by (by vm_compute).
  assert (9 ≤ MAX_SAFE_INTEGER)%N as H9 by (by vm_compute).
  split; [exact H7 |]. split; [exact H9 |].
  split; [| split; [| split; [| split]]].
  - etrans;
      [exact (proj1 (proj1 (numbering_by_line_kind 7 9 _ H7 H9) 12%N
                (Some 3%N) 15%N None (str " int main()") eq_refl)) |].
    by vm_compute.
  - apply (proj1 (proj2 (proj2 (numbering_by_line_kind 7 9 _ H7 H9))));
      compute_done.
  - apply (proj1 (proj2 (proj2 (proj2 (numbering_by_line_kind 7 9 _ H7 H9)))));
      compute_done.
  - apply (proj1 (proj2 (proj2 (proj2 (proj2
             (numbering_by_line_kind 7 9 _ H7 H9))))));
      compute_done.
  - apply (proj1 (proj2 (proj2 (proj2 (proj2 (proj2
             (numbering_by_line_kind 7 9 _ H7 H9)))))));
      compute_done.
Defined.

End Diff.

(** ** The connectors of the commit graph *)

Module Graph.
Import JsString JsNumber.

(** [GraphCommit] of [useTauriGit.ts]; [column] and [color] come from the
    backend. *)
Record GraphCommit : Type := mkGraphCommit {
  hash : jsstring;
  hash_short : jsstring;
  message : jsstring;
  author : jsstring;
  email : jsstring;
  date : jsstring;
  parents : list jsstring;
  branches : list jsstring;
  tags : list jsstring;
  column : Z;
  color : Z
}.

Definition COLORS : list jsstring :=
  [ str "#3b82f6"; str "#22c55e"; str "#f59e0b"; str "#ef4444";
    str "#8b5cf6"; str "#ec4899"; str "#06b6d4"; str "#f97316" ].

Definition NODE_RADIUS : Z := 4.
Definition ROW_HEIGHT : Z := 24.
Definition COLUMN_WIDTH : Z := 16.
Definition GRAPH_PADDING : Z := 6.

(** [COLORS[n % COLORS.length]]: the remainder has the sign of [n], and an
    index outside the array gives [undefined], here [None]. *)
Definition stroke_of (n : Z) : option jsstring :=
  let r := Z.rem n (Z.of_nat (length COLORS)) in
  if (0 <=? r)%Z then COLORS !! Z.to_nat r else None.

(** The two SVG elements [renderConnections] creates.  A path is the cubic
    curve [M x1 y1 C x1 midY, x2 midY, x2 y2]: its two control points have
    the ordinate [midY], a double. *)
Inductive connector : Type :=
| Line (key : jsstring) (x1 y1 x2 y2 : Z) (stroke : option jsstring)
| Path (key : jsstring) (x1 y1 : Z) (midY : double) (x2 y2 : Z)
       (stroke : option jsstring).

(** [commitIndexMap]: a later commit with the same hash replaces the
    earlier entry. *)
Fixpoint index_from (i : nat) (commits : list GraphCommit)
    (m : gmap jsstring nat) : gmap jsstring nat :=
  match commits with
  | [] => m
  | c :: commits' => index_from (S i) commits' (<[hash c := i]> m)
  end.

Definition commitIndexMap (commits : list GraphCommit) : gmap jsstring nat :=
  index_from 0 commits ∅.

Definition node_x (c : GraphCommit) : Z :=
  (GRAPH_PADDING + column c * COLUMN_WIDTH)%Z.

Definition node_y (index : nat) : Z :=
  (GRAPH_PADDING + Z.of_nat index * ROW_HEIGHT + ROW_HEIGHT / 2)%Z.

(** A loop whose body may throw: [None] is the exception. *)
Fixpoint forEach {A T : Type} (f : T → A → option T) (l : list A) (s : T)
  : option T :=
  match l with
  | [] => Some s
  | a :: l' =>
      match f s a with
      | Some s' => forEach f l' s'
      | None => None
      end
  end.

Fixpoint forEach_indexed {A T : Type} (f : T → nat → A → option T)
    (i : nat) (l : list A) (s : T) : option T :=
  match l with
  | [] => Some s
  | a :: l' =>
      match f s i a with
      | Some s' => forEach_indexed f (S i) l' s'
      | None => None
      end
  end.

(** [y1 + (y2 - y1) * 0.3], in binary64 as the code computes it: the
    product and the sum are each rounded.  The ordinates themselves are
    integers far below 2^53 for every list an array can hold, and such
    integers are doubles as they are. *)
Definition midY (y1 y2 : Z) : double :=
  double_add (double_of_Z y1)
    (double_mul (double_sub (double_of_Z y2) (double_of_Z y1)) literal_0_3).

(** The connector from a commit to the commit at [parentIndex]. *)
Definition connect (index : nat) (commit : GraphCommit)
    (parentHash : jsstring) (parentIndex : nat) (parentCommit : GraphCommit)
  : connector :=
  let x1 := node_x commit in
  let y1 := node_y index in
  let x2 := node_x parentCommit in
  let y2 := node_y parentIndex in
  let stroke := stroke_of (color commit) in
  let key := hash commit ++ str "-" ++ parentHash in
  if (column commit =? column parentCommit)%Z then
    Line key x1 y1 x2 y2 stroke
  else
    Path key x1 y1 (midY y1 y2) x2 y2 stroke.

(** The callback of [commit.parents.forEach]; [paths] is the array the
    callbacks push to.  Reading [commits[parentIndex].column] of a missing
    element would throw. *)
Definition connect_parent (commits : list GraphCommit)
    (m : gmap jsstring nat) (index : nat) (commit : GraphCommit)
    (paths : list connector) (parentHash : jsstring)
  : option (list connector) :=
  match m !! parentHash with
  | Some parentIndex =>
      match commits !! parentIndex with
      | Some parentCommit =>
          Some (paths ++ [connect index commit parentHash parentIndex parentCommit])
      | None => None
      end
  | None => Some paths
  end.

Definition renderConnections (commits : list GraphCommit)
  : option (list connector) :=
  forEach_indexed
    (λ paths index commit,
       forEach (connect_parent commits (commitIndexMap commits) index commit)
               (parents commit) paths)
    0 commits [].

(** *** The words of the specification *)

(** The parent is in the window at row [pi], the last row with that hash
    (the only one when hashes are unique). *)
Definition parent_at (commits : list GraphCommit) (h : jsstring) (pi : nat)
    (p : GraphCommit) : Prop :=
  commits !! pi = Some p ∧ hash p = h ∧
  ∀ j p', commits !! j = Some p' → hash p' = h → j ≤ pi.

(** The parent is not in the window. *)
Definition parent_absent (commits : list GraphCommit) (h : jsstring) : Prop :=
  ∀ p, p ∈ commits → hash p ≠ h.

(** The connectors drawn for one (commit, parent) pair: what the callback
    pushes. *)
Definition edges_of (commits : list GraphCommit) (index : nat)
    (commit : GraphCommit) (parentHash : jsstring) : list connector :=
  match commitIndexMap commits !! parentHash with
  | Some parentIndex =>
      match commits !! parentIndex with
      | Some parentCommit =>
          [connect index commit parentHash parentIndex parentCommit]
      | None => []
      end
  | None => []
  end.


(** The scenario of the specification: c2 merges c1 and c0, and the
    parent of c1 lies outside the window. *)
Definition example_commit (h : string) (ps : list string) (col clr : Z)
  : GraphCommit :=
  {| hash := str h; hash_short := str h; message := []; author := [];
     email := []; date := []; parents := str <$> ps; branches := [];
     tags := []; column := col; color := clr |}.

Definition example_window : list GraphCommit :=
  [ example_commit "c3" ["c2"] 0 0;
    example_commit "c2" ["c1"; "c0"] 0 0;
    example_commit "c1" ["b9"] 0 0;
    example_commit "c0" [] 1 1 ].

(** *** The index map *)

Lemma index_from_None (i : nat) (commits : list GraphCommit)
    (m : gmap jsstring nat) (h : jsstring) :
  index_from i commits m !! h = None ↔
  m !! h = None ∧ parent_absent commits h.
Proof.
  unfold parent_absent. revert i m.
  induction commits as [|c cs IH]; intros i m; simpl.
  - split; [intros H; split; [done |]; intros p Hp; by apply elem_of_nil in Hp
           | by intros [H _]].
  - rewrite IH, lookup_insert_None. split.
    + intros [[Hm Hc] Hcs]. split; [done |].
      intros p [-> | Hp]%elem_of_cons; [done | by apply Hcs].
    + intros [Hm Hall]. split; [split; [done |] |].
      * apply Hall. by left.
      * intros p Hp. apply Hall. by right.
Qed.

Lemma index_from_Some (i : nat) (commits : list GraphCommit)
    (m : gmap jsstring nat) (h : jsstring) (k : nat) :
  index_from i commits m !! h = Some k →
  (m !! h = Some k ∧ parent_absent commits h) ∨
  (∃ j p, k = i + j ∧ parent_at commits h j p).
Proof.
  unfold parent_absent, parent_at. revert i m.
  induction commits as [|c cs IH]; intros i m; simpl.
  - intros H. left. split; [done |]. intros p Hp. by apply elem_of_nil in Hp.
  - intros H'. apply IH in H' as [[Hm Habs] | (j & p & -> & Hj & Hp & Hlast)].
    + apply lookup_insert_Some in Hm as [[Hc ->] | [Hc Hm]].
      * right. exists 0, c. split; [lia |]. split; [done |]. split; [done |].
        intros [|j'] p' Hj' Hp'; [lia |]. simpl in Hj'.
        exfalso. apply (Habs p'); [| done].
        apply list_elem_of_lookup. by exists j'.
      * left. split; [done |].
        intros p [-> | Hp]%elem_of_cons; [done | by apply Habs].
    + right. exists (S j), p. split; [lia |]. split; [done |]. split; [done |].
      intros [|j'] p' Hj' Hp'; [lia |]. simpl in Hj'.
      pose proof (Hlast j' p' Hj' Hp'). lia.
Qed.

(** The map holds the last row of every hash of the window, and nothing
    else. *)
Lemma commitIndexMap_absent (commits : list GraphCommit) (h : jsstring) :
  commitIndexMap commits !! h = None ↔ parent_absent commits h.
Proof.
  unfold commitIndexMap. rewrite index_from_None. rewrite lookup_empty.
  tauto.
Qed.

Lemma commitIndexMap_Some (commits : list GraphCommit) (h : jsstring) (k : nat) :
  commitIndexMap commits !! h = Some k ↔ ∃ p, parent_at commits h k p.
Proof.
  split.
  - intros H. apply index_from_Some in H as [[H _] | (j & p & -> & H)].
    + by rewrite lookup_empty in H.
    + by exists p.
  - intros (p & Hk & Hp & Hlast).
    destruct (commitIndexMap commits !! h) as [k'|] eqn:E.
    + apply index_from_Some in E as [[E _] | (j & p' & -> & Hj & Hp' & Hlast')].
      * by rewrite lookup_empty in E.
      * simpl. f_equal.
        pose proof (Hlast _ _ Hj Hp'). pose proof (Hlast' _ _ Hk Hp). lia.
    + apply commitIndexMap_absent in E. exfalso. apply (E p); [| done].
      apply list_elem_of_lookup. by exists k.
Qed.

(** *** The loops *)

Lemma connect_parent_edges (commits : list GraphCommit) (index : nat)
    (commit : GraphCommit) (paths : list connector) (h : jsstring) :
  connect_parent commits (commitIndexMap commits) index commit paths h =
  Some (paths ++ edges_of commits index commit h).
Proof.
  unfold connect_parent, edges_of.
  destruct (commitIndexMap commits !! h) as [k|] eqn:E.
  - apply commitIndexMap_Some in E as (p & Hk & _). by rewrite Hk.
  - by rewrite app_nil_r.
Qed.

Lemma forEach_parents (commits : list GraphCommit) (index : nat)
    (commit : GraphCommit) (hs : list jsstring) (paths : list connector) :
  forEach (connect_parent commits (commitIndexMap commits) index commit)
    hs paths =
  Some (paths ++ concat (edges_of commits index commit <$> hs)).
Proof.
  revert paths. induction hs as [|h hs IH]; intros paths; simpl.
  - by rewrite app_nil_r.
  - rewrite connect_parent_edges, IH. by rewrite <- app_assoc.
Qed.

Lemma forEach_commits (commits cs : list GraphCommit) (i : nat)
    (paths : list connector) :
  forEach_indexed
    (λ paths index commit,
       forEach (connect_parent commits (commitIndexMap commits) index commit)
               (parents commit) paths)
    i cs paths =
  Some (paths ++
        concat (imap (λ j c, concat (edges_of commits (i + j) c <$> parents c))
                     cs)).
Proof.
  revert i paths. induction cs as [|c cs IH]; intros i paths; simpl.
  - by rewrite app_nil_r.
  - rewrite forEach_parents, IH, Nat.add_0_r, <- app_assoc.
    do 4 f_equal. apply imap_ext. intros j c' _. simpl.
    by rewrite Nat.add_succ_r.
Qed.


(** *** One connector per parent in the window *)

Lemma edges_of_absent (commits : list GraphCommit) (index : nat)
    (commit : GraphCommit) (h : jsstring) :
  parent_absent commits h → edges_of commits index commit h = [].
Proof.
  intros H. apply commitIndexMap_absent in H. unfold edges_of. by rewrite H.
Qed.

Lemma edges_of_present (commits : list GraphCommit) (index : nat)
    (commit : GraphCommit) (h : jsstring) (pi : nat) (p : GraphCommit) :
  parent_at commits h pi p →
  edges_of commits index commit h = [connect index commit h pi p].
Proof.
  intros H. pose proof H as (Hpi & _).
  unfold edges_of.
  rewrite (proj2 (commitIndexMap_Some commits h pi)) by (by exists p).
  by rewrite Hpi.
Qed.

Lemma node_y_later (i pi : nat) : i < pi → (node_y i < node_y pi)%Z.
Proof. unfold node_y, GRAPH_PADDING, ROW_HEIGHT. lia. Qed.

Lemma parent_in_window (commits : list GraphCommit) (h : jsstring)
    (j : nat) (p0 : GraphCommit) :
  commits !! j = Some p0 → hash p0 = h →
  ∃ pi p, parent_at commits h pi p ∧ j ≤ pi ∧
          (NoDup (hash <$> commits) → pi = j ∧ p = p0).
Proof.
  intros Hj Hp0.
  destruct (commitIndexMap commits !! h) as [k|] eqn:E.
  - apply commitIndexMap_Some in E as (p & Hk & Hp & Hlast).
    exists k, p. split; [done |]. split; [by eapply Hlast |].
    intros Hnd. assert (k = j) as ->; [| split; congruence].
    eapply NoDup_lookup; [exact Hnd | |];
      rewrite list_lookup_fmap; [by rewrite Hk | rewrite Hj; simpl; congruence].
  - apply commitIndexMap_absent in E. exfalso. apply (E p0); [| done].
    apply list_elem_of_lookup. by exists j.
Qed.

(** The control ordinate is 30% of the way down in binary64, which is
    not always the nearest double to the exact point: from row 0 to row 3
    (ordinates 18 and 90) the code gives 39.599999999999994, the double
    below 39.6; from row 1 to row 3 it gives the double 56.4. *)
Lemma midY_rounded :
  midY 18 90 = S754_finite false 5573204538870988 (-47) ∧
  midY 42 90 = S754_finite false 7937594343240499 (-47) ∧
  double_value (midY 18 90) = Some (5573204538870988 # 2 ^ 47)%Q ∧
  (5573204538870988 # 2 ^ 47 < 396 # 10)%Q.
Proof. repeat split; by vm_compute. Qed.

(** C4. [renderConnections] never throws, and what it returns is, pair by
    pair in the order of the rows and of the parents, the connectors of
    each (commit, parent) pair.  A pair whose parent hash is absent from
    the window has none.  A pair whose parent appears at a later row has
    exactly one, which runs down to the row of the parent (the last row
    with that hash: the row where it appears when hashes are unique): a
    straight vertical line when the two commits share a column, otherwise
    a curve whose two control points lie at 30% of the vertical distance
    between the two rows: their ordinate is the binary64 value of
    [y1 + (y2 - y1) * 0.3], which is at most [y2 / 2^52] away from the
    exact [y1 + 3/10 (y2 - y1)] (for ordinates below 2^53, that is for
    every list an array can hold). *)
Theorem connectors_per_parent (commits : list GraphCommit) :
  renderConnections commits =
    Some (concat (imap (λ i c, concat (edges_of commits i c <$> parents c))
                       commits)) ∧
  ∀ i c h,
    commits !! i = Some c → h ∈ parents c →
    (parent_absent commits h → edges_of commits i c h = []) ∧
    (∀ j p0, commits !! j = Some p0 → hash p0 = h → i < j →
       ∃ pi p e,
         parent_at commits h pi p ∧ j ≤ pi ∧
         (NoDup (hash <$> commits) → pi = j ∧ p = p0) ∧
         edges_of commits i c h = [e] ∧
         (node_y i < node_y pi)%Z ∧
         (column c = column p →
            node_x c = node_x p ∧
            e = Line (hash c ++ str "-" ++ h)
                  (node_x c) (node_y i) (node_x p) (node_y pi)
                  (stroke_of (color c))) ∧
         (column c ≠ column p →
            e = Path (hash c ++ str "-" ++ h)
                  (node_x c) (node_y i)
                  (double_add (double_of_Z (node_y i))
                     (double_mul
                        (double_sub (double_of_Z (node_y pi))
                                    (double_of_Z (node_y i)))
                        literal_0_3))
                  (node_x p) (node_y pi)
                  (stroke_of (color c)) ∧
            ((node_y pi < 2 ^ 53)%Z →
               ∃ v,
                 double_value (midY (node_y i) (node_y pi)) = Some v ∧
                 (inject_Z (node_y i)
                  + (3 # 10) * inject_Z (node_y pi - node_y i)
                  - inject_Z (node_y pi) * (1 # 2 ^ 52) <= v)%Q ∧
                 (v <= inject_Z (node_y i)
                       + (3 # 10) * inject_Z (node_y pi - node_y i)
                       + inject_Z (node_y pi) * (1 # 2 ^ 52))%Q))).
Proof.
  split.
  - unfold renderConnections. by rewrite forEach_commits.
  - intros i c h Hi Hh. split; [apply edges_of_absent |].
    intros j p0 Hj Hp0 Hij.
    destruct (parent_in_window commits h j p0 Hj Hp0) as (pi & p & Hp & Hle & Hu).
    exists pi, p, (connect i c h pi p).
    split; [done |]. split; [done |]. split; [done |].
    split; [by apply edges_of_present |].
    split; [apply node_y_later; lia |].
    unfold connect. split.
    + intros Hcol. split; [unfold node_x; by rewrite Hcol |].
      by rewrite (proj2 (Z.eqb_eq _ _) Hcol).
    + intros Hcol. rewrite (proj2 (Z.eqb_neq _ _) Hcol). split; [done |].
      intros Hsafe. apply thirty_percent; [| apply node_y_later; lia | done].
      unfold node_y, GRAPH_PADDING, ROW_HEIGHT.
      change (24 / 2)%Z with 12%Z. lia.
Qed.

Lemma connectors_per_parent_witness :
  renderConnections example_window =
  Some [ Line (str "c3-c2") 6 18 6 42 (Some (str "#3b82f6"));
         Line (str "c2-c1") 6 42 6 66 (Some (str "#3b82f6"));
         Path (str "c2-c0") 6 42 (S754_finite false 7937594343240499 (-47))
              22 90 (Some (str "#3b82f6")) ].
Proof.
  etrans; [apply (proj1 (connectors_per_parent example_window)) |].
  vm_compute. reflexivity.
Defined.

End Graph.

(** ** The store of local repositories *)

Module Store.
Import JsString.

Record LocalRepo : Type := mkLocalRepo {
  id : jsstring;
  path : jsstring;
  name : jsstring;
  addedAt : jsstring
}.

(** The data of [LocalReposState]; [None] is [null]. *)
Record LocalReposState : Type := mkState {
  repos : list LocalRepo;
  selectedRepoId : option jsstring
}.

Definition initial : LocalReposState :=
  {| repos := []; selectedRepoId := None |}.

(** [addRepo]: [uuid] is what [crypto.randomUUID()] returns and [now] what
    [new Date().toISOString()] returns at the call. *)
Definition addRepo (uuid now : jsstring) (p n : jsstring)
    (st : LocalReposState) : LocalReposState :=
  match find (λ r, bool_decide (path r = p)) (repos st) with
  | Some existing =>
      {| repos := repos st; selectedRepoId := Some (id existing) |}
  | None =>
      let newRepo := {| id := uuid; path := p; name := n; addedAt := now |} in
      {| repos := repos st ++ [newRepo]; selectedRepoId := Some (id newRepo) |}
  end.

Definition removeRepo (i : jsstring) (st : LocalReposState)
  : LocalReposState :=
  {| repos := filter (λ r, id r ≠ i) (repos st);
     selectedRepoId :=
       if decide (selectedRepoId st = Some i) then None
       else selectedRepoId st |}.

Definition selectRepo (i : option jsstring) (st : LocalReposState)
  : LocalReposState :=
  {| repos := repos st; selectedRepoId := i |}.

Definition getSelectedRepo (st : LocalReposState) : option LocalRepo :=
  find (λ r, bool_decide (Some (id r) = selectedRepoId st)) (repos st).

(** The calls of the store, with what the environment returns to them. *)
Inductive call : Type :=
| AddRepo (uuid now p n : jsstring)
| RemoveRepo (i : jsstring)
| SelectRepo (i : option jsstring).

Definition run_call (st : LocalReposState) (c : call) : LocalReposState :=
  match c with
  | AddRepo uuid now p n => addRepo uuid now p n st
  | RemoveRepo i => removeRepo i st
  | SelectRepo i => selectRepo i st
  end.

(** The states the store reaches from its initial state. *)
Inductive reachable : LocalReposState → Prop :=
| reachable_initial : reachable initial
| reachable_call st c : reachable st → reachable (run_call st c).

(** Two repositories are added, then the first path is added again. *)
Definition example_state : LocalReposState :=
  run_call (run_call (run_call initial
    (AddRepo (str "id-1") (str "t1") (str "/a") (str "a")))
    (AddRepo (str "id-2") (str "t2") (str "/b") (str "b")))
    (AddRepo (str "id-3") (str "t3") (str "/a") (str "again")).

(** *** Paths stay unique *)

Lemma find_path_Some (p : jsstring) (l : list LocalRepo) (r : LocalRepo) :
  find (λ r, bool_decide (path r = p)) l = Some r → r ∈ l ∧ path r = p.
Proof.
  intros H. apply find_some in H as [Hin Hp].
  apply list_elem_of_In in Hin. by apply bool_decide_eq_true in Hp.
Qed.

Lemma find_path_None (p : jsstring) (l : list LocalRepo) :
  find (λ r, bool_decide (path r = p)) l = None ↔ p ∉ path <$> l.
Proof.
  induction l as [|r l IH]; simpl.
  - split; [intros _; apply not_elem_of_nil | done].
  - rewrite not_elem_of_cons. case_bool_decide as Hr.
    + split; [done | intros [Hne _]; by destruct Hne].
    + rewrite IH. split; [intros H; split; [by intros -> | done] | by intros [_ H]].
Qed.

Lemma run_call_unique (st : LocalReposState) (c : call) :
  NoDup (path <$> repos st) → NoDup (path <$> repos (run_call st c)).
Proof.
  intros Hnd. destruct c as [uuid now p n | i | i]; simpl; [| | done].
  - unfold addRepo.
    destruct (find _ (repos st)) as [existing|] eqn:E; simpl; [done |].
    apply find_path_None in E.
    rewrite fmap_app. apply NoDup_app. split; [done |]. split.
    + intros x Hx [-> | []%elem_of_nil]%elem_of_cons. done.
    + apply NoDup_singleton.
  - eapply sublist_NoDup; [exact Hnd |].
    apply fmap_sublist, sublist_filter.
Qed.

Lemma reachable_unique (st : LocalReposState) :
  reachable st → NoDup (path <$> repos st).
Proof.
  induction 1 as [|st c _ IH]; [constructor | by apply run_call_unique].
Qed.

Lemma addRepo_existing (uuid now p n : jsstring) (st : LocalReposState) :
  p ∈ path <$> repos st →
  ∃ existing,
    existing ∈ repos st ∧ path existing = p ∧
    addRepo uuid now p n st =
      {| repos := repos st; selectedRepoId := Some (id existing) |}.
Proof.
  intros Hp. unfold addRepo.
  destruct (find _ (repos st)) as [existing|] eqn:E.
  - apply find_path_Some in E as [Hin Hpath]. by exists existing.
  - by apply find_path_None in E.
Qed.

(** C9. In every state the store reaches from its initial state by calls
    of [addRepo], [removeRepo] and [selectRepo], no two entries of [repos]
    have the same path; and [addRepo] with a path that is already there
    leaves [repos] as it is and selects the entry with that path. *)
Theorem repos_paths_unique (st : LocalReposState) :
  reachable st →
  NoDup (path <$> repos st) ∧
  ∀ uuid now p n existing,
    existing ∈ repos st → path existing = p →
    repos (addRepo uuid now p n st) = repos st ∧
    selectedRepoId (addRepo uuid now p n st) = Some (id existing).
Proof.
  intros Hst. pose proof (reachable_unique st Hst) as Hnd.
  split; [done |].
  intros uuid now p n existing Hin Hp.
  destruct (addRepo_existing uuid now p n st) as (e & He & Hpe & ->).
  { apply list_elem_of_fmap. by exists existing. }
  simpl. split; [done |]. do 2 f_equal.
  apply list_elem_of_lookup in He as [i Hi].
  apply list_elem_of_lookup in Hin as [j Hj].
  assert (i = j) as ->.
  { eapply NoDup_lookup; [exact Hnd | |];
      rewrite list_lookup_fmap; [by rewrite Hi | rewrite Hj; simpl; congruence]. }
  congruence.
Qed.

Lemma repos_paths_unique_witness :
  NoDup (path <$> repos example_state) ∧
  length (repos example_state) = 2 ∧
  selectedRepoId example_state = Some (str "id-1").
Proof.
  split; [| by vm_compute].
  apply repos_paths_unique. unfold example_state.
  do 3 apply reachable_call. apply reachable_initial.
Defined.

End Store.

(** ** The context-menu handlers of [BranchGraph] *)

Module Handlers.
Import JsString Graph.

(** What a handler does, in order.  [fetchGraph()] and [onRefresh?.()] are
    started and not awaited; toasts are kept without their text. *)
Inductive arg : Type :=
| AStr (s : jsstring)
| ABool (b : bool)
| ANull.

Inductive effect : Type :=
| Invoke (cmd : string) (args : list (string * arg))
| ToastSuccess
| ToastError
| CallFetchGraph
| CallOnRefresh.

(** What the handler meets: the answer to [prompt] ([None] when the dialog
    is cancelled), the answer to [confirm], and whether the promise of
    [invoke] resolves. *)
Record env : Type := mkEnv {
  prompt_answer : option jsstring;
  confirm_answer : bool;
  invoke_ok : bool
}.

(** White space and line terminators, which [trim] removes. *)
Definition is_space (c : N) : bool :=
  ((c =? 9) || (c =? 10) || (c =? 11) || (c =? 12) || (c =? 13) || (c =? 32)
   || (c =? 160) || (c =? 5760) || ((8192 <=? c) && (c <=? 8202))
   || (c =? 8232) || (c =? 8233) || (c =? 8239) || (c =? 8287)
   || (c =? 12288) || (c =? 65279))%N.

Fixpoint trimStart (s : jsstring) : jsstring :=
  match s with
  | c :: s' => if is_space c then trimStart s' else s
  | [] => []
  end.

Definition trim (s : jsstring) : jsstring :=
  reverse (trimStart (reverse (trimStart s))).

(** [try { await invoke(cmd, args); toast.success(..); after } catch
    { toast.error(..) }] *)
Definition try_invoke (e : env) (cmd : string) (args : list (string * arg))
    (after : list effect) : list effect :=
  Invoke cmd args ::
  (if invoke_ok e then ToastSuccess :: after else [ToastError]).

Section handlers.
Context (repoPath : jsstring).

Definition handleCheckout (hash : jsstring) (e : env) : list effect :=
  try_invoke e "checkout_commit"
    [("path", AStr repoPath); ("commitHash", AStr hash)]
    [CallFetchGraph; CallOnRefresh].

Definition handleCreateBranch (hash : jsstring) (e : env) : list effect :=
  match prompt_answer e with
  | None => []
  | Some branchName =>
      if bool_decide (trim branchName = []) then []
      else
        try_invoke e "create_branch_at"
          [("path", AStr repoPath); ("branchName", AStr (trim branchName));
           ("commitHash", AStr hash)]
          [CallFetchGraph; CallOnRefresh]
  end.

Inductive reset_mode : Type := soft | mixed | hard.

Definition mode_name (m : reset_mode) : jsstring :=
  match m with
  | soft => str "soft"
  | mixed => str "mixed"
  | hard => str "hard"
  end.

Definition handleResetTo (hash : jsstring) (mode : reset_mode) (e : env)
  : list effect :=
  if match mode with hard => negb (confirm_answer e) | _ => false end then []
  else
    try_invoke e "reset_to_commit"
      [("path", AStr repoPath); ("commitHash", AStr hash);
       ("mode", AStr (mode_name mode))]
      [CallFetchGraph; CallOnRefresh].

Definition handleCreateTag (hash : jsstring) (e : env) : list effect :=
  match prompt_answer e with
  | None => []
  | Some tagName =>
      if bool_decide (trim tagName = []) then []
      else
        try_invoke e "create_tag"
          [("path", AStr repoPath); ("tagName", AStr (trim tagName));
           ("commitHash", AStr hash)]
          [CallFetchGraph]
  end.

Definition handleCherryPick (hash : jsstring) (e : env) : list effect :=
  try_invoke e "cherry_pick"
    [("path", AStr repoPath); ("commitHash", AStr hash)]
    [CallFetchGraph; CallOnRefresh].

Definition handleRevert (hash : jsstring) (e : env) : list effect :=
  try_invoke e "revert_commit"
    [("path", AStr repoPath); ("commitHash", AStr hash)]
    [CallFetchGraph; CallOnRefresh].

(** [message || null]: a cancelled or empty answer is sent as [null]. *)
Definition handleStashSave (e : env) : list effect :=
  let message :=
    match prompt_answer e with
    | Some (c :: m) => AStr (c :: m)
    | _ => ANull
    end in
  try_invoke e "stash_save"
    [("path", AStr repoPath); ("message", message)]
    [CallOnRefresh].

Definition handleStashPop (e : env) : list effect :=
  try_invoke e "stash_pop" [("path", AStr repoPath)]
    [CallFetchGraph; CallOnRefresh].

Definition handleMergeBranch (branchName : jsstring) (e : env) : list effect :=
  try_invoke e "merge_branch"
    [("path", AStr repoPath); ("branchName", AStr branchName)]
    [CallFetchGraph; CallOnRefresh].

Definition handleRebase (branchName : jsstring) (e : env) : list effect :=
  try_invoke e "rebase_onto"
    [("path", AStr repoPath); ("branchName", AStr branchName)]
    [CallFetchGraph; CallOnRefresh].

Definition handleDeleteBranch (branchName : jsstring) (force : bool) (e : env)
  : list effect :=
  if negb (confirm_answer e) then []
  else
    try_invoke e "delete_branch"
      [("path", AStr repoPath); ("branchName", AStr branchName);
       ("force", ABool force)]
      [CallFetchGraph; CallOnRefresh].

Definition handleRenameBranch (oldName : jsstring) (e : env) : list effect :=
  match prompt_answer e with
  | None => []
  | Some newName =>
      if bool_decide (trim newName = []) || bool_decide (newName = oldName)
      then []
      else
        try_invoke e "rename_branch"
          [("path", AStr repoPath); ("oldName", AStr oldName);
           ("newName", AStr (trim newName))]
          [CallFetchGraph; CallOnRefresh]
  end.

(** The mutating operations of the context menu. *)
Inductive operation : Type :=
| Checkout (hash : jsstring)
| CreateBranch (hash : jsstring)
| ResetTo (hash : jsstring) (mode : reset_mode)
| CreateTag (hash : jsstring)
| CherryPick (hash : jsstring)
| Revert (hash : jsstring)
| StashSave
| StashPop
| MergeBranch (branchName : jsstring)
| Rebase (branchName : jsstring)
| DeleteBranch (branchName : jsstring) (force : bool)
| RenameBranch (oldName : jsstring).

Definition dispatch (op : operation) (e : env) : list effect :=
  match op with
  | Checkout h => handleCheckout h e
  | CreateBranch h => handleCreateBranch h e
  | ResetTo h m => handleResetTo h m e
  | CreateTag h => handleCreateTag h e
  | CherryPick h => handleCherryPick h e
  | Revert h => handleRevert h e
  | StashSave => handleStashSave e
  | StashPop => handleStashPop e
  | MergeBranch b => handleMergeBranch b e
  | Rebase b => handleRebase b e
  | DeleteBranch b f => handleDeleteBranch b f e
  | RenameBranch o => handleRenameBranch o e
  end.

End handlers.

(** The operation was sent to the backend and the backend reported
    success. *)
Definition completed (tr : list effect) : Prop :=
  (∃ cmd args, Invoke cmd args ∈ tr) ∧ ToastSuccess ∈ tr.

(** The state [fetchGraph] writes, and [fetchGraph] itself once the
    backend has answered [getGraphLog(repoPath, 50)]: with the commits, or
    with the message of an error. *)
Record view : Type := mkView {
  commits : list GraphCommit;
  loading : bool;
  error : option jsstring
}.

Definition fetchGraph (answer : list GraphCommit + jsstring) (v : view)
  : view :=
  match answer with
  | inl data => {| commits := data; loading := false; error := None |}
  | inr msg => {| commits := commits v; loading := false; error := Some msg |}
  end.

(** *** Which operations fetch the graph again *)

Lemma try_invoke_completed e cmd args after :
  completed (try_invoke e cmd args after) → invoke_ok e = true.
Proof.
  unfold completed, try_invoke. intros [_ H].
  destruct (invoke_ok e); [done |].
  apply elem_of_cons in H as [H | H]; [done |].
  apply elem_of_cons in H as [H | H]; [done |].
  by apply elem_of_nil in H.
Qed.

Lemma try_invoke_fetches e cmd args after :
  completed (try_invoke e cmd args (CallFetchGraph :: after)) →
  CallFetchGraph ∈ try_invoke e cmd args (CallFetchGraph :: after).
Proof.
  intros H. apply try_invoke_completed in H. unfold try_invoke. rewrite H.
  rewrite !elem_of_cons. tauto.
Qed.

Lemma not_completed_nil : ¬ completed [].
Proof. intros [_ H]. by apply elem_of_nil in H. Qed.

(** Every operation of the menu but the stash save calls [fetchGraph] when
    it completes, and [fetchGraph] replaces the whole commit list by the
    list it fetched; the stash save completes without calling
    [fetchGraph]. *)
Lemma refetch_after_operation (repoPath : jsstring) :
  (∀ op e, op ≠ StashSave → completed (dispatch repoPath op e) →
     CallFetchGraph ∈ dispatch repoPath op e) ∧
  (∀ data v, commits (fetchGraph (inl data) v) = data) ∧
  (∀ e, invoke_ok e = true →
     completed (dispatch repoPath StashSave e) ∧
     CallFetchGraph ∉ dispatch repoPath StashSave e).
Proof.
  split; [| split].
  - intros op e Hop H.
    destruct op; simpl in *; try done;
      unfold handleCreateBranch, handleResetTo, handleCreateTag,
        handleDeleteBranch, handleRenameBranch in *;
      repeat match goal with
      | H : completed [] |- _ => by apply not_completed_nil in H
      | H : context [match ?x with _ => _ end] |- _ => destruct x
      end;
      by apply try_invoke_fetches.
  - done.
  - intros e He. simpl. unfold handleStashSave, try_invoke. rewrite He.
    split.
    + split; [eexists _, _; by left | rewrite !elem_of_cons; tauto].
    + rewrite !not_elem_of_cons. repeat split; try done. apply not_elem_of_nil.
Qed.


(** C2. The stash save, sent to the backend and completed, calls only
    [onRefresh]: the commit list is not fetched again, as it is after each
    of the eleven other operations. *)
Theorem stash_save_skips_fetchGraph :
  dispatch (str "/repo") StashSave
    {| prompt_answer := Some (str "wip"); confirm_answer := true;
       invoke_ok := true |} =
  [ Invoke "stash_save"
      [("path", AStr (str "/repo")); ("message", AStr (str "wip"))];
    ToastSuccess; CallOnRefresh ] ∧
  dispatch (str "/repo") StashPop
    {| prompt_answer := None; confirm_answer := true; invoke_ok := true |} =
  [ Invoke "stash_pop" [("path", AStr (str "/repo"))];
    ToastSuccess; CallFetchGraph; CallOnRefresh ].
Proof. split; reflexivity. Qed.

End Handlers.

(** ** The debounced [git-changed] listener of [App]

    Time is a logical clock in milliseconds.  [setTimeout(f, d)] records a
    timer with the deadline [now + d]; a timer fires when the clock reaches
    its deadline, unless [clearTimeout] removed it before.  The only
    callback the effect ever schedules is the call of [fetchRepoInfo]. *)

Module Debounce.

Record loop : Type := mkLoop {
  now : Z;
  timers : list (nat * Z);         (* pending timers: identifier, deadline *)
  next_id : nat;                   (* the identifier [setTimeout] returns next *)
  debounceTimer : option nat;      (* the variable of the effect; [None] is null *)
  fetched : list Z                 (* the times [fetchRepoInfo] was called *)
}.

Definition DELAY : Z := 300.

Definition start (t : Z) : loop :=
  {| now := t; timers := []; next_id := 1; debounceTimer := None;
     fetched := [] |}.

Definition clearTimeout (i : nat) (l : loop) : loop :=
  {| now := now l; timers := filter (λ tm, tm.1 ≠ i) (timers l);
     next_id := next_id l; debounceTimer := debounceTimer l;
     fetched := fetched l |}.

(** [debounceTimer = setTimeout(() => fetchRepoInfo(), 300)] *)
Definition setTimeout_debounce (l : loop) : loop :=
  {| now := now l; timers := timers l ++ [(next_id l, now l + DELAY)%Z];
     next_id := S (next_id l); debounceTimer := Some (next_id l);
     fetched := fetched l |}.

(** The clock moves to [t]: the timers that are due fire in the order they
    were set (every delay is the same, so this is the order of the
    deadlines), each calling [fetchRepoInfo] at its deadline. *)
Definition advance (t : Z) (l : loop) : loop :=
  let due := filter (λ tm, (tm.2 ≤ t)%Z) (timers l) in
  {| now := Z.max (now l) t;
     timers := filter (λ tm, ¬ (tm.2 ≤ t)%Z) (timers l);
     next_id := next_id l; debounceTimer := debounceTimer l;
     fetched := fetched l ++ due.*2 |}.

(** The listener: [if (debounceTimer) clearTimeout(debounceTimer)], then
    the new timer. *)
Definition on_git_changed (l : loop) : loop :=
  let l' :=
    match debounceTimer l with
    | Some i => clearTimeout i l
    | None => l
    end in
  setTimeout_debounce l'.

(** A notification arrives at time [t]. *)
Definition notify (l : loop) (t : Z) : loop :=
  on_git_changed (advance t l).

(** A burst: each notification comes less than 300ms after the one
    before. *)
Fixpoint burst (t : Z) (ts : list Z) : Prop :=
  match ts with
  | [] => True
  | t' :: ts' => (t ≤ t' < t + DELAY)%Z ∧ burst t' ts'
  end.

(** The loop waits for its last timer between two notifications of a
    burst: one timer is pending, the one [debounceTimer] names. *)
Definition armed (t : Z) (l : loop) : Prop :=
  ∃ i, timers l = [(i, (t + DELAY)%Z)] ∧ debounceTimer l = Some i ∧
       now l = t.

(** *** One fetch per burst *)

Lemma notify_first (l : loop) (t : Z) :
  timers l = [] → (now l ≤ t)%Z →
  armed t (notify l t) ∧ fetched (notify l t) = fetched l.
Proof.
  intros Ht Hnow. unfold notify, on_git_changed, advance, armed. rewrite Ht.
  cbn [debounceTimer]. destruct (debounceTimer l) as [i|] eqn:E;
    cbn -[Z.max Z.add]; rewrite Z.max_r by done.
  all: split; [| by rewrite app_nil_r].
  all: by exists (next_id l).
Qed.

Lemma filter_one {A} (P : A → Prop) `{∀ x, Decision (P x)} (x : A) :
  filter P [x] = if decide (P x) then [x] else [].
Proof. reflexivity. Qed.

Lemma notify_armed (l : loop) (t t' : Z) :
  armed t l → (t ≤ t' < t + DELAY)%Z →
  armed t' (notify l t') ∧ fetched (notify l t') = fetched l.
Proof.
  intros (i & Htm & Hd & Hnow) Hgap.
  unfold notify, on_git_changed, advance, armed.
  cbn [debounceTimer timers now next_id fetched]. rewrite Htm, Hd, Hnow.
  unfold clearTimeout, setTimeout_debounce.
  cbn [debounceTimer timers now next_id fetched].
  rewrite (filter_one (λ tm : nat * Z, (tm.2 ≤ t')%Z)).
  rewrite (filter_one (λ tm : nat * Z, ¬ (tm.2 ≤ t')%Z)).
  cbn [snd].
  destruct (decide (t + DELAY ≤ t')%Z) as [|_]; [lia |].
  destruct (decide (¬ (t + DELAY ≤ t')%Z)) as [_|]; [| lia].
  rewrite (filter_one (λ tm : nat * Z, tm.1 ≠ i)). cbn [fst].
  destruct (decide (i ≠ i)) as [|_]; [done |].
  cbn -[Z.max Z.add]. rewrite Z.max_r by lia.
  split; [| by rewrite app_nil_r].
  by exists (next_id l).
Qed.

Lemma last_default (x : Z) (l : list Z) (d d' : Z) :
  List.last (x :: l) d = List.last (x :: l) d'.
Proof.
  revert x. induction l as [|y l IH]; intros x; [done |].
  change (List.last (y :: l) d = List.last (y :: l) d'). apply IH.
Qed.

Lemma last_cons_default (ts : list Z) (t t' : Z) :
  List.last (t' :: ts) t = List.last ts t'.
Proof. destruct ts as [|x ts]; [done |]. apply (last_default x ts t t'). Qed.

Lemma burst_armed (ts : list Z) (t : Z) (l : loop) :
  armed t l → burst t ts →
  armed (List.last ts t) (fold_left notify ts l) ∧
  fetched (fold_left notify ts l) = fetched l.
Proof.
  revert t l. induction ts as [|t' ts IH]; intros t l Ha Hb; [done |].
  destruct Hb as [Hgap Hb].
  destruct (notify_armed l t t' Ha Hgap) as [Ha' Hf'].
  destruct (IH t' (notify l t') Ha' Hb) as [Ha'' Hf''].
  split.
  - by rewrite last_cons_default.
  - simpl. by rewrite Hf'', Hf'.
Qed.

Lemma advance_armed (l : loop) (t T : Z) :
  armed t l → (t + DELAY ≤ T)%Z →
  fetched (advance T l) = fetched l ++ [(t + DELAY)%Z] ∧
  timers (advance T l) = [].
Proof.
  intros (i & Htm & _) HT. unfold advance.
  cbn [timers fetched]. rewrite Htm.
  rewrite (filter_one (λ tm : nat * Z, (tm.2 ≤ T)%Z)).
  rewrite (filter_one (λ tm : nat * Z, ¬ (tm.2 ≤ T)%Z)).
  cbn [snd].
  destruct (decide (t + DELAY ≤ T)%Z) as [_|]; [| lia].
  destruct (decide (¬ (t + DELAY ≤ T)%Z)) as [|_]; [lia |].
  done.
Qed.

Lemma advance_early (l : loop) (t t' : Z) :
  armed t l → (t' < t + DELAY)%Z →
  fetched (advance t' l) = fetched l.
Proof.
  intros (i & Htm & _) HT. unfold advance.
  cbn [timers fetched]. rewrite Htm.
  rewrite (filter_one (λ tm : nat * Z, (tm.2 ≤ t')%Z)).
  cbn [snd].
  destruct (decide (t + DELAY ≤ t')%Z) as [|_]; [lia |].
  by rewrite app_nil_r.
Qed.

Lemma on_git_changed_timers (l : loop) :
  timers (on_git_changed l) =
  match debounceTimer l with
  | Some i => filter (λ tm, tm.1 ≠ i) (timers l)
  | None => timers l
  end ++ [(next_id l, (now l + DELAY)%Z)].
Proof. unfold on_git_changed. by destruct (debounceTimer l). Qed.

(** C5. Every notification cancels the timer the effect holds and sets a
    new one, 300ms ahead; so a burst of notifications, each less than
    300ms after the one before, ends in exactly one call of
    [fetchRepoInfo], 300ms after the last notification, and in none
    before. *)
Theorem burst_fetches_once (t0 : Z) (ts : list Z) (T : Z) (l : loop) :
  timers l = [] → (now l ≤ t0)%Z →
  burst t0 ts →
  (List.last ts t0 + DELAY ≤ T)%Z →
  (∀ l', timers (on_git_changed l') =
         match debounceTimer l' with
         | Some i => filter (λ tm, tm.1 ≠ i) (timers l')
         | None => timers l'
         end ++ [(next_id l', (now l' + DELAY)%Z)]) ∧
  fetched (advance T (fold_left notify (t0 :: ts) l)) =
    fetched l ++ [(List.last ts t0 + DELAY)%Z] ∧
  timers (advance T (fold_left notify (t0 :: ts) l)) = [] ∧
  (∀ t', (List.last ts t0 ≤ t' < List.last ts t0 + DELAY)%Z →
     fetched (advance t' (fold_left notify (t0 :: ts) l)) = fetched l).
Proof.
  intros Ht Hnow Hb HT. split; [apply on_git_changed_timers |].
  cbn [fold_left].
  destruct (notify_first l t0 Ht Hnow) as [Ha Hf].
  destruct (burst_armed ts t0 (notify l t0) Ha Hb) as [Ha' Hf'].
  destruct (advance_armed _ _ T Ha' HT) as [Hf'' Htm].
  split; [by rewrite Hf'', Hf', Hf |]. split; [done |].
  intros t' Ht'. rewrite (advance_early _ _ t' Ha') by lia.
  by rewrite Hf', Hf.
Qed.

Lemma burst_fetches_once_witness :
  fetched (advance 1000 (fold_left notify [0; 100; 350; 600]%Z (start 0))) =
  [900%Z].
Proof.
  apply (burst_fetches_once 0 [100; 350; 600]%Z 1000 (start 0));
    simpl; unfold DELAY; try done; lia.
Defined.

End Debounce.

(** ** The graph builder

    The layout of the graph is computed by the backend command
    [get_graph_log], whose code is not part of the TypeScript sources: the
    client only reads the [column] and [color] it returns.  The builder is
    modelled from section 4.1 of the specification. *)

Module Builder.
Import JsString.

Record Commit : Type := mkCommit {
  hash : jsstring;
  parents : list jsstring;
  refs : list jsstring
}.

Record PositionedCommit : Type := mkPositioned {
  row : nat;
  column : nat;
  colorIndex : N
}.

(** A slot of the lane state: free, or the hash expected in this column
    with the color it carries. *)
Definition slot : Type := option (jsstring * N).

Record lane_state : Type := mkLanes {
  lanes : list slot;
  next_color : N
}.

Definition PALETTE : N := 8.

(** Modelled from the spec: the graph builder of the backend command
    [get_graph_log] is missing from the sources.  This is its lookup of
    the slot reserved for a hash (step 2a), with the column of the slot;
    the first one if there were several. *)
Fixpoint find_slot_from (i : nat) (h : jsstring) (ls : list slot)
  : option (nat * N) :=
  match ls with
  | [] => None
  | Some (h', clr) :: ls' =>
      if decide (h' = h) then Some (i, clr) else find_slot_from (S i) h ls'
  | None :: ls' => find_slot_from (S i) h ls'
  end.

(** Modelled from the spec: the lookup of step 2a of the missing builder,
    from column 0. *)
Definition find_slot (h : jsstring) (ls : list slot) : option (nat * N) :=
  find_slot_from 0 h ls.

(** Modelled from the spec: the missing builder's choice of the lowest
    free column (first fit, step 2b); the list grows when every slot is
    taken. *)
Fixpoint first_free (ls : list slot) : nat :=
  match ls with
  | [] => 0
  | None :: _ => 0
  | Some _ :: ls' => S (first_free ls')
  end.

(** Modelled from the spec: the missing builder's write to the growable
    list of slots. *)
Definition set_slot (i : nat) (v : slot) (ls : list slot) : list slot :=
  if decide (i < length ls) then <[i := v]> ls
  else ls ++ replicate (i - length ls) None ++ [v].

(** Modelled from the spec: steps 2a and 2b of the missing builder, the
    column and the color of the commit.  A reserved slot gives both and is freed; otherwise the
    commit takes the lowest free column and a fresh color, the next of the
    palette. *)
Definition place (c : Commit) (st : lane_state) : nat * N * lane_state :=
  match find_slot (hash c) (lanes st) with
  | Some (i, clr) =>
      (i, clr, {| lanes := <[i := None]> (lanes st);
                  next_color := next_color st |})
  | None =>
      (first_free (lanes st), (next_color st mod PALETTE)%N,
       {| lanes := lanes st; next_color := (next_color st + 1)%N |})
  end.

(** Modelled from the spec: step 2c of the missing builder, the parents in
    order.  A parent that
    has a slot keeps it; otherwise the first parent is reserved in the
    column of the commit, with its color, and every other parent in a
    newly allocated column (the lowest free one, with a fresh color: the
    specification names neither). *)
Fixpoint reserve (col : nat) (clr : N) (first : bool) (ps : list jsstring)
    (st : lane_state) : lane_state :=
  match ps with
  | [] => st
  | p :: ps' =>
      let st' :=
        match find_slot p (lanes st) with
        | Some _ => st
        | None =>
            if first then
              {| lanes := set_slot col (Some (p, clr)) (lanes st);
                 next_color := next_color st |}
            else
              {| lanes := set_slot (first_free (lanes st))
                            (Some (p, (next_color st mod PALETTE)%N))
                            (lanes st);
                 next_color := (next_color st + 1)%N |}
        end in
      reserve col clr false ps' st'
  end.

(** Modelled from the spec: the single forward pass of the missing
    builder; the row is the index in the input. *)
Fixpoint build_from (r : nat) (cs : list Commit) (st : lane_state)
  : list PositionedCommit :=
  match cs with
  | [] => []
  | c :: cs' =>
      let '(col, clr, st1) := place c st in
      let st2 := reserve col clr true (parents c) st1 in
      {| row := r; column := col; colorIndex := clr |}
        :: build_from (S r) cs' st2
  end.

(** Modelled from the spec: [build], the contract of the missing builder;
    the lane state starts empty and is dropped at the end. *)
Definition build (cs : list Commit) : list PositionedCommit :=
  build_from 0 cs {| lanes := []; next_color := 0 |}.

(** *** Histories without merges, and chains *)

(** Every commit has at most one parent. *)
Definition at_most_one_parent (cs : list Commit) : Prop :=
  Forall (λ c, length (parents c) ≤ 1) cs.

(** A single chain: every commit has at most one parent, and the parent of
    a commit that is followed by another is that next commit. *)
Fixpoint chain (cs : list Commit) : Prop :=
  match cs with
  | [] => True
  | c :: cs' =>
      match cs' with
      | [] => length (parents c) ≤ 1
      | c' :: _ => parents c = [] ∨ parents c = [hash c']
      end ∧ chain cs'
  end.

Definition example_commit (h : string) (ps : list string) : Commit :=
  {| hash := str h; parents := str <$> ps; refs := [] |}.

(** Two branch tips on one root: no commit has two parents. *)
Definition fork : list Commit :=
  [ example_commit "a" ["c"]; example_commit "b" ["c"]; example_commit "c" [] ].

(** The scenario of the specification: c2 merges c1 and c0. *)
Definition merge_scenario : list Commit :=
  [ example_commit "c3" ["c2"]; example_commit "c2" ["c1"; "c0"];
    example_commit "c1" []; example_commit "c0" [] ].

(** A chain of three commits, then a root whose parent is outside the
    window. *)
Definition example_chain : list Commit :=
  [ example_commit "c2" ["c1"]; example_commit "c1" ["c0"];
    example_commit "c0" []; example_commit "b1" ["b0"] ].

(** The lanes between two commits of a chain: nothing is reserved, or
    column 0 is reserved for the next commit. *)
Definition lanes_ok (cs : list Commit) (ls : list slot) : Prop :=
  ls = [] ∨ ls = [None] ∨
  ∃ h clr, ls = [Some (h, clr)] ∧
           match cs with
           | c :: _ => hash c = h
           | [] => True
           end.


(** *** Chains stay in column 0 *)

Lemma place_chain (c : Commit) (cs : list Commit) (st : lane_state) :
  lanes_ok (c :: cs) (lanes st) →
  (place c st).1.1 = 0 ∧
  (lanes (place c st).2 = [] ∨ lanes (place c st).2 = [None]).
Proof.
  unfold place, find_slot.
  intros [-> | [-> | (h & clr & -> & Hh)]]; simpl.
  - by split; [| left].
  - by split; [| right].
  - rewrite decide_True by done. simpl. by split; [| right].
Qed.

Lemma reserve_chain (clr : N) (ps : list jsstring) (st : lane_state)
    (cs : list Commit) :
  lanes st = [] ∨ lanes st = [None] →
  match cs with
  | [] => length ps ≤ 1
  | c' :: _ => ps = [] ∨ ps = [hash c']
  end →
  lanes_ok cs (lanes (reserve 0 clr true ps st)).
Proof.
  intros Hst Hps. unfold lanes_ok.
  destruct ps as [|p [|p' ps]].
  - simpl. destruct Hst as [-> | ->]; auto.
  - right. right. exists p, clr. split.
    + simpl. destruct Hst as [-> | ->]; reflexivity.
    + destruct cs as [|c' cs]; [done |].
      destruct Hps as [Hps | Hps]; [done | by injection Hps].
  - destruct cs as [|c' cs]; [simpl in Hps; lia |].
    destruct Hps as [Hps | Hps]; discriminate.
Qed.

Lemma build_from_chain (cs : list Commit) (r : nat) (st : lane_state) :
  chain cs → lanes_ok cs (lanes st) →
  Forall (λ pc, column pc = 0) (build_from r cs st).
Proof.
  revert r st. induction cs as [|c cs IH]; intros r st Hch Hok.
  - constructor.
  - destruct Hch as [Hps Hch]. cbn [build_from].
    destruct (place_chain c cs st Hok) as [Hcol Hfree].
    destruct (place c st) as [[col clr] st1]. simpl in Hcol, Hfree. subst col.
    constructor; [done |].
    apply IH; [done |]. by apply reserve_chain.
Qed.

(** C8, as the builder of the specification has it.  On a single chain
    (every commit has at most one parent, and the parent of a commit that
    is followed by another is that next commit) the builder returns one
    positioned commit per commit, all in column 0. *)
Theorem chain_in_column_0 (cs : list Commit) :
  chain cs →
  length (build cs) = length cs ∧
  Forall (λ pc, column pc = 0) (build cs).
Proof.
  intros Hch. split.
  - unfold build. generalize 0 at 1. generalize (mkLanes [] 0).
    induction cs as [|c cs IH]; intros st r; [done |].
    cbn [build_from]. destruct (place c st) as [[col clr] st1]. simpl.
    f_equal. apply IH. by destruct Hch.
  - apply build_from_chain; [done | by left].
Qed.

Lemma chain_in_column_0_witness :
  chain example_chain ∧
  length (build example_chain) = 4 ∧
  Forall (λ pc, column pc = 0) (build example_chain).
Proof.
  assert (chain example_chain) as H by (simpl; repeat split; auto).
  split; [exact H |]. apply (chain_in_column_0 example_chain H).
Defined.

(** C8, a history without merges that leaves column 0: in [fork] no commit
    has more than one parent, and the second branch tip is placed in
    column 1, because column 0 is reserved for the parent of the first. *)
Lemma fork_leaves_column_0 :
  at_most_one_parent fork ∧ column <$> build fork = [0; 1; 0].
Proof.
  split; [| reflexivity].
  repeat constructor.
Qed.

End Builder.

(** ** More of the diff view: counts, rows and expanded files *)

Module DiffView.
Import JsString Regex JsNumber Diff.

(** [getDiffStats] of [RemoteManager]: the same two counters, over the
    lines of a whole diff text. *)
Definition getDiffStatsText (diff : jsstring) : N * N :=
  fold_left stats_step (split NL diff) (0%N, 0%N).

(** The sum of the statistics the headers of the files show. *)
Definition files_stats (fs : list DiffFile) : N * N :=
  fold_left (λ acc f, ((acc.1 + (getDiffStats (lines f)).1)%N,
                       (acc.2 + (getDiffStats (lines f)).2)%N))
            fs (0%N, 0%N).

(** The line a row shows in its last column. *)
Definition row_line (r : row) : jsstring :=
  match r with
  | HunkRow line => line
  | MetaRow line => line
  | NumRow _ _ _ line => line
  end.

(** The counters [oldLine] and [newLine] after the callback has run on the
    lines [ls]. *)
Definition counters_after (st : counters) (ls : list jsstring) : counters :=
  fold_left (λ st line, (number_step st line).1) ls st.

(** The footer below the rows: the number of lines that are not shown,
    when there are more than a hundred. *)
Definition hidden_lines (f : DiffFile) : option nat :=
  if decide (100 < length (lines f)) then Some (length (lines f) - 100)
  else None.

(** [expandedFiles], a [Set] of file names of which the view only asks
    [has]; [toggleFileExpanded] copies it and flips one name. *)
Definition toggleFileExpanded (fileName : jsstring) (prev : gset jsstring)
  : gset jsstring :=
  if decide (fileName ∈ prev) then prev ∖ {[fileName]}
  else prev ∪ {[fileName]}.

(** The button that expands every file:
    [new Set(parseDiffByFile(commitDiff).map(f => f.name))]. *)
Definition expandAll (commitDiff : jsstring) : gset jsstring :=
  list_to_set (name <$> parseDiffByFile commitDiff).

(** [expandedFiles.has(file.name)] *)
Definition isExpanded (expandedFiles : gset jsstring) (f : DiffFile) : bool :=
  bool_decide (name f ∈ expandedFiles).

(** The lines numbered in the old gutter, and in the new one, among the
    lines that are no hunk header: every line that is not shown without
    numbers, but the additions for the old gutter and the removals for the
    new one. *)
Definition in_old_gutter (l : jsstring) : Prop :=
  ¬ meta_line l ∧ ¬ str "+" `prefix_of` l.

Definition in_new_gutter (l : jsstring) : Prop :=
  ¬ meta_line l ∧ (str "+" `prefix_of` l ∨ ¬ str "-" `prefix_of` l).

#[global] Instance meta_line_dec l : Decision (meta_line l).
Proof. unfold meta_line. apply _. Defined.

#[global] Instance hunk_line_dec l : Decision (hunk_line l).
Proof. unfold hunk_line. apply _. Defined.

#[global] Instance in_old_gutter_dec l : Decision (in_old_gutter l).
Proof. unfold in_old_gutter. apply _. Defined.

#[global] Instance in_new_gutter_dec l : Decision (in_new_gutter l).
Proof. unfold in_new_gutter. apply _. Defined.

(** *** The number of files *)

Lemma filter_boundary_sections (secs : list (jsstring * list jsstring)) :
  Forall well_formed_section secs →
  length (filter boundary_line (concat (section_lines <$> secs))) = length secs.
Proof.
  induction 1 as [|[b body] secs [Hb Hbody] _ IH]; [done |].
  simpl in Hb, Hbody.
  change (concat (section_lines <$> (b, body) :: secs))
    with (b :: body ++ concat (section_lines <$> secs)).
  rewrite filter_cons, decide_True by done.
  rewrite filter_app, length_cons, length_app, IH.
  replace (filter boundary_line body) with (@nil jsstring); [done |].
  symmetry. clear -Hbody.
  induction Hbody as [|l body Hl _ IH]; [done |].
  by rewrite filter_cons, decide_False.
Qed.

Lemma filter_boundary_prelude (pre : list jsstring) :
  Forall (λ l, ¬ boundary_line l) pre → filter boundary_line pre = [].
Proof.
  induction 1 as [|l pre Hl _ IH]; [done |].
  by rewrite filter_cons, decide_False.
Qed.

(** X1. The number of files of a diff text is the number of its lines that
    begin with "diff --git". *)
Theorem file_count_is_boundary_count (diff : jsstring) :
  length (parseDiffByFile diff) =
  length (filter boundary_line (split NL diff)).
Proof.
  unfold parseDiffByFile.
  destruct (lines_sections (split NL diff)) as (pre & secs & -> & Hpre & Hsecs).
  rewrite parse_lines_sections by done.
  rewrite filter_app, filter_boundary_prelude, app_nil_l by done.
  by rewrite length_fmap, filter_boundary_sections.
Qed.

(** *** Statistics *)

Lemma added_not_removed (l : jsstring) : added_line l → ¬ removed_line l.
Proof.
  intros [Ha _] [Hr _].
  pose proof (prefix_clash _ _ _ Ha Hr ltac:(by eexists) ltac:(by eexists)) as H.
  discriminate H.
Qed.

Lemma counts_bound (ls : list jsstring) :
  length (filter added_line ls) + length (filter removed_line ls) ≤ length ls.
Proof.
  induction ls as [|l ls IH]; [done |].
  rewrite !filter_cons. pose proof (added_not_removed l).
  repeat case_decide; simpl; try lia. tauto.
Qed.

Lemma getDiffStats_eq (ls : list jsstring) :
  getDiffStats ls =
  (N.of_nat (length (filter added_line ls)),
   N.of_nat (length (filter removed_line ls))).
Proof. unfold getDiffStats. by rewrite stats_fold. Qed.

(** X2. [getDiffStats] counts no line twice: the two counters together
    never exceed the number of lines. *)
Theorem stats_within_lines (ls : list jsstring) :
  ((getDiffStats ls).1 + (getDiffStats ls).2 ≤ N.of_nat (length ls))%N.
Proof.
  rewrite getDiffStats_eq. simpl.
  pose proof (counts_bound ls). lia.
Qed.

Lemma files_stats_fold (fs : list DiffFile) (a r : N) :
  fold_left (λ acc f, ((acc.1 + (getDiffStats (lines f)).1)%N,
                       (acc.2 + (getDiffStats (lines f)).2)%N))
            fs (a, r) =
  ((a + N.of_nat (length (filter added_line (concat (lines <$> fs)))))%N,
   (r + N.of_nat (length (filter removed_line (concat (lines <$> fs)))))%N).
Proof.
  revert a r. induction fs as [|f fs IH]; intros a r.
  - simpl. by rewrite !N.add_0_r.
  - cbn [fold_left]. rewrite getDiffStats_eq. cbn [fst snd].
    rewrite IH. rewrite fmap_cons. cbn [concat].
    rewrite !filter_app, !length_app, !Nat2N.inj_add. f_equal; lia.
Qed.

Lemma boundary_not_counted (b : jsstring) :
  boundary_line b → ¬ added_line b ∧ ¬ removed_line b.
Proof.
  intros Hb. split; intros [H _];
    pose proof (prefix_clash _ _ _ Hb H ltac:(by eexists) ltac:(by eexists)) as E;
    discriminate E.
Qed.

Lemma sections_counts (P : jsstring → Prop) `{∀ l, Decision (P l)}
    (secs : list (jsstring * list jsstring)) :
  (∀ b, boundary_line b → ¬ P b) →
  Forall well_formed_section secs →
  filter P (concat (section_lines <$> secs)) =
  filter P (concat (lines <$> (section_file <$> secs))).
Proof.
  intros HP. induction 1 as [|[b body] secs [Hb Hbody] _ IH]; [done |].
  simpl in Hb.
  change (concat (section_lines <$> (b, body) :: secs))
    with (b :: body ++ concat (section_lines <$> secs)).
  rewrite filter_cons, decide_False by by apply HP.
  simpl. by rewrite !filter_app, IH.
Qed.

Lemma split_first_line (p k : jsstring) :
  NL ∉ p → ∃ l ls, split NL (p ++ k) = (p ++ l) :: ls.
Proof.
  induction p as [|c p IH]; intros Hp.
  - simpl. destruct (split NL k) as [|l ls] eqn:E; [| by exists l, ls].
    exfalso. revert E. clear. destruct k as [|c k]; simpl; [done |].
    destruct (c =? NL)%N; [done |]. by destruct (split NL k).
  - apply not_elem_of_cons in Hp as [Hc Hp].
    destruct (IH Hp) as (l & ls & E). simpl.
    destruct (N.eqb_spec c NL) as [->|_]; [done |].
    rewrite E. by exists l, ls.
Qed.

(** X3. For a diff text that begins with "diff --git", the statistics of
    the whole text, as [RemoteManager] counts them, are the sums of the
    statistics of its files, as the graph view counts them. *)
Theorem text_stats_sum_of_files (diff : jsstring) :
  str "diff --git" `prefix_of` diff →
  getDiffStatsText diff = files_stats (parseDiffByFile diff).
Proof.
  intros [k ->]. unfold getDiffStatsText, files_stats, parseDiffByFile.
  destruct (split_first_line (str "diff --git") k) as (l & ls & E);
    [compute_done |].
  destruct (lines_sections (split NL (str "diff --git" ++ k)))
    as (pre & secs & E' & Hpre & Hsecs).
  assert (pre = []) as ->.
  { destruct pre as [|x pre]; [done |]. exfalso.
    rewrite E in E'. injection E' as <- _.
    apply Forall_cons in Hpre as [Hx _]. apply Hx. by exists l. }
  rewrite E'. rewrite parse_lines_sections by done.
  rewrite app_nil_l, stats_fold, files_stats_fold.
  rewrite (sections_counts added_line), (sections_counts removed_line); try done.
  - intros b Hb. by apply boundary_not_counted.
  - intros b Hb. by apply boundary_not_counted.
Qed.

Lemma text_stats_sum_of_files_witness :
  getDiffStatsText (join NL example_lines) = (1%N, 1%N) ∧
  files_stats (parseDiffByFile (join NL example_lines)) = (1%N, 1%N).
Proof.
  assert (getDiffStatsText (join NL example_lines) =
          files_stats (parseDiffByFile (join NL example_lines))) as E.
  { apply text_stats_sum_of_files. by apply startsWith_prefix_of. }
  split; [rewrite E |]; by vm_compute.
Defined.


(** *** Rows *)

Lemma row_line_step (st : counters) (l : jsstring) :
  row_line (number_step st l).2 = l.
Proof.
  unfold number_step. destruct st as [o n].
  repeat match goal with
         | |- context [if ?b then _ else _] => destruct b
         end; reflexivity.
Qed.

Lemma rows_lines (st : counters) (ls : list jsstring) :
  row_line <$> number_rows st ls = ls.
Proof.
  revert st. induction ls as [|l ls IH]; intros st; [done |].
  cbn [number_rows]. pose proof (row_line_step st l) as E.
  destruct (number_step st l) as [st' r]. simpl in *. by rewrite E, IH.
Qed.

(** X4. The expanded view shows the first hundred lines of a file, each
    once and in order, one row per line; the footer counts the lines that
    are left, so that rows and hidden lines add up to the lines of the
    file. *)
Theorem rows_are_first_hundred_lines (f : DiffFile) :
  row_line <$> render_file_lines f = take 100 (lines f) ∧
  length (render_file_lines f) = length (lines f) `min` 100 ∧
  length (render_file_lines f) + default 0 (hidden_lines f) =
    length (lines f) ∧
  (hidden_lines f = None ↔ length (lines f) ≤ 100).
Proof.
  assert (row_line <$> render_file_lines f = take 100 (lines f)) as E
    by apply rows_lines.
  assert (length (render_file_lines f) = length (lines f) `min` 100) as L.
  { rewrite <- (length_fmap row_line), E, length_take. lia. }
  split; [done |]. split; [done |]. rewrite L. unfold hidden_lines.
  case_decide as Hd; simpl.
  - split; [lia |]. split; [done | lia].
  - split; [lia |]. split; [lia | done].
Qed.

(** *** Counters *)

Lemma number_step_counters (o n : number) (l : jsstring) :
  ¬ hunk_line l →
  (number_step (o, n) l).1 =
  (if decide (in_old_gutter l) then plus_one o else o,
   if decide (in_new_gutter l) then plus_one n else n).
Proof.
  intros Hh. unfold number_step, in_old_gutter, in_new_gutter, meta_line.
  test_prefix "@@"; [done |].
  test_prefix "index"; [simpl; by rewrite !decide_False by tauto |].
  test_prefix "---"; [simpl; by rewrite !decide_False by tauto |].
  test_prefix "+++"; [simpl; by rewrite !decide_False by tauto |].
  cbn [orb].
  test_prefix "+";
    [simpl; by rewrite decide_False, decide_True by tauto |].
  test_prefix "-";
    [simpl; by rewrite decide_True, decide_False by tauto |].
  simpl. by rewrite !decide_True by tauto.
Qed.

Lemma number_rows_app (st : counters) (ls ls' : list jsstring) :
  number_rows st (ls ++ ls') =
  number_rows st ls ++ number_rows (counters_after st ls) ls'.
Proof.
  revert st. induction ls as [|l ls IH]; intros st; [done |].
  cbn [app number_rows counters_after fold_left].
  destruct (number_step st l) as [st' r]. simpl. by rewrite IH.
Qed.

(** X5. Between two hunk headers, and as long as the counters stay safe
    integers, the old-line counter advances by the number of lines shown
    in the old gutter and the new-line counter by the number of lines
    shown in the new gutter; the rows after a run of lines are numbered
    from the counters the run leaves. *)
Theorem counters_follow_gutters (o n : N) (ls : list jsstring) :
  Forall (λ l, ¬ hunk_line l) ls →
  (o + N.of_nat (length (filter in_old_gutter ls)) ≤ MAX_SAFE_INTEGER)%N →
  (n + N.of_nat (length (filter in_new_gutter ls)) ≤ MAX_SAFE_INTEGER)%N →
  counters_after (Int o, Int n) ls =
    (Int (o + N.of_nat (length (filter in_old_gutter ls))),
     Int (n + N.of_nat (length (filter in_new_gutter ls)))) ∧
  ∀ ls', number_rows (Int o, Int n) (ls ++ ls') =
         number_rows (Int o, Int n) ls ++
         number_rows
           (Int (o + N.of_nat (length (filter in_old_gutter ls))),
            Int (n + N.of_nat (length (filter in_new_gutter ls)))) ls'.
Proof.
  intros H Ho Hn.
  assert (counters_after (Int o, Int n) ls =
    (Int (o + N.of_nat (length (filter in_old_gutter ls))),
     Int (n + N.of_nat (length (filter in_new_gutter ls))))) as E.
  { revert o n Ho Hn. induction H as [|l ls Hl _ IH]; intros o n Ho Hn.
    - simpl. by rewrite !N.add_0_r.
    - unfold counters_after in *. cbn [fold_left].
      rewrite number_step_counters by done.
      repeat rewrite filter_cons in Ho. repeat rewrite filter_cons in Hn.
      repeat rewrite filter_cons.
      destruct (decide (in_old_gutter l)), (decide (in_new_gutter l));
        cbn [length] in Ho, Hn |- *;
        rewrite ?plus_one_safe by lia; rewrite IH by lia;
        do 2 f_equal; lia. }
  split; [done |]. intros ls'. by rewrite number_rows_app, E.
Qed.

Lemma counters_follow_gutters_witness :
  counters_after (Int 12, Int 15)
    [str " keep"; str "-old"; str "+new"; str "+more"; str " keep"] =
  (Int 15, Int 19).
Proof.
  refine (proj1 (counters_follow_gutters 12 15 _ _ _ _));
    [| by vm_compute | by vm_compute].
  repeat constructor; by apply startsWith_false.
Defined.

(** *** Expanded files *)

(** X6. Toggling a file flips whether its name is expanded and touches no
    other name, so toggling twice restores the set; and after the button
    that expands everything, every file of the diff is expanded. *)
Theorem toggle_flips_one_name (fileName : jsstring) (prev : gset jsstring) :
  (fileName ∈ toggleFileExpanded fileName prev ↔ fileName ∉ prev) ∧
  (∀ other, other ≠ fileName →
     (other ∈ toggleFileExpanded fileName prev ↔ other ∈ prev)) ∧
  toggleFileExpanded fileName (toggleFileExpanded fileName prev) = prev ∧
  (∀ diff f, f ∈ parseDiffByFile diff → isExpanded (expandAll diff) f = true).
Proof.
  assert (∀ x, x ∈ toggleFileExpanded fileName prev ↔
               (x = fileName ∧ x ∉ prev) ∨ (x ≠ fileName ∧ x ∈ prev)) as H.
  { intros x. unfold toggleFileExpanded.
    destruct (decide (x = fileName)) as [->|Hx]; case_decide;
      rewrite ?elem_of_difference, ?elem_of_union, ?elem_of_singleton;
      intuition congruence. }
  split; [rewrite H; intuition congruence |].
  split; [intros other Ho; rewrite H; intuition congruence |].
  split.
  - apply set_eq. intros x.
    assert (∀ s, x ∈ toggleFileExpanded fileName s ↔
                 (x = fileName ∧ x ∉ s) ∨ (x ≠ fileName ∧ x ∈ s)) as H'.
    { intros s. unfold toggleFileExpanded.
      destruct (decide (x = fileName)) as [->|Hx]; case_decide;
        rewrite ?elem_of_difference, ?elem_of_union, ?elem_of_singleton;
        intuition congruence. }
    rewrite H', H'. destruct (decide (x = fileName)), (decide (x ∈ prev));
      intuition congruence.
  - intros diff f Hf. unfold isExpanded, expandAll.
    apply bool_decide_eq_true. apply elem_of_list_to_set.
    apply list_elem_of_fmap. by exists f.
Qed.

End DiffView.

(** ** More of the graph view: nodes, the drawing area and branch badges *)

Module GraphView.
Import JsString Graph.

(** [Math.max(...commits.map((c) => c.column), 0)] *)
Definition maxColumn (commits : list GraphCommit) : Z :=
  foldr Z.max 0%Z (column <$> commits).

Definition graphWidth (commits : list GraphCommit) : Z :=
  ((maxColumn commits + 1) * COLUMN_WIDTH + GRAPH_PADDING * 2)%Z.

Definition graphHeight (commits : list GraphCommit) : Z :=
  (Z.of_nat (length commits) * ROW_HEIGHT + GRAPH_PADDING * 2)%Z.

(** What [renderNodes] draws for a commit: the circle of radius
    [NODE_RADIUS] at ([cx], [cy]) and, when the commit is the selected one,
    a ring of radius [NODE_RADIUS + 4] around the same centre. *)
Record node : Type := mkNode {
  node_key : jsstring;
  cx : Z;
  cy : Z;
  fill : option jsstring;
  isSelected : bool
}.

Definition RING_RADIUS : Z := (NODE_RADIUS + 4)%Z.

Definition renderNodes (commits : list GraphCommit)
    (selectedCommit : option jsstring) : list node :=
  imap (λ index commit,
          {| node_key := hash commit;
             cx := node_x commit;
             cy := node_y index;
             fill := stroke_of (color commit);
             isSelected := bool_decide (selectedCommit = Some (hash commit)) |})
       commits.

(** The two ends of a connector. *)
Definition conn_from (e : connector) : Z * Z :=
  match e with
  | Line _ x1 y1 _ _ _ => (x1, y1)
  | Path _ x1 y1 _ _ _ _ => (x1, y1)
  end.

Definition conn_to (e : connector) : Z * Z :=
  match e with
  | Line _ _ _ x2 y2 _ => (x2, y2)
  | Path _ _ _ _ x2 y2 _ => (x2, y2)
  end.

(** [s.includes(pat)] *)
Fixpoint includes (s pat : jsstring) : bool :=
  startsWith s pat ||
  match s with
  | [] => false
  | _ :: s' => includes s' pat
  end.

(** [s.replace(pat, rep)] for a string pattern: the first occurrence
    only. *)
Fixpoint replace (s pat rep : jsstring) : jsstring :=
  if startsWith s pat then rep ++ drop (length pat) s
  else match s with
       | [] => []
       | c :: s' => c :: replace s' pat rep
       end.

(** The badge of a branch. *)
Definition isRemote (branch : jsstring) : bool :=
  includes branch (str "origin/") || includes branch (str "remotes/").

Definition displayName (branch : jsstring) : jsstring :=
  replace (replace branch (str "origin/") []) (str "remotes/") [].

(** *** The drawing area *)

Lemma maxColumn_nonneg (commits : list GraphCommit) : (0 ≤ maxColumn commits)%Z.
Proof.
  unfold maxColumn. induction commits as [|c cs IH]; [done |].
  rewrite fmap_cons. cbn [foldr]. lia.
Qed.

Lemma maxColumn_bound (commits : list GraphCommit) (c : GraphCommit) :
  c ∈ commits → (column c ≤ maxColumn commits)%Z.
Proof.
  unfold maxColumn. induction commits as [|c' cs IH]; intros Hc.
  - by apply elem_of_nil in Hc.
  - rewrite fmap_cons. cbn [foldr].
    apply elem_of_cons in Hc as [-> | Hc]; [lia |].
    specialize (IH Hc). lia.
Qed.

(** X7. When no column is negative, every node circle lies inside the
    drawing area of [graphWidth] by [graphHeight]; the ring of the
    selected commit fits as well, but for its left edge in column 0,
    which is 2 units outside. *)
Theorem nodes_inside_drawing (commits : list GraphCommit)
    (selectedCommit : option jsstring) (n : node) :
  Forall (λ c, (0 ≤ column c)%Z) commits →
  n ∈ renderNodes commits selectedCommit →
  (0 ≤ cx n - NODE_RADIUS ∧ cx n + NODE_RADIUS ≤ graphWidth commits ∧
   0 ≤ cy n - NODE_RADIUS ∧ cy n + NODE_RADIUS ≤ graphHeight commits)%Z ∧
  (cx n + RING_RADIUS ≤ graphWidth commits ∧
   0 ≤ cy n - RING_RADIUS ∧ cy n + RING_RADIUS ≤ graphHeight commits)%Z ∧
  ∃ c, c ∈ commits ∧ node_key n = hash c ∧
       (cx n - RING_RADIUS = 16 * column c - 2)%Z.
Proof.
  intros Hcol Hn. unfold renderNodes in Hn.
  apply elem_of_lookup_imap in Hn as (i & c & -> & Hi).
  assert (c ∈ commits) as Hc by (apply list_elem_of_lookup; by exists i).
  pose proof (maxColumn_bound commits c Hc) as Hmax.
  pose proof (proj1 (Forall_forall _ _) Hcol c Hc) as H0.
  apply lookup_lt_Some in Hi.
  unfold graphWidth, graphHeight, node_x, node_y, RING_RADIUS, NODE_RADIUS,
    COLUMN_WIDTH, ROW_HEIGHT, GRAPH_PADDING in *. simpl in *.
  change (24 / 2)%Z with 12%Z.
  split; [lia |]. split; [lia |]. exists c. split; [done |]. split; [done | lia].
Qed.

Lemma nodes_inside_drawing_witness :
  Forall (λ n, (0 ≤ cx n - NODE_RADIUS ∧
                cx n + NODE_RADIUS ≤ graphWidth example_window)%Z)
         (renderNodes example_window (Some (str "c2"))).
Proof.
  apply Forall_forall. intros n Hn.
  destruct (nodes_inside_drawing example_window (Some (str "c2")) n)
    as [H _]; [compute_done | done | tauto].
Defined.


(** *** Connectors and nodes *)

Lemma connect_ends (i : nat) (c : GraphCommit) (h : jsstring) (pi : nat)
    (p : GraphCommit) :
  conn_from (connect i c h pi p) = (node_x c, node_y i) ∧
  conn_to (connect i c h pi p) = (node_x p, node_y pi).
Proof. unfold connect. by destruct (column c =? column p)%Z. Qed.

Lemma connectors_list (commits : list GraphCommit) :
  renderConnections commits =
  Some (concat (imap (λ i c, concat (edges_of commits i c <$> parents c))
                     commits)).
Proof. unfold renderConnections. by rewrite forEach_commits. Qed.

Lemma connector_origin (commits : list GraphCommit) (paths : list connector)
    (e : connector) :
  renderConnections commits = Some paths → e ∈ paths →
  ∃ i c h pi p,
    commits !! i = Some c ∧ h ∈ parents c ∧ parent_at commits h pi p ∧
    e = connect i c h pi p.
Proof.
  rewrite connectors_list. intros [= <-] He.
  apply list_elem_of_In, in_concat in He as (es & Hes & He).
  apply list_elem_of_In, elem_of_lookup_imap in Hes as (i & c & -> & Hi).
  apply in_concat in He as (es' & Hes' & He).
  apply list_elem_of_In, list_elem_of_fmap in Hes' as (h & -> & Hh).
  unfold edges_of in He.
  destruct (commitIndexMap commits !! h) as [pi|] eqn:E; [| done].
  pose proof E as (p & Hp)%commitIndexMap_Some.
  pose proof Hp as (Hpi & _). rewrite Hpi in He.
  destruct He as [<- | []]. by exists i, c, h, pi, p.
Qed.

(** X8. No connector dangles: every connector [renderConnections] returns
    starts at the centre of the node of a commit of the list and ends at
    the centre of the node of the commit that carries one of its parent
    hashes. *)
Theorem connectors_join_nodes (commits : list GraphCommit)
    (selectedCommit : option jsstring) (paths : list connector)
    (e : connector) :
  renderConnections commits = Some paths → e ∈ paths →
  ∃ n1 n2 c,
    n1 ∈ renderNodes commits selectedCommit ∧
    n2 ∈ renderNodes commits selectedCommit ∧
    c ∈ commits ∧ node_key n1 = hash c ∧ node_key n2 ∈ parents c ∧
    conn_from e = (cx n1, cy n1) ∧ conn_to e = (cx n2, cy n2).
Proof.
  intros Hr He.
  destruct (connector_origin commits paths e Hr He)
    as (i & c & h & pi & p & Hi & Hh & (Hpi & Hp & _) & ->).
  destruct (connect_ends i c h pi p) as [E1 E2].
  eexists (mkNode _ _ _ _ _), (mkNode _ _ _ _ _), c.
  split; [apply elem_of_lookup_imap; by exists i, c |].
  split; [apply elem_of_lookup_imap; by exists pi, p |].
  split; [apply list_elem_of_lookup; by exists i |].
  simpl. rewrite Hp. by repeat split.
Qed.

Lemma connectors_join_nodes_witness :
  ∃ n1 n2,
    n1 ∈ renderNodes example_window None ∧
    n2 ∈ renderNodes example_window None ∧
    (cx n1, cy n1) = (6, 42)%Z ∧ (cx n2, cy n2) = (22, 90)%Z.
Proof.
  destruct (connectors_join_nodes example_window None
              [ Line (str "c3-c2") 6 18 6 42 (Some (str "#3b82f6"));
                Line (str "c2-c1") 6 42 6 66 (Some (str "#3b82f6"));
                Path (str "c2-c0") 6 42
                  (S754_finite false 7937594343240499 (-47)) 22 90
                  (Some (str "#3b82f6")) ]
              (Path (str "c2-c0") 6 42
                 (S754_finite false 7937594343240499 (-47)) 22 90
                 (Some (str "#3b82f6"))))
    as (n1 & n2 & c & H1 & H2 & _ & _ & _ & E1 & E2).
  - by vm_compute.
  - rewrite !elem_of_cons. tauto.
  - exists n1, n2. simpl in E1, E2. by rewrite <- E1, <- E2.
Defined.

(** *** How many connectors *)

Lemma edges_of_length (commits : list GraphCommit) (i : nat)
    (c : GraphCommit) (hs : list jsstring) :
  length (concat (edges_of commits i c <$> hs)) =
  length (filter (λ h, h ∈ hash <$> commits) hs).
Proof.
  induction hs as [|h hs IH]; [done |].
  rewrite fmap_cons. cbn [concat]. rewrite length_app, IH, filter_cons.
  unfold edges_of at 1.
  destruct (commitIndexMap commits !! h) as [pi|] eqn:E.
  - apply commitIndexMap_Some in E as (p & Hpi & Hp & _). rewrite Hpi.
    rewrite decide_True; [done |].
    apply list_elem_of_fmap. exists p. split; [done |].
    apply list_elem_of_lookup. by exists pi.
  - apply commitIndexMap_absent in E. rewrite decide_False; [done |].
    intros (p & -> & Hp)%list_elem_of_fmap. by apply (E p).
Qed.

Lemma concat_imap_length {A B} (f : nat → A → list B) (g : A → nat)
    (l : list A) :
  (∀ j a, length (f j a) = g a) →
  length (concat (imap f l)) = sum_list (g <$> l).
Proof.
  revert f. induction l as [|a l IH]; intros f Hf; [done |].
  rewrite imap_cons. cbn [concat]. rewrite length_app, Hf, fmap_cons.
  cbn [sum_list]. f_equal. apply IH. intros j b. apply Hf.
Qed.

(** X9. The number of connectors is the number of parent entries whose
    hash is the hash of a commit of the list: a parent outside the window
    costs exactly its own connector. *)
Theorem connectors_count (commits : list GraphCommit) :
  ∃ paths,
    renderConnections commits = Some paths ∧
    length paths =
      sum_list ((λ c, length (filter (λ h, h ∈ hash <$> commits) (parents c)))
                <$> commits) ∧
    length paths ≤ sum_list ((λ c, length (parents c)) <$> commits).
Proof.
  eexists. split; [apply connectors_list |].
  assert (length (concat (imap (λ i c, concat (edges_of commits i c <$> parents c))
                               commits)) =
          sum_list ((λ c, length (filter (λ h, h ∈ hash <$> commits) (parents c)))
                    <$> commits)) as E.
  { apply concat_imap_length. intros j c. apply edges_of_length. }
  split; [done |]. rewrite E. clear E.
  generalize (hash <$> commits). intros hs.
  induction commits as [|c cs IH]; [done |].
  rewrite !fmap_cons. cbn [sum_list]. cbv beta.
  apply Nat.add_le_mono; [apply length_filter | exact IH].
Qed.

(** *** The index map *)

(** X10. [commitIndexMap] sends the hash of every commit of the list to a
    row that carries this hash, the last one, which is the row of the
    commit itself when hashes are unique; a hash that no commit carries is
    not in the map. *)
Theorem index_map_round_trip (commits : list GraphCommit) :
  (∀ i c, commits !! i = Some c →
     ∃ j c', commitIndexMap commits !! hash c = Some j ∧
             commits !! j = Some c' ∧ hash c' = hash c ∧ i ≤ j ∧
             (NoDup (hash <$> commits) → j = i)) ∧
  (∀ h, h ∉ hash <$> commits → commitIndexMap commits !! h = None) ∧
  (∀ h j, commitIndexMap commits !! h = Some j → j < length commits).
Proof.
  split; [| split].
  - intros i c Hi.
    destruct (parent_in_window commits (hash c) i c Hi eq_refl)
      as (j & c' & Hat & Hle & Hu).
    exists j, c'. pose proof Hat as (Hj & Hh & _).
    split; [apply commitIndexMap_Some; by exists c' |].
    split; [done |]. split; [done |]. split; [done |].
    intros Hnd. by destruct (Hu Hnd).
  - intros h Hh. apply commitIndexMap_absent. intros p Hp Heq. subst h.
    apply Hh. apply list_elem_of_fmap. by exists p.
  - intros h j (p & Hj & _)%commitIndexMap_Some. by eapply lookup_lt_Some.
Qed.


(** *** Branch badges *)

Lemma includes_infix (s pat : jsstring) :
  includes s pat = true ↔ ∃ a b, s = a ++ pat ++ b.
Proof.
  induction s as [|c s IH]; simpl.
  - rewrite orb_false_r, startsWith_prefix_of. split.
    + intros [k Hk]. by exists [], k.
    + intros ([|x a] & b & E); [by exists b | done].
  - rewrite orb_true_iff, startsWith_prefix_of, IH. split.
    + intros [[k Hk] | (a & b & ->)]; [by exists [], k | by exists (c :: a), b].
    + intros ([|x a] & b & E); [left; by exists b |].
      right. injection E as -> ->. by exists a, b.
Qed.

Lemma replace_absent (s pat rep : jsstring) :
  includes s pat = false → replace s pat rep = s.
Proof.
  induction s as [|c s IH]; simpl; intros [H1 H2]%orb_false_iff;
    rewrite H1; [done |]. by rewrite IH.
Qed.

(** The first occurrence is the one replaced. *)
Lemma replace_first (a pat b rep : jsstring) :
  (∀ a1 a2, a = a1 ++ a2 → a2 ≠ [] → ¬ pat `prefix_of` a2 ++ pat ++ b) →
  replace (a ++ pat ++ b) pat rep = a ++ rep ++ b.
Proof.
  induction a as [|c a IH]; intros Hfirst.
  - destruct pat as [|x pat].
    + by destruct b.
    + change (replace ((x :: pat) ++ b) (x :: pat) rep =
              rep ++ b).
      assert (∀ s, replace s (x :: pat) rep =
                   if startsWith s (x :: pat)
                   then rep ++ drop (length (x :: pat)) s
                   else match s with
                        | [] => []
                        | c :: s' => c :: replace s' (x :: pat) rep
                        end) as E by (by intros []).
      rewrite E, startsWith_app. by rewrite drop_app_length.
  - simpl.
    rewrite (proj2 (startsWith_false (c :: a ++ pat ++ b) pat));
      [| by apply (Hfirst [] (c :: a))].
    rewrite IH; [done |].
    intros a1 a2 -> Hne. by apply (Hfirst (c :: a1) a2).
Qed.

Lemma replace_shorter (s pat : jsstring) :
  length (replace s pat []) ≤ length s.
Proof.
  induction s as [|c s IH]; simpl.
  - destruct (startsWith [] pat); simpl; [by rewrite drop_nil | done].
  - destruct (startsWith (c :: s) pat); simpl; [| lia].
    rewrite length_drop. simpl. lia.
Qed.

(** X11. A branch that holds neither "origin/" nor "remotes/" is no remote
    branch and is shown under its own name; the name shown is never longer
    than the name of the branch; and "origin/" at the start of a name that
    holds no other marker is dropped. *)
Theorem badge_of_branch (branch : jsstring) :
  (isRemote branch = false ↔
     ¬ (∃ a b, branch = a ++ str "origin/" ++ b) ∧
     ¬ (∃ a b, branch = a ++ str "remotes/" ++ b)) ∧
  (isRemote branch = false → displayName branch = branch) ∧
  length (displayName branch) ≤ length branch ∧
  (isRemote branch = false →
     isRemote (str "origin/" ++ branch) = true ∧
     displayName (str "origin/" ++ branch) = branch).
Proof.
  unfold isRemote, displayName.
  split; [| split; [| split]].
  - rewrite orb_false_iff. split.
    + intros [H1 H2]. split; intros Hin; apply includes_infix in Hin; congruence.
    + intros [H1 H2].
      split; apply not_true_is_false; by rewrite includes_infix.
  - intros [H1 H2]%orb_false_iff.
    rewrite (replace_absent branch (str "origin/")) by done.
    by rewrite replace_absent.
  - etrans; [apply replace_shorter |]. apply replace_shorter.
  - intros [H1 H2]%orb_false_iff. split.
    + apply orb_true_iff. left. apply includes_infix. by exists [], branch.
    + change (str "origin/" ++ branch) with ([] ++ str "origin/" ++ branch).
      rewrite (replace_first [] (str "origin/") branch []).
      * cbn [app]. by rewrite replace_absent.
      * intros a1 a2 E Hne. symmetry in E. by apply app_eq_nil in E as [_ ->].
Qed.

Lemma badge_of_branch_witness :
  displayName (str "feature/login") = str "feature/login" ∧
  displayName (str "origin/feature/login") = str "feature/login".
Proof.
  split.
  - apply badge_of_branch. by vm_compute.
  - apply (badge_of_branch (str "feature/login")). by vm_compute.
Defined.

End GraphView.

(** ** The repository list of [App] and the store behind it *)

Module Repos.
Import JsString Store.

Definition SLASH : N := 47%N.

(** [x || fallback] on strings: the empty string is falsy. *)
Definition or_else (x fallback : jsstring) : jsstring :=
  match x with
  | [] => fallback
  | _ => x
  end.

(** [s.split('/').pop()]: the array is never empty. *)
Definition last_segment (s : jsstring) : jsstring :=
  List.last (split SLASH s) [].

(** [selected.split('/').pop() || 'unknown'] of [handleAddRepo] and
    [handleInitRepo]. *)
Definition repo_name (selected : jsstring) : jsstring :=
  or_else (last_segment selected) (str "unknown").

(** What the folder dialog [open] resolves to: [null] when it is
    cancelled, a path, or an array of paths. *)
Inductive opened : Type :=
| Cancelled
| Folder (selected : jsstring)
| Folders (selected : list jsstring).

(** The guard [if (selected && typeof selected === 'string')] of
    [handleAddRepo] and [handleInitRepo], and the name derived behind it:
    [null], the empty string and an array do not pass, and then no name is
    derived and nothing is added. *)
Definition chosen_name (selected : opened) : option jsstring :=
  match selected with
  | Folder [] => None
  | Folder s => Some (repo_name s)
  | _ => None
  end.

(** [cloneUrl.split('/').pop()?.replace('.git', '') || 'cloned-repo'] and
    the target path of [handleCloneRepo]. *)
Definition clone_name (cloneUrl : jsstring) : jsstring :=
  or_else (GraphView.replace (last_segment cloneUrl) (str ".git") [])
          (str "cloned-repo").

Definition targetPath (selected repoName : jsstring) : jsstring :=
  selected ++ str "/" ++ repoName.

(** What [handleInitRepo] does to the store once the folder is chosen and
    initialised: it looks the path up itself, in the list the component
    rendered last (taken to be the list of the store), and selects the
    entry, or adds the folder. *)
Definition init_store (uuid now selected : jsstring) (st : LocalReposState)
  : LocalReposState :=
  match find (λ r, bool_decide (path r = selected)) (repos st) with
  | Some existing => selectRepo (Some (id existing)) st
  | None => addRepo uuid now selected (repo_name selected) st
  end.

(** The states reached when [selectRepo] is only called with [null] or
    with the id of an entry of the list, as the rows of [App] do. *)
Inductive listed : LocalReposState → Prop :=
| listed_initial : listed initial
| listed_add st uuid now p n :
    listed st → listed (addRepo uuid now p n st)
| listed_remove st i : listed st → listed (removeRepo i st)
| listed_unselect st : listed st → listed (selectRepo None st)
| listed_select st r :
    listed st → r ∈ repos st → listed (selectRepo (Some (id r)) st).

(** *** Names from paths *)

Lemma split_app (sep : N) (a b : jsstring) :
  split sep (a ++ sep :: b) = split sep a ++ split sep b.
Proof.
  induction a as [|c a IH]; simpl.
  - by rewrite N.eqb_refl.
  - rewrite IH. destruct (c =? sep)%N; [done |].
    pose proof (split_no_sep sep []) as _.
    destruct (split sep a) as [|piece pieces] eqn:E; [| done].
    exfalso. revert E. clear. destruct a as [|x a]; simpl; [done |].
    destruct (x =? sep)%N; [done |]. by destruct (split sep a).
Qed.

Lemma last_app_nonempty {A} (l k : list A) (d : A) :
  k ≠ [] → List.last (l ++ k) d = List.last k d.
Proof.
  intros Hk. induction l as [|x l IH]; [done |].
  simpl. destruct (l ++ k) eqn:E; [| done].
  apply app_eq_nil in E as [_ ->]. done.
Qed.

Lemma last_segment_app (dir base : jsstring) :
  SLASH ∉ base → last_segment (dir ++ SLASH :: base) = base.
Proof.
  intros Hb. unfold last_segment.
  rewrite split_app, (split_no_sep SLASH base) by done.
  by rewrite last_app_nonempty.
Qed.

(** X12. The name of a repository is the part of the chosen path after
    its last slash; a path that ends with a slash gives "unknown", and a
    path without slash is its own name.  When the dialog is cancelled, or
    gives the empty string or an array, the guard stops the handler and no
    name is derived. *)
Theorem repo_name_is_last_segment (dir base : jsstring) :
  SLASH ∉ base →
  (base ≠ [] → chosen_name (Folder (dir ++ str "/" ++ base)) = Some base) ∧
  (base ≠ [] → chosen_name (Folder base) = Some base) ∧
  chosen_name (Folder (dir ++ str "/")) = Some (str "unknown") ∧
  chosen_name (Folder []) = None ∧
  chosen_name Cancelled = None ∧
  (∀ several, chosen_name (Folders several) = None).
Proof.
  intros Hb.
  assert (∀ s, s ≠ [] → chosen_name (Folder s) = Some (repo_name s)) as Hs
    by (by intros [|c s]).
  split; [| split; [| split; [| done]]].
  - intros Hne. rewrite Hs by (by destruct dir).
    unfold repo_name.
    change (dir ++ str "/" ++ base) with (dir ++ SLASH :: base).
    rewrite last_segment_app by done. by destruct base.
  - intros Hne. rewrite Hs by done. unfold repo_name, last_segment.
    rewrite split_no_sep by done. by destruct base.
  - rewrite Hs by (by destruct dir). unfold repo_name.
    change (dir ++ str "/") with (dir ++ SLASH :: []).
    rewrite last_segment_app; [done | apply not_elem_of_nil].
Qed.

Lemma repo_name_is_last_segment_witness :
  chosen_name (Folder (str "/home/me/projects/git-manager")) =
  Some (str "git-manager").
Proof.
  apply (repo_name_is_last_segment (str "/home/me/projects") (str "git-manager"));
    [compute_done | done].
Defined.

Lemma dot_git_first (name a1 a2 : jsstring) :
  GraphView.includes name (str ".git") = false →
  name = a1 ++ a2 → a2 ≠ [] →
  ¬ str ".git" `prefix_of` a2 ++ str ".git" ++ [].
Proof.
  intros Hinc -> Hne [k Hk].
  change (str ".git") with [46; 103; 105; 116]%N in *.
  destruct a2 as [|x [|y [|z [|w a2]]]]; [done | | | |]; simplify_eq/=.
  apply not_true_iff_false in Hinc. apply Hinc.
  apply GraphView.includes_infix. by exists a1, a2.
Qed.

(** X13. For a clone URL that ends in [/name.git], where [name] is not
    empty and holds neither a slash nor ".git", the repository is named
    [name] and cloned to [selected/name]; without the ending ".git" the
    name is the last segment as it is. *)
Theorem clone_name_drops_dot_git (url name selected : jsstring) :
  SLASH ∉ name → name ≠ [] →
  GraphView.includes name (str ".git") = false →
  clone_name (url ++ str "/" ++ name ++ str ".git") = name ∧
  clone_name (url ++ str "/" ++ name) = name ∧
  targetPath selected (clone_name (url ++ str "/" ++ name ++ str ".git")) =
    selected ++ str "/" ++ name.
Proof.
  intros Hs Hne Hinc.
  assert (clone_name (url ++ str "/" ++ name ++ str ".git") = name) as E.
  { unfold clone_name.
    change (url ++ str "/" ++ name ++ str ".git")
      with (url ++ SLASH :: (name ++ str ".git")).
    rewrite last_segment_app.
    - rewrite <- (app_nil_r (str ".git")) at 1.
      rewrite GraphView.replace_first.
      + rewrite !app_nil_r. by destruct name.
      + intros a1 a2. by apply dot_git_first.
    - rewrite elem_of_app. intros [H | H]; [done |]. revert H. compute_done. }
  split; [done |]. split; [| unfold targetPath; by rewrite E].
  unfold clone_name.
  change (url ++ str "/" ++ name) with (url ++ SLASH :: name).
  rewrite last_segment_app by done.
  rewrite GraphView.replace_absent by done. by destruct name.
Qed.

Lemma clone_name_drops_dot_git_witness :
  clone_name (str "https://github.com/HyunjoonKwak/git-manager.git") =
  str "git-manager".
Proof.
  apply (clone_name_drops_dot_git (str "https://github.com/HyunjoonKwak")
           (str "git-manager") []); [compute_done | done | by vm_compute].
Defined.


(** *** Adding, initialising and removing *)

Lemma addRepo_cases (uuid now p n : jsstring) (st : LocalReposState) :
  (∃ existing, existing ∈ repos st ∧ path existing = p ∧
     addRepo uuid now p n st =
       {| repos := repos st; selectedRepoId := Some (id existing) |}) ∨
  ((p ∉ path <$> repos st) ∧
   addRepo uuid now p n st =
     {| repos := repos st ++ [mkLocalRepo uuid p n now];
        selectedRepoId := Some uuid |}).
Proof.
  unfold addRepo.
  destruct (find _ (repos st)) as [existing|] eqn:E.
  - left. apply find_path_Some in E as [Hin Hp]. by exists existing.
  - right. by apply find_path_None in E.
Qed.

(** X14. After [addRepo] the selected id is the id of an entry with the
    given path; the entries that were there are kept, in their order, and
    at most one entry is added, at the end. *)
Theorem addRepo_selects_path (uuid now p n : jsstring) (st : LocalReposState) :
  (∃ r, r ∈ repos (addRepo uuid now p n st) ∧ path r = p ∧
        selectedRepoId (addRepo uuid now p n st) = Some (id r)) ∧
  repos st `prefix_of` repos (addRepo uuid now p n st) ∧
  (p ∉ path <$> repos st →
     repos (addRepo uuid now p n st) =
       repos st ++ [mkLocalRepo uuid p n now]) ∧
  (p ∈ path <$> repos st → repos (addRepo uuid now p n st) = repos st).
Proof.
  destruct (addRepo_cases uuid now p n st)
    as [(existing & Hin & Hp & ->) | (Hp & ->)]; simpl.
  - split; [by exists existing |]. split; [done |]. split; [| done].
    intros Hn. exfalso. apply Hn. apply list_elem_of_fmap. by exists existing.
  - split.
    + exists (mkLocalRepo uuid p n now). split; [| done].
      apply elem_of_app. right. by left.
    + split; [by eexists |]. split; [done | by intros H].
Qed.

(** X15. [handleInitRepo] leaves the store as [addRepo] does, whichever of
    its two branches runs: from a reachable state, exactly one entry has
    the chosen path afterwards, and it is the selected one. *)
Theorem init_store_selects_folder (uuid now selected : jsstring)
    (st : LocalReposState) :
  reachable st →
  init_store uuid now selected st =
    addRepo uuid now selected (repo_name selected) st ∧
  NoDup (path <$> repos (init_store uuid now selected st)) ∧
  ∃ r, r ∈ repos (init_store uuid now selected st) ∧ path r = selected ∧
       selectedRepoId (init_store uuid now selected st) = Some (id r) ∧
       ∀ r', r' ∈ repos (init_store uuid now selected st) →
             path r' = selected → r' = r.
Proof.
  intros Hst.
  assert (init_store uuid now selected st =
          addRepo uuid now selected (repo_name selected) st) as E.
  { unfold init_store, addRepo. by destruct (find _ (repos st)). }
  rewrite E. split; [done |].
  assert (NoDup (path <$> repos (addRepo uuid now selected
                                   (repo_name selected) st))) as Hnd.
  { apply (run_call_unique st (AddRepo uuid now selected (repo_name selected))).
    by apply reachable_unique. }
  split; [done |].
  destruct (addRepo_selects_path uuid now selected (repo_name selected) st)
    as [(r & Hr & Hp & Hs) _].
  exists r. split; [done |]. split; [done |]. split; [done |].
  intros r' Hr' Hp'.
  apply list_elem_of_lookup in Hr as [i Hi].
  apply list_elem_of_lookup in Hr' as [j Hj].
  assert (j = i) as ->; [| congruence].
  apply (NoDup_lookup _ j i selected Hnd); rewrite list_lookup_fmap;
    [rewrite Hj | rewrite Hi]; simpl; congruence.
Qed.

Lemma init_store_selects_folder_witness :
  selectedRepoId (init_store (str "id-9") (str "t9") (str "/b") example_state) =
  Some (str "id-2").
Proof.
  assert (reachable example_state) as H.
  { unfold example_state. do 3 apply reachable_call. apply reachable_initial. }
  rewrite (proj1 (init_store_selects_folder (str "id-9") (str "t9")
                    (str "/b") example_state H)).
  by vm_compute.
Defined.

Lemma filter_all {A} (P : A → Prop) `{∀ x, Decision (P x)} (l : list A) :
  (∀ x, x ∈ l → P x) → filter P l = l.
Proof.
  induction l as [|x l IH]; intros H'; [done |].
  rewrite filter_cons, decide_True by (apply H'; by left).
  f_equal. apply IH. intros y Hy. apply H'. by right.
Qed.

(** X16. [removeRepo] with an id that no entry has, and that is not the
    selected one, changes nothing; and removing the entry [addRepo] has
    just added, under a fresh id, gives back the list as it was, with
    nothing selected. *)
Theorem removeRepo_missing_and_undo (i : jsstring) (st : LocalReposState) :
  (∀ r, r ∈ repos st → id r ≠ i) →
  (selectedRepoId st ≠ Some i → removeRepo i st = st) ∧
  (∀ now p n, p ∉ path <$> repos st →
     removeRepo i (addRepo i now p n st) =
       {| repos := repos st; selectedRepoId := None |}) ∧
  (∀ r, r ∈ repos (removeRepo i st) ↔ r ∈ repos st).
Proof.
  intros Hi. split; [| split].
  - intros Hs. unfold removeRepo. rewrite filter_all by done.
    rewrite decide_False by done. by destruct st.
  - intros now p n Hp.
    destruct (addRepo_cases i now p n st) as [(e & He & <- & _) | (_ & ->)].
    + exfalso. apply Hp. apply list_elem_of_fmap. by exists e.
    + unfold removeRepo. simpl. rewrite decide_True by done.
      rewrite filter_app, filter_all by done.
      rewrite filter_cons, decide_False by (simpl; tauto).
      by rewrite filter_nil, app_nil_r.
  - intros r. unfold removeRepo. simpl. rewrite list_elem_of_filter.
    split; [tauto |]. intros Hr. split; [by apply Hi | done].
Qed.

Lemma removeRepo_missing_and_undo_witness :
  removeRepo (str "id-7") example_state = example_state.
Proof.
  apply (removeRepo_missing_and_undo (str "id-7") example_state).
  - intros r Hr. revert r Hr. apply Forall_forall. compute_done.
  - by vm_compute.
Defined.

(** *** The selection *)

Lemma getSelectedRepo_None (st : LocalReposState) :
  getSelectedRepo st = None ↔
  ∀ r, r ∈ repos st → selectedRepoId st ≠ Some (id r).
Proof.
  unfold getSelectedRepo. split.
  - intros H r Hr Hs. apply list_elem_of_In in Hr.
    pose proof (find_none _ _ H r Hr) as Hf. simpl in Hf.
    by apply bool_decide_eq_false in Hf.
  - intros H. destruct (find _ (repos st)) as [r|] eqn:E; [| done].
    apply find_some in E as [Hin Hr]. apply list_elem_of_In in Hin.
    apply bool_decide_eq_true in Hr. by destruct (H r Hin).
Qed.

Lemma listed_selection (st : LocalReposState) :
  listed st →
  selectedRepoId st = None ∨
  ∃ r, r ∈ repos st ∧ selectedRepoId st = Some (id r).
Proof.
  induction 1 as [|st uuid now p n _ IH|st i _ IH|st _ IH|st r _ IH Hr].
  - by left.
  - right. destruct (addRepo_selects_path uuid now p n st)
      as [(r & Hr & _ & Hs) _]. by exists r.
  - unfold removeRepo. simpl. case_decide as Hs; [by left |].
    destruct IH as [IH | (r & Hr & IH)]; [by left |].
    right. exists r. split; [| done].
    apply list_elem_of_filter. split; [| done]. congruence.
  - by left.
  - right. by exists r.
Qed.

(** X17. As long as [selectRepo] is called with [null] or with the id of an
    entry of the list, the selection never dangles: [getSelectedRepo]
    returns [null] only when nothing is selected, and otherwise an entry
    of the list with the selected id.  [selectRepo] itself does not check:
    with an id that no entry has, something is selected and
    [getSelectedRepo] returns [null]. *)
Theorem selection_never_dangles (st : LocalReposState) :
  listed st →
  (getSelectedRepo st = None ↔ selectedRepoId st = None) ∧
  (∀ r, getSelectedRepo st = Some r →
        r ∈ repos st ∧ selectedRepoId st = Some (id r)) ∧
  (∀ i, (∀ r, r ∈ repos st → id r ≠ i) →
        getSelectedRepo (selectRepo (Some i) st) = None ∧
        selectedRepoId (selectRepo (Some i) st) = Some i).
Proof.
  intros Hst. split; [| split].
  - rewrite getSelectedRepo_None. split.
    + intros H. destruct (listed_selection st Hst) as [Hs | (r & Hr & Hs)];
        [done | by destruct (H r Hr)].
    + intros -> r _. done.
  - intros r Hr. unfold getSelectedRepo in Hr.
    apply find_some in Hr as [Hin Hr]. apply list_elem_of_In in Hin.
    by apply bool_decide_eq_true in Hr.
  - intros i Hi. split; [| done]. apply getSelectedRepo_None.
    simpl. intros r Hr [= ->]. by apply (Hi r).
Qed.

Lemma selection_never_dangles_witness :
  getSelectedRepo (removeRepo (str "id-2") example_state) =
  Some (mkLocalRepo (str "id-1") (str "/a") (str "a") (str "t1")) ∧
  selectedRepoId (removeRepo (str "id-1") example_state) = None.
Proof.
  split; [by vm_compute |].
  apply (selection_never_dangles (removeRepo (str "id-1") example_state)).
  - apply listed_remove. unfold example_state, run_call.
    do 3 apply listed_add. apply listed_initial.
  - by vm_compute.
Defined.

End Repos.

(** ** More of the handlers: failures, cancelled dialogs and trimmed names *)

Module HandlersMore.
Import JsString Handlers.

(** A string [trim] has nothing left to remove from. *)
Definition trimmed (s : jsstring) : Prop :=
  (∀ c, head s = Some c → is_space c = false) ∧
  (∀ c, last s = Some c → is_space c = false).

(** The user gave up: the prompt was cancelled or answered with blanks
    only, or the confirmation was declined. *)
Definition gave_up (op : operation) (e : env) : Prop :=
  match op with
  | CreateBranch _ | CreateTag _ | RenameBranch _ =>
      match prompt_answer e with
      | None => True
      | Some answer => trim answer = []
      end
  | ResetTo _ hard | DeleteBranch _ _ => confirm_answer e = false
  | _ => False
  end.

(** *** Failures and cancelled dialogs *)

Lemma try_invoke_failed e cmd args after :
  invoke_ok e = false →
  try_invoke e cmd args after = [Invoke cmd args; ToastError].
Proof. intros H. unfold try_invoke. by rewrite H. Qed.

(** X18. When the backend rejects the operation, the handler shows the
    error and refreshes nothing: neither [fetchGraph] nor [onRefresh] is
    called, and no success is reported; this holds for each of the twelve
    operations.  And no handler calls the backend more than once. *)
Theorem failure_refreshes_nothing (repoPath : jsstring) (op : operation)
    (e : env) :
  invoke_ok e = false →
  (dispatch repoPath op e = [] ∨
   ∃ cmd args, dispatch repoPath op e = [Invoke cmd args; ToastError]) ∧
  (CallFetchGraph ∉ dispatch repoPath op e) ∧
  (CallOnRefresh ∉ dispatch repoPath op e) ∧
  (ToastSuccess ∉ dispatch repoPath op e).
Proof.
  intros He.
  assert (dispatch repoPath op e = [] ∨
          ∃ cmd args, dispatch repoPath op e = [Invoke cmd args; ToastError])
    as H.
  { destruct op; simpl;
      unfold handleCheckout, handleCreateBranch, handleResetTo,
        handleCreateTag, handleCherryPick, handleRevert, handleStashSave,
        handleStashPop, handleMergeBranch, handleRebase, handleDeleteBranch,
        handleRenameBranch;
      repeat match goal with
             | |- context [match ?x with _ => _ end] =>
                 lazymatch x with
                 | try_invoke _ _ _ _ => fail
                 | _ => destruct x
                 end
             end;
      first [by left | right; rewrite try_invoke_failed by done; by eexists _, _]. }
  split; [done |].
  destruct H as [-> | (cmd & args & ->)].
  - repeat split; apply not_elem_of_nil.
  - repeat split; rewrite !not_elem_of_cons;
      (repeat split; [done | done | apply not_elem_of_nil]).
Qed.

Lemma failure_refreshes_nothing_witness :
  dispatch (str "/repo") (Checkout (str "abc"))
    {| prompt_answer := None; confirm_answer := true; invoke_ok := false |} =
  [ Invoke "checkout_commit"
      [("path", AStr (str "/repo")); ("commitHash", AStr (str "abc"))];
    ToastError ].
Proof.
  destruct (failure_refreshes_nothing (str "/repo") (Checkout (str "abc"))
              {| prompt_answer := None; confirm_answer := true;
                 invoke_ok := false |} eq_refl) as [[H | (cmd & args & H)] _].
  - discriminate H.
  - reflexivity.
Defined.

(** X19. When the user cancels the prompt, answers it with blanks only, or
    declines the confirmation of a hard reset or of a branch deletion,
    the handler does nothing at all: the backend is not called and nothing
    is shown or refreshed. *)
Theorem giving_up_does_nothing (repoPath : jsstring) (op : operation)
    (e : env) :
  gave_up op e → dispatch repoPath op e = [].
Proof.
  destruct op as [h|h|h m|h|h|h| | |b|b|b f|o]; simpl; try done.
  - unfold handleCreateBranch. destruct (prompt_answer e); [| done].
    intros ->. by rewrite bool_decide_eq_true_2.
  - destruct m; try done. unfold handleResetTo. by intros ->.
  - unfold handleCreateTag. destruct (prompt_answer e); [| done].
    intros ->. by rewrite bool_decide_eq_true_2.
  - unfold handleDeleteBranch. by intros ->.
  - unfold handleRenameBranch. destruct (prompt_answer e); [| done].
    intros ->. by rewrite bool_decide_eq_true_2.
Qed.

Lemma giving_up_does_nothing_witness :
  dispatch (str "/repo") (CreateBranch (str "abc"))
    {| prompt_answer := Some (str "   "); confirm_answer := true;
       invoke_ok := true |} = [].
Proof. apply giving_up_does_nothing. by vm_compute. Defined.

(** *** Trimmed names *)

Lemma trimStart_head (s : jsstring) (c : N) :
  head (trimStart s) = Some c → is_space c = false.
Proof.
  induction s as [|x s IH]; simpl; [done |].
  destruct (is_space x) eqn:E; [done |]. by intros [= <-].
Qed.

Lemma trimStart_snoc (s : jsstring) (c : N) :
  is_space c = false → trimStart (s ++ [c]) = trimStart s ++ [c].
Proof.
  intros Hc. induction s as [|x s IH]; simpl; [by rewrite Hc |].
  by destruct (is_space x).
Qed.

Lemma trimStart_id (s : jsstring) :
  (∀ c, head s = Some c → is_space c = false) → trimStart s = s.
Proof.
  destruct s as [|x s]; [done |]. intros H. simpl.
  by rewrite (H x eq_refl).
Qed.

Lemma trim_trimmed (s : jsstring) : trimmed (trim s).
Proof.
  unfold trimmed, trim. split.
  - intros c. destruct (trimStart s) as [|x t] eqn:E; [done |].
    assert (is_space x = false) as Hx
      by (apply (trimStart_head s); by rewrite E).
    rewrite reverse_cons, trimStart_snoc, reverse_snoc by done.
    by intros [= <-].
  - intros c. rewrite last_reverse. apply trimStart_head.
Qed.

Lemma trimStart_split (s : jsstring) :
  ∃ l, s = l ++ trimStart s ∧ Forall (λ c, is_space c = true) l.
Proof.
  induction s as [|x s (l & E & Hl)]; [by exists [] |]. simpl.
  destruct (is_space x) eqn:Hx; [| by exists []].
  exists (x :: l). split; [simpl; congruence | by constructor].
Qed.

(** [trim] takes white space away at both ends and nothing else. *)
Lemma trim_split (s : jsstring) :
  ∃ l r, s = l ++ trim s ++ r ∧
         Forall (λ c, is_space c = true) l ∧
         Forall (λ c, is_space c = true) r.
Proof.
  destruct (trimStart_split s) as (l & E & Hl).
  destruct (trimStart_split (reverse (trimStart s))) as (r & E' & Hr).
  exists l, (reverse r). split; [| split; [done | by apply Forall_reverse]].
  unfold trim. rewrite <- reverse_app, <- E', reverse_involutive. exact E.
Qed.

(** X20. The name a handler sends to the backend after a prompt is the
    trimmed answer: the answer without the white space at its two ends,
    which is never empty and neither begins nor ends with white space. *)
Theorem sent_names_are_trimmed (repoPath : jsstring) (e : env) :
  (∀ h cmd args, Invoke cmd args ∈ handleCreateBranch repoPath h e →
     ∃ answer, prompt_answer e = Some answer ∧ trim answer ≠ [] ∧
       cmd = "create_branch_at"%string ∧
       args = [("path"%string, AStr repoPath);
               ("branchName"%string, AStr (trim answer));
               ("commitHash"%string, AStr h)]) ∧
  (∀ h cmd args, Invoke cmd args ∈ handleCreateTag repoPath h e →
     ∃ answer, prompt_answer e = Some answer ∧ trim answer ≠ [] ∧
       cmd = "create_tag"%string ∧
       args = [("path"%string, AStr repoPath);
               ("tagName"%string, AStr (trim answer));
               ("commitHash"%string, AStr h)]) ∧
  (∀ o cmd args, Invoke cmd args ∈ handleRenameBranch repoPath o e →
     ∃ answer, prompt_answer e = Some answer ∧ trim answer ≠ [] ∧
       cmd = "rename_branch"%string ∧
       args = [("path"%string, AStr repoPath);
               ("oldName"%string, AStr o);
               ("newName"%string, AStr (trim answer))]) ∧
  (∀ answer,
     trimmed (trim answer) ∧
     ∃ l r, answer = l ++ trim answer ++ r ∧
            Forall (λ c, is_space c = true) l ∧
            Forall (λ c, is_space c = true) r).
Proof.
  assert (∀ cmd' args' after cmd args,
            Invoke cmd args ∈ try_invoke e cmd' args' after →
            (∀ x, x ∈ after → ∀ c a, x ≠ Invoke c a) →
            cmd = cmd' ∧ args = args') as Hinv.
  { intros cmd' args' after cmd args H Hafter. unfold try_invoke in H.
    apply elem_of_cons in H as [[= -> ->] | H]; [done |].
    destruct (invoke_ok e).
    - apply elem_of_cons in H as [H | H]; [done |].
      by destruct (Hafter _ H cmd args).
    - apply elem_of_cons in H as [H | H]; [done |]. by apply elem_of_nil in H. }
  split; [| split; [| split]].
  - intros h cmd args H. unfold handleCreateBranch in H.
    destruct (prompt_answer e) as [a|]; [| by apply elem_of_nil in H].
    case_bool_decide as Ha; [by apply elem_of_nil in H |].
    apply Hinv in H as [-> ->]; [by exists a |].
    intros x Hx c a'. rewrite !elem_of_cons in Hx.
    destruct Hx as [-> | [-> | Hx]]; [done | done | by apply elem_of_nil in Hx].
  - intros h cmd args H. unfold handleCreateTag in H.
    destruct (prompt_answer e) as [a|]; [| by apply elem_of_nil in H].
    case_bool_decide as Ha; [by apply elem_of_nil in H |].
    apply Hinv in H as [-> ->]; [by exists a |].
    intros x Hx c a'. rewrite !elem_of_cons in Hx.
    destruct Hx as [-> | Hx]; [done | by apply elem_of_nil in Hx].
  - intros o cmd args H. unfold handleRenameBranch in H.
    destruct (prompt_answer e) as [a|]; [| by apply elem_of_nil in H].
    case_bool_decide as Ha; [by apply elem_of_nil in H |].
    case_bool_decide as Hb; [by apply elem_of_nil in H |]. simpl in H.
    apply Hinv in H as [-> ->]; [by exists a |].
    intros x Hx c a'. rewrite !elem_of_cons in Hx.
    destruct Hx as [-> | [-> | Hx]]; [done | done | by apply elem_of_nil in Hx].
  - intros answer. split; [apply trim_trimmed | apply trim_split].
Qed.

(** X21. The guard of [handleRenameBranch] against a rename to the same
    name compares the answer before it is trimmed: an answer that is the
    old name followed by a blank passes the guard, and the backend is
    asked to rename the branch to its own name. *)
Theorem rename_to_same_name (repoPath oldName : jsstring) (e : env) :
  oldName ≠ [] → trimmed oldName →
  prompt_answer e = Some (oldName ++ str " ") →
  ∃ after,
    handleRenameBranch repoPath oldName e =
    Invoke "rename_branch"
      [("path", AStr repoPath); ("oldName", AStr oldName);
       ("newName", AStr oldName)] :: after.
Proof.
  intros Hne [Hh Hl] Hp. unfold handleRenameBranch. rewrite Hp.
  assert (trim (oldName ++ str " ") = oldName) as E.
  { change (str " ") with [32%N]. unfold trim.
    rewrite (trimStart_id (oldName ++ [32%N])).
    - rewrite reverse_snoc. simpl.
      rewrite trimStart_id; [apply reverse_involutive |].
      intros c. rewrite head_reverse. apply Hl.
    - intros c Hc. apply Hh. by destruct oldName. }
  rewrite E.
  rewrite bool_decide_eq_false_2 by done.
  rewrite bool_decide_eq_false_2.
  - simpl. unfold try_invoke. by eexists.
  - intros H. apply (f_equal length) in H. rewrite length_app in H.
    simpl in H. lia.
Qed.

Lemma rename_to_same_name_witness :
  ∃ after,
    handleRenameBranch (str "/repo") (str "main")
      {| prompt_answer := Some (str "main "); confirm_answer := true;
         invoke_ok := true |} =
    Invoke "rename_branch"
      [("path", AStr (str "/repo")); ("oldName", AStr (str "main"));
       ("newName", AStr (str "main"))] :: after.
Proof.
  apply (rename_to_same_name (str "/repo") (str "main")); [done | | done].
  split; intros c [= <-]; reflexivity.
Defined.

End HandlersMore.

(** ** More of the debounced listener: any sequence of notifications, and
    the cleanup of the effect *)

Module DebounceMore.
Import Debounce.

(** The effect and its listener.  [listen] registers the listener.  The
    cleanup, run when the selected repository changes or the component
    goes, clears the pending timer and asks for the removal of the
    listener with [unlisten.then(fn => fn())]; the reaction runs in a later
    turn of the event loop, and until it has run the listener is still
    called. *)
Record effect_state : Type := mkEffect {
  lp : loop;
  listening : bool;          (* the listener is registered *)
  unlisten_asked : bool      (* the cleanup has run *)
}.

Definition mounted (t : Z) : effect_state :=
  {| lp := start t; listening := true; unlisten_asked := false |}.

(** The backend emits [git-changed] at time [t]: the listener runs if it
    is still registered. *)
Definition git_changed (s : effect_state) (t : Z) : effect_state :=
  {| lp := if listening s then notify (lp s) t else advance t (lp s);
     listening := listening s; unlisten_asked := unlisten_asked s |}.

(** The cleanup runs at time [t]:
    [if (debounceTimer) clearTimeout(debounceTimer)], and the removal of
    the listener is asked for. *)
Definition cleanup (t : Z) (s : effect_state) : effect_state :=
  let l := advance t (lp s) in
  {| lp := match debounceTimer l with
           | Some i => clearTimeout i l
           | None => l
           end;
     listening := listening s; unlisten_asked := true |}.

(** The reaction [fn => fn()] has run at time [t]: the listener is
    removed. *)
Definition unlistened (t : Z) (s : effect_state) : effect_state :=
  {| lp := advance t (lp s);
     listening := if unlisten_asked s then false else listening s;
     unlisten_asked := unlisten_asked s |}.

(** Notifications in the order of time, none before [t]. *)
Fixpoint ascending (t : Z) (ts : list Z) : Prop :=
  match ts with
  | [] => True
  | t' :: ts' => (t ≤ t')%Z ∧ ascending t' ts'
  end.

(** What the effect keeps true: at most one timer is pending, the one
    [debounceTimer] names, set 300ms after a notification; and every call
    of [fetchRepoInfo] so far came 300ms after a notification. *)
Definition tidy (seen : list Z) (t : Z) (l : loop) : Prop :=
  now l = t ∧
  (timers l = [] ∨
   ∃ i s, timers l = [(i, (s + DELAY)%Z)] ∧ debounceTimer l = Some i ∧
          s ∈ seen) ∧
  Forall (λ f, ∃ s, s ∈ seen ∧ f = (s + DELAY)%Z) (fetched l) ∧
  length (fetched l) + length (timers l) ≤ length seen.

(** *** The invariant *)

Lemma tidy_more (seen seen' : list Z) (t : Z) (l : loop) :
  tidy seen t l → tidy (seen ++ seen') t l.
Proof.
  intros (Hn & Ht & Hf & Hl). split; [done |]. split; [| split].
  - destruct Ht as [Ht | (i & s & Ht & Hd & Hs)]; [by left |].
    right. exists i, s. split; [done |]. split; [done |].
    apply elem_of_app. by left.
  - eapply Forall_impl; [exact Hf |]. intros f (s & Hs & ->).
    exists s. split; [apply elem_of_app; by left | done].
  - rewrite length_app. lia.
Qed.

Lemma advance_tidy (seen : list Z) (t t' : Z) (l : loop) :
  tidy seen t l → (t ≤ t')%Z → tidy seen t' (advance t' l).
Proof.
  intros (Hn & Ht & Hf & Hl) Hle. unfold tidy, advance.
  cbn [now timers fetched debounceTimer].
  split; [lia |].
  destruct Ht as [Ht | (i & s & Ht & Hd & Hs)]; rewrite Ht in *.
  - rewrite !filter_nil. simpl. rewrite app_nil_r.
    split; [by left |]. split; [done | by simpl in Hl].
  - rewrite (filter_one (λ tm : nat * Z, (tm.2 ≤ t')%Z)).
    rewrite (filter_one (λ tm : nat * Z, ¬ (tm.2 ≤ t')%Z)). cbn [snd].
    destruct (decide (s + DELAY ≤ t')%Z) as [Hdue|Hdue].
    + rewrite decide_False by tauto. simpl.
      split; [by left |]. split.
      * apply Forall_app. split; [done |]. constructor; [| done]. by exists s.
      * rewrite length_app. simpl in *. lia.
    + rewrite decide_True by done. simpl. rewrite app_nil_r.
      split; [right; by exists i, s |]. split; [done | by simpl in Hl].
Qed.

Lemma on_git_changed_rest (l : loop) :
  now (on_git_changed l) = now l ∧
  fetched (on_git_changed l) = fetched l ∧
  debounceTimer (on_git_changed l) = Some (next_id l).
Proof. unfold on_git_changed. by destruct (debounceTimer l). Qed.

Lemma on_git_changed_single (l : loop) :
  (timers l = [] ∨
   ∃ i d, timers l = [(i, d)] ∧ debounceTimer l = Some i) →
  timers (on_git_changed l) = [(next_id l, (now l + DELAY)%Z)].
Proof.
  intros H. rewrite on_git_changed_timers.
  destruct H as [Ht | (i & d & Ht & Hd)].
  - rewrite Ht. by destruct (debounceTimer l).
  - rewrite Hd, Ht. rewrite (filter_one (λ tm : nat * Z, tm.1 ≠ i)).
    cbn [fst]. by rewrite decide_False by tauto.
Qed.

Lemma notify_tidy (seen : list Z) (t t' : Z) (l : loop) :
  tidy seen t l → (t ≤ t')%Z → tidy (seen ++ [t']) t' (notify l t').
Proof.
  intros H Hle. apply (advance_tidy seen t t' l) in H; [| done].
  destruct H as (Hn & Ht & Hf & Hl). unfold notify.
  destruct (on_git_changed_rest (advance t' l)) as (En & Ef & Ed).
  assert (timers (on_git_changed (advance t' l)) =
          [(next_id (advance t' l), (t' + DELAY)%Z)]) as Et.
  { rewrite on_git_changed_single, Hn; [done |].
    destruct Ht as [Ht | (i & s & Ht & Hd & _)]; [by left |].
    right. by exists i, (s + DELAY)%Z. }
  unfold tidy. rewrite En, Ef, Ed, Et. split; [done |]. split; [| split].
  - right. exists (next_id (advance t' l)), t'.
    split; [done |]. split; [done |]. apply elem_of_app. right. by left.
  - eapply Forall_impl; [exact Hf |]. intros f (s & Hs & ->).
    exists s. split; [apply elem_of_app; by left | done].
  - rewrite length_app. simpl.
    destruct Ht as [Ht | (i & s & Ht & _)]; rewrite Ht in Hl; simpl in Hl; lia.
Qed.

Lemma run_tidy (ts seen : list Z) (t : Z) (l : loop) :
  tidy seen t l → ascending t ts →
  tidy (seen ++ ts) (List.last ts t) (fold_left notify ts l).
Proof.
  revert seen t l. induction ts as [|t' ts IH]; intros seen t l H Hasc.
  - simpl. by rewrite app_nil_r.
  - destruct Hasc as [Hle Hasc].
    rewrite last_cons_default. cbn [fold_left].
    replace (seen ++ t' :: ts) with ((seen ++ [t']) ++ ts)
      by (by rewrite <- app_assoc).
    apply IH; [| done]. by apply (notify_tidy seen t t' l).
Qed.

Lemma start_tidy (t : Z) : tidy [] t (start t).
Proof.
  unfold tidy, start. simpl. split; [done |]. split; [by left |].
  split; [constructor | lia].
Qed.

(** X22. Whatever the notifications, in the order of time: every call of
    [fetchRepoInfo] comes exactly 300ms after one of them, there are never
    more calls than notifications, and at most one timer is pending. *)
Theorem fetches_follow_notifications (t0 : Z) (ts : list Z) (T : Z) :
  ascending t0 ts → (List.last ts t0 ≤ T)%Z →
  Forall (λ f, ∃ s, s ∈ ts ∧ f = (s + DELAY)%Z)
         (fetched (advance T (fold_left notify ts (start t0)))) ∧
  length (fetched (advance T (fold_left notify ts (start t0)))) ≤ length ts ∧
  length (timers (advance T (fold_left notify ts (start t0)))) ≤ 1.
Proof.
  intros Hasc HT.
  pose proof (run_tidy ts [] t0 (start t0) (start_tidy t0) Hasc) as H.
  apply (advance_tidy _ _ T) in H; [| done].
  destruct H as (_ & Ht & Hf & Hl). simpl in *.
  split; [done |]. split; [lia |].
  destruct Ht as [-> | (i & s & -> & _)]; simpl; lia.
Qed.

Lemma fetches_follow_notifications_witness :
  fetched (advance 2000 (fold_left notify [0; 100; 700; 750]%Z (start 0))) =
  [400; 1050]%Z ∧
  Forall (λ f, ∃ s, s ∈ [0; 100; 700; 750]%Z ∧ f = (s + DELAY)%Z)
         (fetched (advance 2000 (fold_left notify [0; 100; 700; 750]%Z
                                   (start 0)))).
Proof.
  split; [by vm_compute |].
  apply (fetches_follow_notifications 0 [0; 100; 700; 750]%Z 2000);
    simpl; lia.
Defined.

(** *** The cleanup *)

Lemma advance_idle (l : loop) (T : Z) :
  timers l = [] →
  fetched (advance T l) = fetched l ∧ timers (advance T l) = [].
Proof.
  intros H. unfold advance. cbn [fetched timers]. rewrite H, !filter_nil.
  simpl. by rewrite app_nil_r.
Qed.

Lemma advance_single (l : loop) (i : nat) (d T : Z) :
  timers l = [(i, d)] →
  ((d ≤ T)%Z →
     fetched (advance T l) = fetched l ++ [d] ∧ timers (advance T l) = []) ∧
  ((T < d)%Z →
     fetched (advance T l) = fetched l ∧ timers (advance T l) = [(i, d)]).
Proof.
  intros H. unfold advance. cbn [fetched timers]. rewrite H.
  rewrite (filter_one (λ tm : nat * Z, (tm.2 ≤ T)%Z)).
  rewrite (filter_one (λ tm : nat * Z, ¬ (tm.2 ≤ T)%Z)). cbn [snd].
  split; intros HT.
  - by rewrite decide_True, decide_False by tauto.
  - rewrite decide_False, decide_True by lia. simpl. by rewrite app_nil_r.
Qed.

(** Whenever the clock passes the deadline of the one pending timer, the
    fetch is made, once. *)
Lemma advance_twice (l : loop) (i : nat) (d tu T : Z) :
  timers l = [(i, d)] → (d ≤ T)%Z →
  fetched (advance T (advance tu l)) = fetched l ++ [d].
Proof.
  intros H HT. destruct (advance_single l i d tu H) as [Hdue Hearly].
  destruct (decide (d ≤ tu)%Z) as [Hd|Hd].
  - destruct (Hdue Hd) as [Ef Et].
    destruct (advance_idle (advance tu l) T Et) as [-> _]. exact Ef.
  - destruct (Hearly ltac:(lia)) as [Ef Et].
    destruct (advance_single (advance tu l) i d T Et) as [Hdue' _].
    destruct (Hdue' HT) as [-> _]. by rewrite Ef.
Qed.

Lemma notify_after_tidy (seen : list Z) (t t' : Z) (l : loop) :
  tidy seen t l → (t ≤ t')%Z → armed t' (notify l t').
Proof.
  intros H Hle. apply (advance_tidy seen t t' l) in H; [| done].
  destruct H as (Hn & Ht & _). unfold notify, armed.
  destruct (on_git_changed_rest (advance t' l)) as (En & _ & Ed).
  exists (next_id (advance t' l)).
  rewrite En, Ed, on_git_changed_single, Hn; [done |].
  destruct Ht as [Ht | (i & s & Ht & Hd & _)]; [by left |].
  right. by exists i, (s + DELAY)%Z.
Qed.

Lemma run_armed (ts seen : list Z) (t : Z) (l : loop) :
  tidy seen t l → ascending t ts → ts ≠ [] →
  armed (List.last ts t) (fold_left notify ts l).
Proof.
  revert seen t l. induction ts as [|t' ts IH]; intros seen t l H Hasc Hne;
    [done |].
  destruct Hasc as [Hle Hasc]. rewrite last_cons_default. cbn [fold_left].
  destruct ts as [|t'' ts]; [by apply (notify_after_tidy seen t) |].
  apply (IH (seen ++ [t']) t');
    [by apply (notify_tidy seen t t' l) | done | done].
Qed.

Lemma fetched_grows (ts : list Z) (l : loop) :
  fetched l `prefix_of` fetched (fold_left notify ts l).
Proof.
  revert l. induction ts as [|t ts IH]; intros l; [done |].
  cbn [fold_left]. etrans; [| apply IH]. unfold notify.
  destruct (on_git_changed_rest (advance t l)) as (_ & -> & _).
  unfold advance. cbn [fetched]. by eexists.
Qed.

Lemma run_listening (ts : list Z) (s : effect_state) :
  listening s = true →
  fold_left git_changed ts s =
  {| lp := fold_left notify ts (lp s); listening := true;
     unlisten_asked := unlisten_asked s |}.
Proof.
  revert s. induction ts as [|t ts IH]; intros s Hs.
  - simpl. destruct s. simpl in Hs. by rewrite Hs.
  - cbn [fold_left]. rewrite IH; unfold git_changed; by rewrite Hs.
Qed.

Lemma run_removed (ts : list Z) (s : effect_state) :
  listening s = false → timers (lp s) = [] →
  fetched (lp (fold_left git_changed ts s)) = fetched (lp s) ∧
  timers (lp (fold_left git_changed ts s)) = [].
Proof.
  revert s. induction ts as [|t ts IH]; intros s Hs Ht; [done |].
  cbn [fold_left].
  destruct (advance_idle (lp s) t Ht) as [Ef Et].
  destruct (IH (git_changed s t)) as [-> ->];
    unfold git_changed; rewrite Hs; done.
Qed.

Lemma cleanup_tidy (seen : list Z) (t tc : Z) (l : loop) (b u : bool) :
  tidy seen t l → (t ≤ tc)%Z →
  tidy seen tc (lp (cleanup tc (mkEffect l b u))) ∧
  timers (lp (cleanup tc (mkEffect l b u))) = [] ∧
  fetched (lp (cleanup tc (mkEffect l b u))) = fetched (advance tc l).
Proof.
  intros H Hle. apply (advance_tidy seen t tc l) in H; [| done].
  destruct H as (Hn & Ht & Hf & Hl). unfold cleanup. cbn [lp].
  set (l' := advance tc l) in *.
  assert (timers match debounceTimer l' with
                 | Some i => clearTimeout i l'
                 | None => l'
                 end = []) as E.
  { destruct Ht as [Ht | (i & s & Ht & Hd & _)].
    - destruct (debounceTimer l'); [| done].
      unfold clearTimeout. cbn [timers]. by rewrite Ht.
    - rewrite Hd. unfold clearTimeout. cbn [timers]. rewrite Ht.
      rewrite (filter_one (λ tm : nat * Z, tm.1 ≠ i)). cbn [fst].
      by rewrite decide_False by tauto. }
  split; [| split; [done | by destruct (debounceTimer l')]].
  unfold tidy. rewrite E.
  split; [by destruct (debounceTimer l') |].
  split; [by left |].
  split; [by destruct (debounceTimer l') |].
  destruct (debounceTimer l'); cbn [fetched clearTimeout length]; lia.
Qed.

(** X23. The cleanup of the effect clears the pending timer, but it
    removes the listener only later.  If no notification comes before the
    listener is removed, [fetchRepoInfo] is never called again, whatever
    is emitted afterwards and however far the clock moves.  If
    notifications still come before the listener is removed, the last of
    them is followed by a call of [fetchRepoInfo] 300ms later, although
    the effect has been cleaned up. *)
Theorem cleanup_clears_timer_not_listener (t0 : Z) (ts : list Z) (tc : Z) :
  ascending t0 ts → (List.last ts t0 ≤ tc)%Z →
  timers (lp (cleanup tc (fold_left git_changed ts (mounted t0)))) = [] ∧
  (∀ tu after T,
     fetched (advance T (lp (fold_left git_changed after
        (unlistened tu
           (cleanup tc (fold_left git_changed ts (mounted t0))))))) =
     fetched (lp (cleanup tc (fold_left git_changed ts (mounted t0))))) ∧
  (∀ late tu T,
     late ≠ [] → ascending tc late → (List.last late tc + DELAY ≤ T)%Z →
     ∃ more,
       fetched (advance T (lp (unlistened tu (fold_left git_changed late
          (cleanup tc (fold_left git_changed ts (mounted t0))))))) =
       fetched (lp (cleanup tc (fold_left git_changed ts (mounted t0))))
         ++ more ++ [(List.last late tc + DELAY)%Z]).
Proof.
  intros Hasc Htc.
  rewrite run_listening by done. cbn [lp mounted unlisten_asked].
  pose proof (run_tidy ts [] t0 (start t0) (start_tidy t0) Hasc) as H.
  destruct (cleanup_tidy _ _ tc _ true false H Htc) as (Htidy & Et & Ef).
  set (s := cleanup tc _) in *.
  assert (listening s = true ∧ unlisten_asked s = true) as [Hl Hu] by done.
  split; [done |]. split.
  - intros tu after T.
    destruct (advance_idle (lp s) tu Et) as [Ef' Et'].
    destruct (run_removed after (unlistened tu s)) as [Ea Eta];
      [unfold unlistened; by rewrite Hu | done |].
    destruct (advance_idle _ T Eta) as [-> _]. by rewrite Ea.
  - intros late tu T Hne Hlate HT.
    rewrite run_listening by done. unfold unlistened. cbn [lp].
    pose proof (run_armed late _ tc (lp s) Htidy Hlate Hne) as (i & Hi & _).
    rewrite (advance_twice _ i _ tu T Hi HT).
    destruct (fetched_grows late (lp s)) as [more ->].
    exists more. by rewrite <- app_assoc.
Qed.

Lemma cleanup_clears_timer_not_listener_witness :
  fetched (advance 5000 (lp (fold_left git_changed [1300; 1400]%Z
     (unlistened 270
        (cleanup 250 (fold_left git_changed [0; 100]%Z (mounted 0))))))) = [] ∧
  fetched (advance 5000 (lp (unlistened 270
     (fold_left git_changed [260]%Z
        (cleanup 250 (fold_left git_changed [0; 100]%Z (mounted 0))))))) =
  [560]%Z.
Proof.
  pose proof (cleanup_clears_timer_not_listener 0 [0; 100]%Z 250) as H.
  destruct H as (_ & Hquiet & Hlate); [simpl; lia | simpl; lia |].
  split.
  - etrans; [apply Hquiet |]. by vm_compute.
  - by vm_compute.
Defined.

End DebounceMore.

(** ** The detail panel of [BranchGraph]: the selected commit and its diff *)

Module CommitDetail.
Import JsString.

(** The state the panel reads. *)
Record detail : Type := mkDetail {
  selectedCommit : option jsstring;
  commitDiff : jsstring;
  diffLoading : bool;
  expandedFiles : gset jsstring
}.

Definition closed : detail :=
  {| selectedCommit := None; commitDiff := []; diffLoading := false;
     expandedFiles := ∅ |}.

(** What happens to the panel: a click on a commit, and the promise of
    [getCommitDiff] settling.  The callbacks of the promise close over
    nothing that tells which commit the diff was asked for. *)
Inductive event : Type :=
| Click (hash : jsstring)
| Resolved (diff : jsstring)
| Rejected.

(** A click selects the commit, or unselects it when it is the selected
    one; the effect on [selectedCommit] then empties the diff and the set
    of expanded files, and asks for the diff of the new selection. *)
Definition step (st : detail) (ev : event) : detail :=
  match ev with
  | Click hash =>
      if decide (selectedCommit st = Some hash) then
        {| selectedCommit := None; commitDiff := [];
           diffLoading := diffLoading st; expandedFiles := ∅ |}
      else
        {| selectedCommit := Some hash; commitDiff := [];
           diffLoading := true; expandedFiles := ∅ |}
  | Resolved diff =>
      {| selectedCommit := selectedCommit st; commitDiff := diff;
         diffLoading := false; expandedFiles := expandedFiles st |}
  | Rejected =>
      {| selectedCommit := selectedCommit st; commitDiff := [];
         diffLoading := false; expandedFiles := expandedFiles st |}
  end.

Definition run (evs : list event) (st : detail) : detail :=
  fold_left step evs st.

(** X24. A diff that arrives is shown whatever commit is selected by then:
    when two commits are clicked one after the other and the diff of the
    first arrives last, the panel shows the second commit with the diff
    of the first.  When each diff arrives before the next click, the
    panel shows the diff of the selected commit. *)
Theorem late_diff_overwrites (st : detail) (a b da db : jsstring) :
  a ≠ b → selectedCommit st ≠ Some a →
  run [Click a; Click b; Resolved db; Resolved da] st =
    {| selectedCommit := Some b; commitDiff := da; diffLoading := false;
       expandedFiles := ∅ |} ∧
  run [Click a; Resolved da; Click b; Resolved db] st =
    {| selectedCommit := Some b; commitDiff := db; diffLoading := false;
       expandedFiles := ∅ |}.
Proof.
  intros Hab Ha. unfold run. simpl.
  rewrite (decide_False (P := selectedCommit st = Some a)) by done. simpl.
  rewrite !(decide_False (P := Some a = Some b)) by congruence. done.
Qed.

Lemma late_diff_overwrites_witness :
  commitDiff (run [Click (str "c1"); Click (str "c2");
                   Resolved (str "diff of c2"); Resolved (str "diff of c1")]
                  closed) = str "diff of c1".
Proof.
  rewrite (proj1 (late_diff_overwrites closed (str "c1") (str "c2")
                    (str "diff of c1") (str "diff of c2")
                    ltac:(done) ltac:(done))).
  reflexivity.
Defined.

End CommitDetail.
